(** * RandomUser page checks and the login-form selector helper

    A shallow embedding of [testingRandomUser.js] (the nine page checks and
    [runAll]), of [taiko-login.js] ([firstSelectorExists] and the two login
    tests) and of the two scripts that call [runAll].

    The browser-automation engine (Playwright's [page] and element handles)
    is an injected capability: it is modelled by the interface [PageDriver]
    over an abstract page state [W] and an abstract type of element handles
    [H].  Every [async] function of the source becomes an action in a small
    state-and-exception monad [Act] that also records, as a history, each
    call made to the driver together with its answer. *)

From Stdlib Require Import Floats ZArith DecimalString.
From stdpp Require Import gmap strings list.

(** ** JavaScript values used by the scripts *)

(** A rejected promise or thrown exception, the driver's or the script's
    own, carries a message. *)
Definition error := string.

(** The result of an awaited driver call: a value, or a fault. *)
Inductive outcome (A : Type) : Type :=
| Ok (a : A)
| Fault (e : error).
Arguments Ok {A} a.
Arguments Fault {A} e.

(** A selector expression handed to the driver.  [sel.userCard] of a partial
    selector object is [undefined]: that is [None]. *)
Definition selector := option string.

(** [boundingBox()] of an element, numbers being IEEE binary64. *)
Record Box := { box_x : float; box_y : float; box_width : float; box_height : float }.

(** [viewportSize()] of the page. *)
Record Viewport := { vp_width : float; vp_height : float }.

(** The three closures passed to [evaluate] in [checkNavbarPhotos]. *)
Inductive StyleFn :=
| GetOpacity            (* (el) => window.getComputedStyle(el).opacity *)
| GetTransition.        (* (el) => window.getComputedStyle(el).transition || '' *)

(** The [details] payloads, one constructor per object literal of the source. *)
Inductive Details :=
| DCount (count : nat)
| DIndex (index : nat)
| DDelta (deltaX deltaY : float) (viewport : Viewport)
| DReadable (hasTitle hasText : bool)
| DControls (next prev slider : bool) (radios checkboxes : nat)
| DOpacity (initialOpacity laterOpacity transition : string)
| DAnchors (anchors : nat)
| DBars (bars : nat)
| DAntiBot (robotCheckbox captchaFrame : bool).

(** [{ ok, message?, details? }] *)
Record CheckResult := {
  ok : bool;
  message : option string;
  details : option Details
}.

(** [details.count], [undefined] when the payload has no such key. *)
Definition details_count (r : CheckResult) : option nat :=
  match details r with
  | Some (DCount n) => Some n
  | _ => None
  end.

(** [{ overall: { ok }, details: results }]; [results] keeps its keys in
    insertion order. *)
Record Report := {
  overall_ok : bool;
  report_details : list (string * CheckResult)
}.

(** The value found under the [selectors] key: [undefined], [null], or an
    object from selector names to selector expressions.  (A number or a
    string there has none of the properties the checks read: it reads like
    the empty object.) *)
Inductive Selectors :=
| SelUndefined
| SelNull
| SelObject (props : gmap string string).

(** The value found under the [url] key: [undefined], [null], or a string.
    The scripts never look into it, they hand it to the driver's [goto]. *)
Inductive Url :=
| UrlUndefined
| UrlNull
| UrlString (address : string).
Coercion UrlString : string >-> Url.

(** The caller's [options] object: each key may be missing, or be there
    with the value [undefined] or [null]. *)
Record Options := {
  opt_url : option Url;
  opt_selectors : option Selectors
}.

(** The object after the spread: both keys are there. *)
Record Config := {
  url : Url;
  selectors : Selectors
}.

(** The message of the TypeError raised by reading property [key] of
    [undefined] or of [null]. *)
Definition cannot_read (what key : string) : error :=
  "Cannot read properties of " +:+ what +:+ " (reading '" +:+ key +:+ "')".

(** [`${i}`] for an array index. *)
Definition index_to_string (i : nat) : string :=
  NilZero.string_of_uint (Nat.to_uint i).

(** [!current] for a string. *)
Definition falsy (s : string) : bool := String.eqb s "".

(** [href.startsWith('#')] *)
Definition startsWith_hash (href : string) : bool := String.prefix "#" href.

(** [href.slice(1)] *)
Definition slice1 (href : string) : string :=
  match href with
  | EmptyString => EmptyString
  | String _ rest => rest
  end.

(** [hay.includes(needle)], by which a message is read for an id. *)
Fixpoint includes (needle hay : string) : bool :=
  String.prefix needle hay
  || match hay with
     | EmptyString => false
     | String _ rest => includes needle rest
     end.

(** [!!x] for an element handle or [null]. *)
Definition present {A} (x : option A) : bool :=
  match x with Some _ => true | None => false end.

(** Builtins of the JavaScript engine that the checks call. *)
Class JsRuntime := {
  parseFloat : string → float
}.

(** ** The Page Driver capability *)

(** Queries read the page state; [goto], [click] and [waitForTimeout] may
    change it.  Every awaited call may fault. *)
Class PageDriver (W H : Type) := {
  page_url : W → string;
  page_goto : Url → W → outcome unit * W;
  page_query : selector → W → outcome (option H);          (* page.$  *)
  page_queryAll : selector → W → outcome (list H);         (* page.$$ *)
  page_viewportSize : W → option Viewport;
  page_waitForTimeout : nat → W → outcome unit * W;
  el_query : H → selector → W → outcome (option H);        (* el.$  *)
  el_queryAll : H → selector → W → outcome (list H);       (* el.$$ *)
  el_click : H → W → outcome unit * W;
  el_boundingBox : H → W → outcome (option Box);
  el_evaluate : H → StyleFn → W → outcome string;
  el_getAttribute : H → string → W → outcome (option string)
}.

(** One call to the driver with its answer. *)
Inductive event (H : Type) : Type :=
| EUrl (current : string)
| EGoto (u : Url) (r : outcome unit)
| EQuery (s : selector) (r : outcome (option H))
| EQueryAll (s : selector) (r : outcome (list H))
| EViewportSize (r : option Viewport)
| EWaitForTimeout (ms : nat) (r : outcome unit)
| EElQuery (h : H) (s : selector) (r : outcome (option H))
| EElQueryAll (h : H) (s : selector) (r : outcome (list H))
| EClick (h : H) (r : outcome unit)
| EBoundingBox (h : H) (r : outcome (option Box))
| EEvaluate (h : H) (f : StyleFn) (r : outcome string)
| EGetAttribute (h : H) (name : string) (r : outcome (option string)).
Arguments EUrl {H} current.
Arguments EGoto {H} u r.
Arguments EQuery {H} s r.
Arguments EQueryAll {H} s r.
Arguments EViewportSize {H} r.
Arguments EWaitForTimeout {H} ms r.
Arguments EElQuery {H} h s r.
Arguments EElQueryAll {H} h s r.
Arguments EClick {H} h r.
Arguments EBoundingBox {H} h r.
Arguments EEvaluate {H} h f r.
Arguments EGetAttribute {H} h name r.

(** ** The monad of the [async] functions *)

Record Run (W H A : Type) := MkRun {
  out : outcome A;          (* resolved value, or the rejection *)
  world : W;                (* page state afterwards *)
  log : list (event H)      (* driver calls made, oldest first *)
}.
Arguments MkRun {W H A} out world log.
Arguments out {W H A} r.
Arguments world {W H A} r.
Arguments log {W H A} r.

Definition Act (W H A : Type) : Type := W → Run W H A.

Definition ret {W H A} (a : A) : Act W H A :=
  fun w => MkRun (Ok a) w [].

Definition bind {W H A B} (m : Act W H A) (k : A → Act W H B) : Act W H B :=
  fun w =>
    let r := m w in
    match out r with
    | Ok a => let r' := k a (world r) in MkRun (out r') (world r') (log r ++ log r')
    | Fault e => MkRun (Fault e) (world r) (log r)
    end.

(** [throw e]: an exception of the script's own, no driver call made. *)
Definition throw {W H A} (e : error) : Act W H A :=
  fun w => MkRun (Fault e) w [].

(** [sel.key]: a TypeError when [sel] is [undefined] or [null]. *)
Definition prop {W H} (sel : Selectors) (key : string) : Act W H selector :=
  match sel with
  | SelObject props => ret (props !! key)
  | SelUndefined => throw (cannot_read "undefined" key)
  | SelNull => throw (cannot_read "null" key)
  end.

(** [m] run from [w] resolves to [a] and leaves the page at [w']. *)
Definition yields {W H A} (m : Act W H A) (w : W) (a : A) (w' : W) : Prop :=
  out (m w) = Ok a ∧ world (m w) = w'.

Declare Scope act_scope.
Delimit Scope act_scope with act.
Notation "x <- m ;; k" := (bind m (fun x => k))
  (at level 100, m at next level, right associativity) : act_scope.
Notation "m ;;; k" := (bind m (fun _ => k))
  (at level 100, right associativity) : act_scope.
Open Scope act_scope.

(** A read of the page: state unchanged, the call logged. *)
Definition reading {W H A} (f : W → outcome A) (ev : outcome A → event H) : Act W H A :=
  fun w => MkRun (f w) w [ev (f w)].

(** An interaction with the page: the state moves on, the call logged. *)
Definition acting {W H} (f : W → outcome unit * W) (ev : outcome unit → event H) : Act W H unit :=
  fun w => MkRun (f w).1 (f w).2 [ev (f w).1].

Module page.
Section page.
Context {W H : Type} `{!PageDriver W H}.

Definition url : Act W H string :=
  fun w => MkRun (Ok (page_url w)) w [EUrl (page_url w)].
Definition goto (u : Url) : Act W H unit :=
  acting (page_goto u) (EGoto u).
Definition query (s : selector) : Act W H (option H) :=
  reading (page_query s) (EQuery s).
Definition queryAll (s : selector) : Act W H (list H) :=
  reading (page_queryAll s) (EQueryAll s).
Definition viewportSize : Act W H (option Viewport) :=
  fun w => MkRun (Ok (page_viewportSize w)) w [EViewportSize (page_viewportSize w)].
Definition waitForTimeout (ms : nat) : Act W H unit :=
  acting (page_waitForTimeout ms) (EWaitForTimeout ms).
End page.
End page.

Module el.
Section el.
Context {W H : Type} `{!PageDriver W H}.

Definition query (h : H) (s : selector) : Act W H (option H) :=
  reading (el_query h s) (EElQuery h s).
Definition queryAll (h : H) (s : selector) : Act W H (list H) :=
  reading (el_queryAll h s) (EElQueryAll h s).
Definition click (h : H) : Act W H unit :=
  acting (el_click h) (EClick h).
Definition boundingBox (h : H) : Act W H (option Box) :=
  reading (el_boundingBox h) (EBoundingBox h).
Definition evaluate (h : H) (f : StyleFn) : Act W H string :=
  reading (el_evaluate h f) (EEvaluate h f).
Definition getAttribute (h : H) (name : string) : Act W H (option string) :=
  reading (el_getAttribute h name) (EGetAttribute h name).
End el.
End el.

(** ** testingRandomUser.js *)

(** The double quote inside the attribute selectors. *)
Definition dq : string := String (Ascii.ascii_of_nat 34) EmptyString.

(** The selector literals written inline in the checks. *)
Definition NEXT_BUTTON : string :=
  "button[aria-label=" ++ dq ++ "avanti" ++ dq ++ "], button[aria-label=" ++ dq ++ "next" ++ dq
  ++ "], button:has-text(" ++ dq ++ "Avanti" ++ dq ++ ")".
Definition PREV_BUTTON : string :=
  "button[aria-label=" ++ dq ++ "indietro" ++ dq ++ "], button[aria-label=" ++ dq ++ "prev" ++ dq
  ++ "], button:has-text(" ++ dq ++ "Indietro" ++ dq ++ ")".
Definition RANGE_SLIDER : string := "input[type=" ++ dq ++ "range" ++ dq ++ "]".
Definition GENDER_RADIOS : string :=
  "[type=" ++ dq ++ "radio" ++ dq ++ "][name=" ++ dq ++ "gender" ++ dq ++ "]".
Definition NATIONALITY_CHECKBOXES : string :=
  "[type=" ++ dq ++ "checkbox" ++ dq ++ "][name=" ++ dq ++ "nationality" ++ dq ++ "]".
Definition TITLE_LIKE : string := "h1, h2, h3, h4, h5, .title".
Definition TEXT_LIKE : string := "p, span, .desc, .info".
Definition INTERNAL_ANCHORS : string := "a[href^=" ++ dq ++ "#" ++ dq ++ "]".
Definition CHART_BARS : string :=
  "[class*=" ++ dq ++ "bar" ++ dq ++ "], [class*=" ++ dq ++ "day" ++ dq ++ "], div[data-progress]".
Definition ROBOT_CHECKBOX : string :=
  "input[type=" ++ dq ++ "checkbox" ++ dq ++ "][aria-label*=" ++ dq ++ "robot" ++ dq
  ++ "], label:has-text(" ++ dq ++ "non sono un robot" ++ dq ++ ")".
Definition CAPTCHA_FRAME : string :=
  "iframe[src*=" ++ dq ++ "recaptcha" ++ dq ++ "], iframe[src*=" ++ dq ++ "hcaptcha" ++ dq ++ "]".

(** Default selectors e opzioni *)
Definition DEFAULT_OPTIONS : Config := {|
  url := "http://localhost:3000";
  selectors := SelObject (list_to_map [
    ("userCard", ".user-card");
    ("userName", ".user-name");
    ("userEmail", ".user-email");
    ("userNationality", ".user-nationality");
    ("refresh", "#refresh");
    ("navbarSecondItem", "nav >> nth=1");
    ("userPhotoImg", ".user-photo img");
    ("documentation", "#documentation, .documentation");
    ("versionsNav", "nav >> text=Versioni, nav >> text=RandomUser Versions, nav >> text=versioni");
    ("accessChart", ".access-chart, #access-chart");
    ("donateSection", "#donate, .donate")
  ])
|}.

(** [{ ...defaults, ...options }]: a key of [options] wins as a whole,
    whatever its value, [undefined] and [null] included; a missing key
    keeps the default. *)
Definition spread (defaults : Config) (options : Options) : Config := {|
  url := default (url defaults) (opt_url options);
  selectors := default (selectors defaults) (opt_selectors options)
|}.

(** [options = {}], which is also what a call without options, or with
    [null] for options, comes to. *)
Definition no_options : Options := {| opt_url := None; opt_selectors := None |}.

(** The fallback of [page.viewportSize() || { width: 1024, height: 768 }]. *)
Definition FALLBACK_VIEWPORT : Viewport := {| vp_width := 1024; vp_height := 768 |}.

(** [!current || current === 'about:blank'] *)
Definition blank (current : string) : bool :=
  falsy current || String.eqb current "about:blank".

Definition result (o : bool) (m : string) (d : option Details) : CheckResult :=
  {| ok := o; message := Some m; details := d |}.

(** The centring test of [checkRefreshCenters] on a box and a viewport. *)
Definition cardCenterX (box : Box) : float := (box_x box + box_width box / 2)%float.
Definition cardCenterY (box : Box) : float := (box_y box + box_height box / 2)%float.
Definition deltaX (box : Box) (viewport : Viewport) : float :=
  PrimFloat.abs (cardCenterX box - vp_width viewport / 2)%float.
Definition deltaY (box : Box) (viewport : Viewport) : float :=
  PrimFloat.abs (cardCenterY box - vp_height viewport / 2)%float.
Definition centred (box : Box) (viewport : Viewport) : bool :=
  PrimFloat.ltb (deltaX box viewport) (vp_width viewport * 0.25)%float
  && PrimFloat.ltb (deltaY box viewport) (vp_height viewport * 0.25)%float.

Section checks.
Context {W H : Type} `{!PageDriver W H} `{!JsRuntime}.

Definition ensurePage (url : Url) : Act W H unit :=
  current <- page.url ;;
  if blank current then page.goto url else ret tt.

(** The [for] loop of [checkUserCards]: [Some r] is the early [return r]. *)
Fixpoint userCards_loop (sel : Selectors) (i : nat) (cards : list H)
    : Act W H (option CheckResult) :=
  match cards with
  | [] => ret None
  | card :: rest =>
      sel_userName <- prop sel "userName" ;;
      name <- el.query card sel_userName ;;
      sel_userEmail <- prop sel "userEmail" ;;
      email <- el.query card sel_userEmail ;;
      sel_userNationality <- prop sel "userNationality" ;;
      nat <- el.query card sel_userNationality ;;
      if negb (present name) || negb (present email) || negb (present nat)
      then ret (Some (result false
                  ("Card " ++ index_to_string i ++ " mancano campi obbligatori")
                  (Some (DIndex i))))
      else userCards_loop sel (S i) rest
  end.

Definition checkUserCards (options : Options) : Act W H CheckResult :=
  let opts := spread DEFAULT_OPTIONS options in
  ensurePage (url opts) ;;;
  let sel := selectors opts in
  sel_userCard <- prop sel "userCard" ;;
  cards <- page.queryAll sel_userCard ;;
  match cards with
  | [] => ret (result false "Nessuna user card trovata" (Some (DCount 0)))
  | _ =>
      early <- userCards_loop sel 0 cards ;;
      match early with
      | Some r => ret r
      | None => ret (result true "User cards OK" (Some (DCount (length cards))))
      end
  end.

Definition checkRefreshCenters (options : Options) : Act W H CheckResult :=
  let opts := spread DEFAULT_OPTIONS options in
  ensurePage (url opts) ;;;
  let sel := selectors opts in
  sel_refresh <- prop sel "refresh" ;;
  refresh <- page.query sel_refresh ;;
  (match refresh with Some r => el.click r | None => ret tt end) ;;;
  sel_userCard <- prop sel "userCard" ;;
  card <- page.query sel_userCard ;;
  match card with
  | None => ret {| ok := false; message := Some "Nessuna card trovata dopo refresh";
                   details := None |}
  | Some card =>
      box <- el.boundingBox card ;;
      size <- page.viewportSize ;;
      let viewport := default FALLBACK_VIEWPORT size in
      match box with
      | None => ret {| ok := false;
                       message := Some "Impossibile leggere bounding box della card";
                       details := None |}
      | Some box =>
          let ok := centred box viewport in
          ret (result ok (if ok then "Card centrata" else "Card non centrata")
                 (Some (DDelta (deltaX box viewport) (deltaY box viewport) viewport)))
      end
  end.

Fixpoint readableInfo_loop (i : nat) (cards : list H) : Act W H (option CheckResult) :=
  match cards with
  | [] => ret None
  | card :: rest =>
      title <- el.query card (Some TITLE_LIKE) ;;
      let hasTitle := present title in
      text <- el.query card (Some TEXT_LIKE) ;;
      let hasText := present text in
      if negb hasTitle || negb hasText
      then ret (Some (result false
                  ("Card " ++ index_to_string i ++ " non ha titolo o testo descrittivo")
                  (Some (DReadable hasTitle hasText))))
      else readableInfo_loop (S i) rest
  end.

Definition checkReadableInfo (options : Options) : Act W H CheckResult :=
  let opts := spread DEFAULT_OPTIONS options in
  ensurePage (url opts) ;;;
  let sel := selectors opts in
  sel_userCard <- prop sel "userCard" ;;
  cards <- page.queryAll sel_userCard ;;
  match cards with
  | [] => ret {| ok := false; message := Some "Nessuna card per verifica leggibilità";
                 details := None |}
  | _ =>
      early <- readableInfo_loop 0 cards ;;
      match early with
      | Some r => ret r
      | None => ret {| ok := true;
                       message := Some "Informazioni di facile comprensione presenti";
                       details := None |}
      end
  end.

Definition checkAdvancedSearchControls (options : Options) : Act W H CheckResult :=
  let opts := spread DEFAULT_OPTIONS options in
  ensurePage (url opts) ;;;
  next <- page.query (Some NEXT_BUTTON) ;;
  prev <- page.query (Some PREV_BUTTON) ;;
  slider <- page.query (Some RANGE_SLIDER) ;;
  radios <- page.queryAll (Some GENDER_RADIOS) ;;
  checkboxes <- page.queryAll (Some NATIONALITY_CHECKBOXES) ;;
  let ok := (present next || present prev) && present slider
            && (2 <=? length radios)%nat && (1 <=? length checkboxes)%nat in
  ret (result ok
         (if ok then "Controlli ricerca presenti"
          else "Controlli ricerca mancanti o insufficienti")
         (Some (DControls (present next) (present prev) (present slider)
                  (length radios) (length checkboxes)))).

Definition checkNavbarPhotos (options : Options) : Act W H CheckResult :=
  let opts := spread DEFAULT_OPTIONS options in
  ensurePage (url opts) ;;;
  let sel := selectors opts in
  sel_navbarSecondItem <- prop sel "navbarSecondItem" ;;
  nav <- page.query sel_navbarSecondItem ;;
  match nav with
  | None => ret {| ok := false; message := Some "Seconda voce navbar non trovata";
                   details := None |}
  | Some nav =>
      el.click nav ;;;
      sel_userPhotoImg <- prop sel "userPhotoImg" ;;
      imgs <- page.queryAll sel_userPhotoImg ;;
      match imgs with
      | [] => ret {| ok := false; message := Some "Nessuna foto utente trovata";
                     details := None |}
      | first :: _ =>
          initialOpacity <- el.evaluate first GetOpacity ;;
          page.waitForTimeout 500 ;;;
          laterOpacity <- el.evaluate first GetOpacity ;;
          transition <- el.evaluate first GetTransition ;;
          let ok := PrimFloat.leb (parseFloat initialOpacity) (parseFloat laterOpacity)
                    || (0 <? String.length transition)%nat in
          ret (result ok
                 (if ok then "Foto con effetto progressivo rilevato"
                  else "Effetto progressivo non evidente")
                 (Some (DOpacity initialOpacity laterOpacity transition)))
      end
  end.

(** The [for] loop of [checkDocumentationAnchors]. *)
Fixpoint anchors_loop (anchors : list H) : Act W H (option CheckResult) :=
  match anchors with
  | [] => ret None
  | a :: rest =>
      href <- el.getAttribute a "href" ;;
      match href with
      | Some href =>
          if startsWith_hash href then
            let id := slice1 href in
            target <- page.query (Some ("#" +:+ id)) ;;
            match target with
            | None => ret (Some {| ok := false;
                                   message := Some ("Anchor punta a id mancante: " +:+ id);
                                   details := None |})
            | Some _ => anchors_loop rest
            end
          else anchors_loop rest
      | None => anchors_loop rest
      end
  end.

Definition checkDocumentationAnchors (options : Options) : Act W H CheckResult :=
  let opts := spread DEFAULT_OPTIONS options in
  ensurePage (url opts) ;;;
  let sel := selectors opts in
  sel_documentation <- prop sel "documentation" ;;
  docs <- page.query sel_documentation ;;
  match docs with
  | None => ret {| ok := false; message := Some "Sezione documentazione non trovata";
                   details := None |}
  | Some docs =>
      anchors <- el.queryAll docs (Some INTERNAL_ANCHORS) ;;
      match anchors with
      | [] => ret {| ok := false;
                     message := Some "Nessun anchor interno nella documentazione";
                     details := None |}
      | _ =>
          early <- anchors_loop anchors ;;
          match early with
          | Some r => ret r
          | None => ret (result true "Anchors validi nella documentazione"
                           (Some (DAnchors (length anchors))))
          end
      end
  end.

Definition checkVersionsNav (options : Options) : Act W H CheckResult :=
  let opts := spread DEFAULT_OPTIONS options in
  ensurePage (url opts) ;;;
  let sel := selectors opts in
  sel_versionsNav <- prop sel "versionsNav" ;;
  nav <- page.query sel_versionsNav ;;
  ret {| ok := present nav;
         message := Some (if present nav then "Voce versioni presente"
                          else "Voce versioni assente");
         details := None |}.

Definition checkAccessChart (options : Options) : Act W H CheckResult :=
  let opts := spread DEFAULT_OPTIONS options in
  ensurePage (url opts) ;;;
  let sel := selectors opts in
  sel_accessChart <- prop sel "accessChart" ;;
  chart <- page.query sel_accessChart ;;
  match chart with
  | None => ret {| ok := false; message := Some "Grafico accessi non trovato";
                   details := None |}
  | Some chart =>
      bars <- el.queryAll chart (Some CHART_BARS) ;;
      ret (result (0 <? length bars)%nat
             (if (0 <? length bars)%nat then "Grafico con elementi progressivi"
              else "Grafico privo di elementi progressivi")
             (Some (DBars (length bars))))
  end.

Definition checkDonateAntiBot (options : Options) : Act W H CheckResult :=
  let opts := spread DEFAULT_OPTIONS options in
  ensurePage (url opts) ;;;
  let sel := selectors opts in
  sel_donateSection <- prop sel "donateSection" ;;
  donate <- page.query sel_donateSection ;;
  match donate with
  | None => ret {| ok := false; message := Some "Sezione donate non trovata";
                   details := None |}
  | Some donate =>
      robotCheckbox <- el.query donate (Some ROBOT_CHECKBOX) ;;
      captchaFrame <- el.query donate (Some CAPTCHA_FRAME) ;;
      let ok := present robotCheckbox || present captchaFrame in
      ret (result ok (if ok then "Anti-bot presente" else "Anti-bot non trovato")
             (Some (DAntiBot (present robotCheckbox) (present captchaFrame))))
  end.

(** [Object.values(results).every(r => r && r.ok)] *)
Definition every_ok (results : list (string * CheckResult)) : bool :=
  forallb (fun r => ok r) (map snd results).

Definition runAll (options : Options) : Act W H Report :=
  userCards <- checkUserCards options ;;
  refreshCenter <- checkRefreshCenters options ;;
  readableInfo <- checkReadableInfo options ;;
  advancedSearch <- checkAdvancedSearchControls options ;;
  navbarPhotos <- checkNavbarPhotos options ;;
  documentation <- checkDocumentationAnchors options ;;
  versionsNav <- checkVersionsNav options ;;
  accessChart <- checkAccessChart options ;;
  donate <- checkDonateAntiBot options ;;
  let results := [
    ("userCards", userCards);
    ("refreshCenter", refreshCenter);
    ("readableInfo", readableInfo);
    ("advancedSearch", advancedSearch);
    ("navbarPhotos", navbarPhotos);
    ("documentation", documentation);
    ("versionsNav", versionsNav);
    ("accessChart", accessChart);
    ("donate", donate)
  ] in
  let overall := every_ok results in
  ret {| overall_ok := overall; report_details := results |}.

(** ** taiko-login.js *)

(** helper: try a list of selectors and return the first that exists on the page *)
Fixpoint firstSelectorExists (selectors : list string) : Act W H (option string) :=
  match selectors with
  | [] => ret None
  | s :: rest =>
      el <- page.query (Some s) ;;
      if present el then ret (Some s) else firstSelectorExists rest
  end.
End checks.

(** ** The nine checks by name *)

Inductive CheckName :=
| UserCards | RefreshCenter | ReadableInfo | AdvancedSearch | NavbarPhotos
| Documentation | VersionsNav | AccessChart | Donate.

Definition all_checks : list CheckName :=
  [UserCards; RefreshCenter; ReadableInfo; AdvancedSearch; NavbarPhotos;
   Documentation; VersionsNav; AccessChart; Donate].

Definition run_check {W H} `{!PageDriver W H} `{!JsRuntime} (c : CheckName)
    : Options → Act W H CheckResult :=
  match c with
  | UserCards => checkUserCards
  | RefreshCenter => checkRefreshCenters
  | ReadableInfo => checkReadableInfo
  | AdvancedSearch => checkAdvancedSearchControls
  | NavbarPhotos => checkNavbarPhotos
  | Documentation => checkDocumentationAnchors
  | VersionsNav => checkVersionsNav
  | AccessChart => checkAccessChart
  | Donate => checkDonateAntiBot
  end.

(** The selector that a check reads first, right after the entry guard;
    the advanced-search check reads none. *)
Definition first_read (c : CheckName) : option string :=
  match c with
  | UserCards | ReadableInfo => Some "userCard"
  | RefreshCenter => Some "refresh"
  | AdvancedSearch => None
  | NavbarPhotos => Some "navbarSecondItem"
  | Documentation => Some "documentation"
  | VersionsNav => Some "versionsNav"
  | AccessChart => Some "accessChart"
  | Donate => Some "donateSection"
  end.

(** [undefined] and [null], by name. *)
Definition nullish (sel : Selectors) : option string :=
  match sel with
  | SelUndefined => Some "undefined"
  | SelNull => Some "null"
  | SelObject _ => None
  end.

(** ** Reading a history of driver calls *)

Section history.
Context {H : Type}.

(** The exception a call raised, if it did. *)
Definition fault_of (ev : event H) : option error :=
  match ev with
  | EGoto _ (Fault e) | EQuery _ (Fault e) | EQueryAll _ (Fault e)
  | EWaitForTimeout _ (Fault e) | EElQuery _ _ (Fault e) | EElQueryAll _ _ (Fault e)
  | EClick _ (Fault e) | EBoundingBox _ (Fault e) | EEvaluate _ _ (Fault e)
  | EGetAttribute _ _ (Fault e) => Some e
  | _ => None
  end.

Definition unfaulted (tr : list (event H)) : Prop :=
  Forall (fun ev => fault_of ev = None) tr.

(** An element probe that found nothing: [$] gave [null], [$$] gave []. *)
Definition absent (ev : event H) : bool :=
  match ev with
  | EQuery _ (Ok None) | EElQuery _ _ (Ok None)
  | EQueryAll _ (Ok []) | EElQueryAll _ _ (Ok []) => true
  | _ => false
  end.

(** The targets of the [goto] calls, oldest first. *)
Definition navigations (tr : list (event H)) : list Url :=
  omap (fun ev => match ev with EGoto u _ => Some u | _ => None end) tr.

(** Every [goto] of the history goes to [u] and directly follows a
    [page.url()] that read a blank location. *)
Definition guarded (u : Url) (tr : list (event H)) : Prop :=
  ∀ i u' r, tr !! i = Some (EGoto u' r) →
    u' = u ∧ ∃ j current, i = S j ∧ tr !! j = Some (EUrl current) ∧ blank current = true.

(** The absences a check's pass condition puts up with: the refresh control
    is clicked only if present, and a card is still required (the probe for
    the control is the one directly followed by the probe that found the
    card); one of next/prev suffices; one of robot-checkbox/CAPTCHA-frame
    suffices. *)
Definition tolerated (c : CheckName) (opts : Config) (tr : list (event H))
    (ev : event H) : Prop :=
  match c with
  | RefreshCenter =>
      ∃ sel pre card post,
        selectors opts = SelObject sel
        ∧ ev = EQuery (sel !! "refresh") (Ok None)
        ∧ tr = pre ++ ev :: EQuery (sel !! "userCard") (Ok (Some card)) :: post
  | AdvancedSearch =>
      (ev = EQuery (Some NEXT_BUTTON) (Ok None)
       ∧ ∃ h, In (EQuery (Some PREV_BUTTON) (Ok (Some h))) tr)
      ∨ (ev = EQuery (Some PREV_BUTTON) (Ok None)
         ∧ ∃ h, In (EQuery (Some NEXT_BUTTON) (Ok (Some h))) tr)
  | Donate =>
      ∃ donate,
        (ev = EElQuery donate (Some ROBOT_CHECKBOX) (Ok None)
         ∧ ∃ h, In (EElQuery donate (Some CAPTCHA_FRAME) (Ok (Some h))) tr)
        ∨ (ev = EElQuery donate (Some CAPTCHA_FRAME) (Ok None)
           ∧ ∃ h, In (EElQuery donate (Some ROBOT_CHECKBOX) (Ok (Some h))) tr)
  | _ => False
  end.
End history.

(** An action raises only what the driver raised: it rejects exactly when
    its last driver call faulted, with that call's exception, and no earlier
    fault was swallowed. *)
Definition honest {W H A} (m : Act W H A) : Prop :=
  ∀ w, match out (m w) with
       | Ok _ => unfaulted (log (m w))
       | Fault e => ∃ pre ev, log (m w) = pre ++ [ev] ∧ unfaulted pre ∧ fault_of ev = Some e
       end.

(** Every history of [m] satisfies [P]. *)
Definition always {W H A} (P : list (event H) → Prop) (m : Act W H A) : Prop :=
  ∀ w, P (log (m w)).

(** Whenever [m] resolves, its value and its history satisfy [Q]. *)
Definition has_post {W H A} (m : Act W H A) (Q : A → list (event H) → Prop) : Prop :=
  ∀ w, match out (m w) with
       | Ok a => Q a (log (m w))
       | Fault _ => True
       end.

Definition is_goto {H} (ev : event H) : bool :=
  match ev with EGoto _ _ => true | _ => false end.

(** Properties of histories that hold by parts and that only a [goto] can
    break. *)
Class Compositional {H} (P : list (event H) → Prop) := {
  comp_nil : P [];
  comp_app : ∀ tr1 tr2, P tr1 → P tr2 → P (tr1 ++ tr2);
  comp_one : ∀ ev, is_goto ev = false → P [ev]
}.

(** The check returned [r] after the history [tr]: every probe of [tr] that
    found nothing and that the check does not put up with made [r] a
    failure. *)
Definition reports_absence {H} (c : CheckName) (opts : Config) (r : CheckResult)
    (tr : list (event H)) : Prop :=
  ∀ ev, In ev tr → absent ev = true → ¬ tolerated c opts tr ev → ok r = false.

(** What a loop with an early [return] leaves: a failure, or a history in
    which every probe found something. *)
Definition failed_or_all_found {H} (early : option CheckResult) (tr : list (event H)) : Prop :=
  match early with
  | Some r => ok r = false
  | None => ∀ ev, In ev tr → absent ev = false
  end.

(** A history with no [goto] in it. *)
Definition quiet {H} (tr : list (event H)) : Prop := navigations tr = [].

(** The three results of the documentation check that report a failure. *)
Definition dangling_result (id : string) : CheckResult :=
  {| ok := false; message := Some ("Anchor punta a id mancante: " +:+ id); details := None |}.
Definition no_anchor_result : CheckResult :=
  {| ok := false; message := Some "Nessun anchor interno nella documentazione";
     details := None |}.
Definition no_section_result : CheckResult :=
  {| ok := false; message := Some "Sezione documentazione non trovata"; details := None |}.

(** ** Page states met by the checks *)

Section states.
Context {W H : Type} `{!PageDriver W H}.

(** The entry guard took the page from [w] to [w1] without a fault. *)
Definition loaded (options : Options) (w w1 : W) : Prop :=
  let r := ensurePage (url (spread DEFAULT_OPTIONS options)) w in
  out r = Ok tt ∧ world r = w1.

(** The refresh control was absent at [w1], or was clicked and left the
    page at [w2]. *)
Definition refreshed (sel : gmap string string) (w1 w2 : W) : Prop :=
  (page_query (sel !! "refresh") w1 = Ok None ∧ w2 = w1)
  ∨ (∃ r, page_query (sel !! "refresh") w1 = Ok (Some r) ∧ el_click r w1 = (Ok tt, w2)).

(** What the documentation check finds out about one anchor at state [w]. *)
Inductive anchor_status :=
| Resolves                 (* no internal href, or its target exists *)
| Dangling (id : string)   (* href is #id and no element has that id *)
| Broken (e : error).      (* the driver faulted while looking *)

Definition anchor_at (w : W) (a : H) : anchor_status :=
  match el_getAttribute a "href" w with
  | Fault e => Broken e
  | Ok None => Resolves
  | Ok (Some href) =>
      if startsWith_hash href then
        match page_query (Some ("#" +:+ slice1 href)) w with
        | Fault e => Broken e
        | Ok None => Dangling (slice1 href)
        | Ok (Some _) => Resolves
        end
      else Resolves
  end.
(** [s] is the first selector of [sels] that the page answers with an
    element, every selector before it being answered with [null]. *)
Definition first_match (w : W) (sels : list string) (s : string) : Prop :=
  ∃ pre post, sels = pre ++ s :: post
    ∧ (∀ p, In p pre → page_query (Some p) w = Ok None)
    ∧ ∃ el, page_query (Some s) w = Ok (Some el).
(** A present answer of [$]. *)
Definition found (r : outcome (option H)) : Prop := ∃ el, r = Ok (Some el).

(** A card with its three mandatory fields. *)
Definition well_formed_card (sel : gmap string string) (w : W) (card : H) : Prop :=
  found (el_query card (sel !! "userName") w)
  ∧ found (el_query card (sel !! "userEmail") w)
  ∧ found (el_query card (sel !! "userNationality") w).
End states.

(** ** A static page, to run the checks on *)

Module Static.

(** Elements are numbered; the page lists, per selector, what matches. *)
Record Page := {
  location : string;
  offline : bool;                                   (* does [goto] fail? *)
  matches : list (string * list nat);               (* page.$$ *)
  within : list (nat * string * list nat);          (* el.$$ *)
  boxes : list (nat * Box);
  viewport : option Viewport;
  hrefs : list (nat * string);
  opacity : list (nat * string)
}.

Fixpoint assoc {A} (k : string) (l : list (string * A)) : option A :=
  match l with
  | [] => None
  | (k', v) :: rest => if String.eqb k k' then Some v else assoc k rest
  end.

Fixpoint assoc_nat {A} (k : nat) (l : list (nat * A)) : option A :=
  match l with
  | [] => None
  | (k', v) :: rest => if Nat.eqb k k' then Some v else assoc_nat k rest
  end.

Fixpoint assoc_within (h : nat) (k : string) (l : list (nat * string * list nat))
    : list nat :=
  match l with
  | [] => []
  | (h', k', v) :: rest =>
      if Nat.eqb h h' && String.eqb k k' then v else assoc_within h k rest
  end.

Definition bad_selector : error := "selector: expected string, got undefined".
Definition unreachable : error := "net::ERR_CONNECTION_REFUSED".
Definition bad_url : error := "url: expected string, got undefined".

Definition all_of (s : selector) (p : Page) : outcome (list nat) :=
  match s with
  | None => Fault bad_selector
  | Some s => Ok (default [] (assoc s (matches p)))
  end.

Definition all_within (h : nat) (s : selector) (p : Page) : outcome (list nat) :=
  match s with
  | None => Fault bad_selector
  | Some s => Ok (assoc_within h s (within p))
  end.

Definition first_of (r : outcome (list nat)) : outcome (option nat) :=
  match r with
  | Ok l => Ok (head l)
  | Fault e => Fault e
  end.

Definition navigate (u : Url) (p : Page) : outcome unit * Page :=
  match u with
  | UrlString address =>
      if offline p then (Fault unreachable, p)
      else (Ok tt, {| location := address; offline := offline p; matches := matches p;
                      within := within p; boxes := boxes p; viewport := viewport p;
                      hrefs := hrefs p; opacity := opacity p |})
  | UrlUndefined => (Fault bad_url, p)
  | UrlNull => (Fault "url: expected string, got object", p)
  end.

#[global] Instance driver : PageDriver Page nat := {|
  page_url := location;
  page_goto := navigate;
  page_query s p := first_of (all_of s p);
  page_queryAll := all_of;
  page_viewportSize := viewport;
  page_waitForTimeout _ p := (Ok tt, p);
  el_query h s p := first_of (all_within h s p);
  el_queryAll := all_within;
  el_click _ p := (Ok tt, p);
  el_boundingBox h p := Ok (assoc_nat h (boxes p));
  el_evaluate h f p :=
    Ok (match f with
        | GetOpacity => default "1" (assoc_nat h (opacity p))
        | GetTransition => ""
        end);
  el_getAttribute h name p :=
    Ok (if String.eqb name "href" then assoc_nat h (hrefs p) else None)
|}.

(** A toy [parseFloat], enough for the opacities of the pages below. *)
#[global] Instance runtime : JsRuntime := {|
  parseFloat s := if String.eqb s "1" then 1%float
                  else if String.eqb s "0" then 0%float else nan
|}.

Definition box (x y w h : float) : Box :=
  {| box_x := x; box_y := y; box_width := w; box_height := h |}.

(** A blank page with nothing on it. *)
Definition empty_page : Page := {|
  location := "about:blank"; offline := false; matches := []; within := [];
  boxes := []; viewport := None; hrefs := []; opacity := []
|}.

(** A blank page that cannot be loaded. *)
Definition offline_page : Page := {|
  location := "about:blank"; offline := true; matches := []; within := [];
  boxes := []; viewport := None; hrefs := []; opacity := []
|}.

(** The page of the end-to-end scenario: three valid cards (the first one
    centred), a refresh button, a next button, a slider, two gender radios,
    one nationality checkbox, a second navbar item, a photo, a
    documentation section with one valid anchor, a versions entry, a chart
    with two bars and a donate section with a CAPTCHA frame. *)
Definition full_page : Page := {|
  location := "http://localhost:3000";
  offline := false;
  matches := [
    (".user-card", [1; 2; 3]);
    ("#refresh", [4]);
    (NEXT_BUTTON, [5]);
    (RANGE_SLIDER, [6]);
    (GENDER_RADIOS, [7; 8]);
    (NATIONALITY_CHECKBOXES, [9]);
    ("nav >> nth=1", [10]);
    (".user-photo img", [11]);
    ("#documentation, .documentation", [12]);
    ("#usage", [14]);
    ("nav >> text=Versioni, nav >> text=RandomUser Versions, nav >> text=versioni", [15]);
    (".access-chart, #access-chart", [16]);
    ("#donate, .donate", [19])
  ];
  within := [
    (1, ".user-name", [21]); (1, ".user-email", [22]); (1, ".user-nationality", [23]);
    (2, ".user-name", [24]); (2, ".user-email", [25]); (2, ".user-nationality", [26]);
    (3, ".user-name", [27]); (3, ".user-email", [28]); (3, ".user-nationality", [29]);
    (1, TITLE_LIKE, [31]); (1, TEXT_LIKE, [21]);
    (2, TITLE_LIKE, [32]); (2, TEXT_LIKE, [24]);
    (3, TITLE_LIKE, [33]); (3, TEXT_LIKE, [27]);
    (12, INTERNAL_ANCHORS, [13]);
    (16, CHART_BARS, [17; 18]);
    (19, CAPTCHA_FRAME, [20])
  ];
  boxes := [(1, box 412 284 200 200)];
  viewport := Some {| vp_width := 1024; vp_height := 768 |};
  hrefs := [(13, "#usage")];
  opacity := [(11, "1")]
|}.

(** The same page with its first card at the bounding box [b]. *)
Definition moved_page (b : Box) : Page := {|
  location := location full_page; offline := false; matches := matches full_page;
  within := within full_page; boxes := [(1, b)];
  viewport := viewport full_page; hrefs := hrefs full_page;
  opacity := opacity full_page
|}.

(** The same page with its first card pushed to the right edge. *)
Definition off_centre_page : Page := moved_page (box 900 284 200 200).

(** The same page when the driver reports no viewport. *)
Definition no_viewport_page : Page := {|
  location := location full_page; offline := false; matches := matches full_page;
  within := within full_page; boxes := boxes full_page;
  viewport := None; hrefs := hrefs full_page;
  opacity := opacity full_page
|}.

(** The same page with a second documentation anchor, to a missing id. *)
Definition dangling_page : Page := {|
  location := location full_page; offline := false; matches := matches full_page;
  within := (12, INTERNAL_ANCHORS, [13; 34])
            :: List.filter (fun e => negb (Nat.eqb e.1.1 12)) (within full_page);
  boxes := boxes full_page; viewport := viewport full_page;
  hrefs := [(13, "#usage"); (34, "#missing")];
  opacity := opacity full_page
|}.

(** The same page with both documentation anchors to missing ids. *)
Definition two_dangling_page : Page := {|
  location := location full_page; offline := false; matches := matches full_page;
  within := within dangling_page;
  boxes := boxes full_page; viewport := viewport full_page;
  hrefs := [(13, "#first"); (34, "#second")];
  opacity := opacity full_page
|}.

(** A caller's options that override one selector only. *)
Definition partial_options : Options := {|
  opt_url := None;
  opt_selectors := Some (SelObject {[ "userCard" := ".user-card" ]})
|}.

(** A caller's options with [selectors: null], with [selectors: undefined]. *)
Definition null_selectors : Options := {|
  opt_url := None;
  opt_selectors := Some SelNull
|}.
Definition undefined_selectors : Options := {|
  opt_url := None;
  opt_selectors := Some SelUndefined
|}.

(** A caller's options with [url: undefined]. *)
Definition undefined_url : Options := {|
  opt_url := Some UrlUndefined;
  opt_selectors := None
|}.

(** The same page without its refresh button. *)
Definition no_refresh_page : Page := {|
  location := location full_page; offline := false;
  matches := List.filter (fun kv => negb (String.eqb kv.1 "#refresh")) (matches full_page);
  within := within full_page; boxes := boxes full_page;
  viewport := viewport full_page; hrefs := hrefs full_page;
  opacity := opacity full_page
|}.
(** The report on the page of the end-to-end scenario. *)
Definition all_green : list (string * CheckResult) := [
  ("userCards", result true "User cards OK" (Some (DCount 3)));
  ("refreshCenter", result true "Card centrata"
     (Some (DDelta 0 0 {| vp_width := 1024; vp_height := 768 |})));
  ("readableInfo", {| ok := true;
     message := Some "Informazioni di facile comprensione presenti"; details := None |});
  ("advancedSearch", result true "Controlli ricerca presenti"
     (Some (DControls true false true 2 1)));
  ("navbarPhotos", result true "Foto con effetto progressivo rilevato"
     (Some (DOpacity "1" "1" "")));
  ("documentation", result true "Anchors validi nella documentazione" (Some (DAnchors 1)));
  ("versionsNav", {| ok := true; message := Some "Voce versioni presente";
     details := None |});
  ("accessChart", result true "Grafico con elementi progressivi" (Some (DBars 2)));
  ("donate", result true "Anti-bot presente" (Some (DAntiBot false true)))
].
End Static.

(** ** More about the pages the checks meet *)

Section more_states.
Context {W H : Type} `{!PageDriver W H}.

(** The three probes [checkUserCards] makes of one card, with their answers. *)
Definition card_probes (sel : gmap string string) (w : W) (card : H) : list (event H) :=
  [EElQuery card (sel !! "userName") (el_query card (sel !! "userName") w);
   EElQuery card (sel !! "userEmail") (el_query card (sel !! "userEmail") w);
   EElQuery card (sel !! "userNationality") (el_query card (sel !! "userNationality") w)].

(** The three probes of the card answer, and one of them finds nothing. *)
Definition incomplete_card (sel : gmap string string) (w : W) (card : H) : Prop :=
  ∃ name email nationality,
    el_query card (sel !! "userName") w = Ok name
    ∧ el_query card (sel !! "userEmail") w = Ok email
    ∧ el_query card (sel !! "userNationality") w = Ok nationality
    ∧ present name && present email && present nationality = false.

(** The two probes [checkReadableInfo] makes of one card. *)
Definition readable_probes (w : W) (card : H) : list (event H) :=
  [EElQuery card (Some TITLE_LIKE) (el_query card (Some TITLE_LIKE) w);
   EElQuery card (Some TEXT_LIKE) (el_query card (Some TEXT_LIKE) w)].

(** A card with a heading-like and a text-like element. *)
Definition readable_card (w : W) (card : H) : Prop :=
  found (el_query card (Some TITLE_LIKE) w) ∧ found (el_query card (Some TEXT_LIKE) w).
End more_states.

(** ** More ways to read a history *)

(** Every call in every history of [m] satisfies [Q]. *)
Definition all_events {W H A} (Q : event H → Prop) (m : Act W H A) : Prop :=
  ∀ w, Forall Q (log (m w)).

(** [m] leaves the page in the state it found it. *)
Definition still {W H A} (m : Act W H A) : Prop :=
  ∀ w, world (m w) = w.

(** Every run of [m], resolved or rejected, satisfies [Q]. *)
Definition every_run {W H A} (m : Act W H A)
    (Q : outcome A → list (event H) → Prop) : Prop :=
  ∀ w, Q (out (m w)) (log (m w)).

Definition is_click {H} (ev : event H) : bool :=
  match ev with EClick _ _ => true | _ => false end.

(** A call that acts on the page after it is loaded: a click or a wait. *)
Definition is_interaction {H} (ev : event H) : bool :=
  match ev with EClick _ _ | EWaitForTimeout _ _ => true | _ => false end.


(** Every click of the history is on an element that a page-level probe of
    the same history returned. *)
Definition clicks_found {H} (tr : list (event H)) : Prop :=
  ∀ h r, In (EClick h r) tr → ∃ s, In (EQuery s (Ok (Some h))) tr.

(** The checks that only look at the page. *)
Definition read_only (c : CheckName) : bool :=
  match c with
  | RefreshCenter | NavbarPhotos => false
  | _ => true
  end.

(** The message each check gives when it passes. *)
Definition success_message (c : CheckName) : string :=
  match c with
  | UserCards => "User cards OK"
  | RefreshCenter => "Card centrata"
  | ReadableInfo => "Informazioni di facile comprensione presenti"
  | AdvancedSearch => "Controlli ricerca presenti"
  | NavbarPhotos => "Foto con effetto progressivo rilevato"
  | Documentation => "Anchors validi nella documentazione"
  | VersionsNav => "Voce versioni presente"
  | AccessChart => "Grafico con elementi progressivi"
  | Donate => "Anti-bot presente"
  end.

(** What an early [return] of a loop looks like: a failure whose message
    starts with [prefix]. *)
Definition early_failure (prefix : string) (early : option CheckResult) : Prop :=
  ∀ r, early = Some r → ok r = false ∧ ∃ tail, message r = Some (prefix +:+ tail).

(** The key under which [runAll] stores each result. *)
Definition check_key (c : CheckName) : string :=
  match c with
  | UserCards => "userCards"
  | RefreshCenter => "refreshCenter"
  | ReadableInfo => "readableInfo"
  | AdvancedSearch => "advancedSearch"
  | NavbarPhotos => "navbarPhotos"
  | Documentation => "documentation"
  | VersionsNav => "versionsNav"
  | AccessChart => "accessChart"
  | Donate => "donate"
  end.

Section battery.
Context {W H : Type} `{!PageDriver W H} `{!JsRuntime}.

(** The checks of a list run one after the other, each result stored under
    its key: the battery of [runAll] as a fold. *)
Fixpoint run_in_order (cs : list CheckName) (options : Options)
    : Act W H (list (string * CheckResult)) :=
  match cs with
  | [] => ret []
  | c :: rest =>
      r <- run_check c options ;;
      results <- run_in_order rest options ;;
      ret ((check_key c, r) :: results)
  end.

(** The location is set, and clicks and waits keep it set. *)
Definition location_stays_set : Prop :=
  (∀ h (w : W), blank (page_url w) = false → blank (page_url (el_click h w).2) = false)
  ∧ (∀ ms (w : W), blank (page_url w) = false →
       blank (page_url (page_waitForTimeout ms w).2) = false).

(** From a page whose location is set, [m] navigates nowhere and leaves the
    location set. *)
Definition settled {A} (m : Act W H A) : Prop :=
  ∀ w, blank (page_url w) = false →
    blank (page_url (world (m w))) = false ∧ navigations (log (m w)) = [].
End battery.

(** ** The scripts around the library

    [taiko-login.js] (two tests of a login form), [tests/randomuser.spec.js]
    (the test that calls [runAll]) and the stand-alone script that opens a
    browser and prints the report.  Their bodies run in a monad like [Act]
    that keeps, instead of the history of driver calls, what was written on
    the console. *)

(** One call to [console]. *)
Inductive line :=
| ConsoleLog (text : string)
| ConsoleWarn (text : string)
| ConsoleError (label : string) (err : error).

Record TestRun (W A : Type) := MkTestRun {
  verdict : outcome A;       (* resolved value, or the exception thrown *)
  page_after : W;            (* state afterwards *)
  console : list line        (* console lines, oldest first *)
}.
Arguments MkTestRun {W A} verdict page_after console.
Arguments verdict {W A} t.
Arguments page_after {W A} t.
Arguments console {W A} t.

Definition Test (W A : Type) : Type := W → TestRun W A.

Module test.
Section test.
Context {W : Type}.

Definition ret {A} (a : A) : Test W A := fun w => MkTestRun (Ok a) w [].

Definition bind {A B} (m : Test W A) (k : A → Test W B) : Test W B :=
  fun w =>
    let r := m w in
    match verdict r with
    | Ok a => let r' := k a (page_after r) in
              MkTestRun (verdict r') (page_after r') (console r ++ console r')
    | Fault e => MkTestRun (Fault e) (page_after r) (console r)
    end.

(** [throw new Error(message)] *)
Definition throw {A} (message : error) : Test W A := fun w => MkTestRun (Fault message) w [].

(** [try { await m } catch (e) { ... }]: the exception becomes a value. *)
Definition attempt {A} (m : Test W A) : Test W (outcome A) :=
  fun w => let r := m w in MkTestRun (Ok (verdict r)) (page_after r) (console r).

(** A call to [console]. *)
Definition say (l : line) : Test W unit := fun w => MkTestRun (Ok tt) w [l].

(** An awaited call to the driver that may move the page on. *)
Definition call {A} (f : W → outcome A * W) : Test W A :=
  fun w => MkTestRun (f w).1 (f w).2 [].

(** An action of the library, its history dropped. *)
Definition lift {H A} (m : Act W H A) : Test W A :=
  fun w => MkTestRun (out (m w)) (world (m w)) [].
End test.
End test.

Declare Scope test_scope.
Delimit Scope test_scope with test.
Notation "x <- m ;; k" := (test.bind m (fun x => k))
  (at level 100, m at next level, right associativity) : test_scope.
Notation "m ;;; k" := (test.bind m (fun _ => k))
  (at level 100, right associativity) : test_scope.

(** The calls of the login tests that the checks do not use. *)
Class FormDriver (W H : Type) := {
  page_fill : string → string → W → outcome unit * W;
  page_click : string → W → outcome unit * W;
  (* page.waitForSelector(selector, { timeout }): rejects when the timeout expires *)
  page_waitForSelector : string → nat → W → outcome (option H) * W
}.

(** What the test runner throws when [expect(x).toBeTruthy()] fails, and how
    [JSON.stringify(report, null, 2)] prints a report. *)
Class TestRunner := {
  toBeTruthy_failure : error;
  stringify : Report → string
}.

(** [a || b || ''] over [process.env]: the first variable that is set and
    not empty. *)
Fixpoint env_or (env : gmap string string) (names : list string) (fallback : string)
    : string :=
  match names with
  | [] => fallback
  | name :: rest =>
      match env !! name with
      | Some value => if falsy value then env_or env rest fallback else value
      | None => env_or env rest fallback
      end
  end.


(** [!userSel] for a selector or [null]. *)
Definition missing (x : option string) : bool :=
  match x with Some s => falsy s | None => true end.

Module taiko.
Definition url : string := "https://taiko.mantishub.io/login_page.php".

Definition attr (tag name value : string) : string :=
  tag ++ "[" ++ name ++ "=" ++ dq ++ value ++ dq ++ "]".
Definition has_text (tag text : string) : string :=
  tag ++ ":has-text(" ++ dq ++ text ++ dq ++ ")".


(** The selector lists of the second test. *)
Definition usernameSelectors2 : list string := [
  attr "input" "name" "username"; "input#username"; attr "input" "type" "text"].
Definition passwordSelectors2 : list string := [
  attr "input" "name" "password"; "input#password"; attr "input" "type" "password"].
Definition submitSelectors2 : list string := [
  attr "button" "type" "submit"; attr "input" "type" "submit"; has_text "button" "Login"].
Definition errorSelectors : list string := [
  ".error"; ".warning"; "text=Invalid"; "text=failed"; "text=incorrect"].

Definition no_controls2 : error := "Could not find login form controls for negative test".

Section tests.
Context {W H : Type} `{!PageDriver W H} `{!FormDriver W H} `{!TestRunner}.
Open Scope test_scope.

(** [expect(x).toBeTruthy()] *)
Definition expect_toBeTruthy (x : bool) : Test W unit :=
  if x then test.ret tt else test.throw toBeTruthy_failure.

(** The loop of both tests over a list of indicators:
    [for (const s of list) { try { await page.waitForSelector(s, { timeout: 3000 });
    found = true; break; } catch (e) {} }]. *)
Fixpoint any_appears (indicators : list string) : Test W bool :=
  match indicators with
  | [] => test.ret false
  | s :: rest =>
      waited <- test.attempt (test.call (page_waitForSelector s 3000)) ;;
      match waited with
      | Ok _ => test.ret true
      | Fault _ => any_appears rest
      end
  end.


(** test('login negative: invalid credentials shows error', ...) *)
Definition login_negative : Test W unit :=
  test.lift (page.goto url) ;;;
  userSel <- test.lift (firstSelectorExists usernameSelectors2) ;;
  passSel <- test.lift (firstSelectorExists passwordSelectors2) ;;
  btnSel <- test.lift (firstSelectorExists submitSelectors2) ;;
  match userSel, passSel, btnSel with
  | Some user, Some pass, Some btn =>
      if missing userSel || missing passSel || missing btnSel
      then test.throw no_controls2
      else
        test.call (page_fill user "invalid_user_xyz") ;;;
        test.call (page_fill pass "wrong_password_123") ;;;
        test.call (page_click btn) ;;;
        foundError <- any_appears errorSelectors ;;
        still <- test.lift (firstSelectorExists usernameSelectors2) ;;
        let formStillThere := present still in
        expect_toBeTruthy (foundError || formStillThere)
  | _, _, _ => test.throw no_controls2
  end.

(** All the waits of the list were rejected, one after the other, taking
    the page from the first state to the second. *)
Inductive timed_out : list string → W → W → Prop :=
| timed_out_nil w : timed_out [] w w
| timed_out_cons s rest w w1 w2 e :
    page_waitForSelector s 3000 w = (Fault e, w1) →
    timed_out rest w1 w2 →
    timed_out (s :: rest) w w2.
End tests.
End taiko.

Module randomuser.
Section scripts.
Context {W H : Type} `{!PageDriver W H} `{!JsRuntime} `{!TestRunner}.
Open Scope test_scope.

(** [process.env.RANDOMUSER_URL || 'http://localhost:3000'], passed as
    [{ url }]. *)
Definition options_of (env : gmap string string) : Options := {|
  opt_url := Some (UrlString (env_or env ["RANDOMUSER_URL"] "http://localhost:3000"));
  opt_selectors := None
|}.

End scripts.

(** The browser around the page: [chromium.launch], [browser.newPage] and
    [browser.close] act on the same world as the page calls do. *)
Class BrowserDriver (W : Type) := {
  chromium_launch : bool → W → outcome unit * W;      (* { headless } *)
  browser_newPage : W → outcome unit * W;
  browser_close : W → outcome unit * W
}.

Section script.
Context {W H : Type} `{!PageDriver W H} `{!JsRuntime} `{!TestRunner} `{!BrowserDriver W}.
Open Scope test_scope.

(** The stand-alone script:
    [launch; newPage; try { runAll; console.log } catch { console.error }
     finally { close }]. *)
Definition main (env : gmap string string) : Test W unit :=
  test.call (chromium_launch false) ;;;
  test.call browser_newPage ;;;
  attempted <- test.attempt (
    results <- test.lift (runAll (options_of env)) ;;
    test.say (ConsoleLog (stringify results))) ;;
  (match attempted with
   | Ok _ => test.ret tt
   | Fault err => test.say (ConsoleError "Error running checks:" err)
   end) ;;;
  test.call browser_close.
End script.
End randomuser.

(** [m] run from [w] resolves to [a], leaves the page at [w'] and has
    written [lines]. *)
Definition gives {W A} (m : Test W A) (w : W) (a : A) (w' : W) (lines : list line) : Prop :=
  m w = MkTestRun (Ok a) w' lines.

(** ** More static pages, and static drivers for the scripts *)

Module Pages.
Import Static.

(** Three cards, the third without its e-mail element. *)
Definition missing_email_page : Page := {|
  location := "http://localhost:3000"; offline := false;
  matches := [(".user-card", [1; 2; 3])];
  within := [
    (1, ".user-name", [21]); (1, ".user-email", [22]); (1, ".user-nationality", [23]);
    (2, ".user-name", [24]); (2, ".user-email", [25]); (2, ".user-nationality", [26]);
    (3, ".user-name", [27]); (3, ".user-nationality", [29]);
    (1, TITLE_LIKE, [31]); (1, TEXT_LIKE, [21]);
    (2, TEXT_LIKE, [24])];
  boxes := []; viewport := None; hrefs := []; opacity := []
|}.

(** The scenario page with a photo whose opacity is not a number. *)
Definition odd_opacity_page : Page := {|
  location := location full_page; offline := false; matches := matches full_page;
  within := within full_page; boxes := boxes full_page;
  viewport := viewport full_page; hrefs := hrefs full_page;
  opacity := [(11, "auto")]
|}.

(** The default selectors but for the one of the second navbar item. *)
Definition options_without_navbar : Options := {|
  opt_url := None;
  opt_selectors := Some (SelObject (list_to_map [
    ("userCard", ".user-card");
    ("userName", ".user-name");
    ("userEmail", ".user-email");
    ("userNationality", ".user-nationality");
    ("refresh", "#refresh");
    ("userPhotoImg", ".user-photo img");
    ("documentation", "#documentation, .documentation");
    ("versionsNav", "nav >> text=Versioni, nav >> text=RandomUser Versions, nav >> text=versioni");
    ("accessChart", ".access-chart, #access-chart");
    ("donateSection", "#donate, .donate")
  ]))
|}.

(** A login form, shown again with a logout link after a click. *)
Definition login_page : Page := {|
  location := "about:blank"; offline := false;
  matches := [
    (taiko.attr "input" "name" "username", [1]);
    (taiko.attr "input" "type" "text", [1]);
    (taiko.attr "input" "name" "password", [2]);
    (taiko.attr "button" "type" "submit", [3]);
    (taiko.has_text "a" "Sign out", [4])];
  within := []; boxes := []; viewport := None; hrefs := []; opacity := []
|}.

Definition timeout : error := "Timeout 3000ms exceeded.".

(** Filling and clicking leave a static page as it is; a wait resolves at
    once when the selector matches and times out otherwise. *)
#[global] Instance form : FormDriver Page nat := {|
  page_fill _ _ p := (Ok tt, p);
  page_click _ p := (Ok tt, p);
  page_waitForSelector s _ p :=
    match all_of (Some s) p with
    | Ok (el :: _) => (Ok (Some el), p)
    | _ => (Fault timeout, p)
    end
|}.

#[global] Instance runner : TestRunner := {|
  toBeTruthy_failure := "expect(received).toBeTruthy()";
  stringify report := if overall_ok report then "all ok" else "some failed"
|}.

(** A browser that always launches, opens its page and closes. *)
#[global] Instance browser : randomuser.BrowserDriver Page := {|
  randomuser.chromium_launch _ p := (Ok tt, p);
  randomuser.browser_newPage p := (Ok tt, p);
  randomuser.browser_close p := (Ok tt, p)
|}.
End Pages.

(** ** Laws of the monad *)

Section monad_facts.
Context {W H : Type}.
Implicit Types w : W.

Lemma bind_Ok {A B} (m : Act W H A) (k : A → Act W H B) w a :
  out (m w) = Ok a →
  bind m k w = MkRun (out (k a (world (m w)))) (world (k a (world (m w))))
                     (log (m w) ++ log (k a (world (m w)))).
Proof. intros Hm. unfold bind. now rewrite Hm. Qed.

Lemma bind_Fault {A B} (m : Act W H A) (k : A → Act W H B) w e :
  out (m w) = Fault e →
  bind m k w = MkRun (Fault e) (world (m w)) (log (m w)).
Proof. intros Hm. unfold bind. now rewrite Hm. Qed.

Lemma bind_Ok_inv {A B} (m : Act W H A) (k : A → Act W H B) w b :
  out (bind m k w) = Ok b →
  ∃ a, out (m w) = Ok a ∧ out (k a (world (m w))) = Ok b.
Proof.
  unfold bind. destruct (out (m w)) as [a|e] eqn:Hm; simpl; [|discriminate].
  intros Hk. now exists a.
Qed.

Lemma bind_yields {A B} (m : Act W H A) (k : A → Act W H B) w a w1 :
  yields m w a w1 →
  out (bind m k w) = out (k a w1) ∧ world (bind m k w) = world (k a w1)
  ∧ log (bind m k w) = log (m w) ++ log (k a w1).
Proof. intros [Hm <-]. now rewrite (bind_Ok _ _ _ _ Hm). Qed.

Lemma every_ok_spec (results : list (string * CheckResult)) :
  every_ok results = true ↔ ∀ name r, In (name, r) results → ok r = true.
Proof.
  unfold every_ok. rewrite forallb_forall. split.
  - intros Hall name r Hin. apply Hall, in_map_iff. now exists (name, r).
  - intros Hall r [[name r'] [<- Hin]]%in_map_iff. now apply (Hall name).
Qed.
End monad_facts.

(** ** runAll *)

Section runAll_facts.
Context {W H : Type} `{!PageDriver W H} `{!JsRuntime}.

(** C1.  A report returned by [runAll] stores, under their nine names and
    in order, the results of the nine checks run one after the other on the
    same page; [overall.ok] is the conjunction of their [ok] flags, hence
    true exactly when every result stored in [details] has [ok] true. *)
Theorem runAll_overall_is_and (options : Options) (w : W) (report : Report) :
  out (runAll options w) = Ok report →
  ∃ r1 r2 r3 r4 r5 r6 r7 r8 r9 w1 w2 w3 w4 w5 w6 w7 w8 w9,
    yields (checkUserCards options) w r1 w1
    ∧ yields (checkRefreshCenters options) w1 r2 w2
    ∧ yields (checkReadableInfo options) w2 r3 w3
    ∧ yields (checkAdvancedSearchControls options) w3 r4 w4
    ∧ yields (checkNavbarPhotos options) w4 r5 w5
    ∧ yields (checkDocumentationAnchors options) w5 r6 w6
    ∧ yields (checkVersionsNav options) w6 r7 w7
    ∧ yields (checkAccessChart options) w7 r8 w8
    ∧ yields (checkDonateAntiBot options) w8 r9 w9
    ∧ report_details report =
        [("userCards", r1); ("refreshCenter", r2); ("readableInfo", r3);
         ("advancedSearch", r4); ("navbarPhotos", r5); ("documentation", r6);
         ("versionsNav", r7); ("accessChart", r8); ("donate", r9)]
    ∧ overall_ok report
      = ok r1 && ok r2 && ok r3 && ok r4 && ok r5 && ok r6 && ok r7 && ok r8 && ok r9
    ∧ (overall_ok report = true
       ↔ ∀ name r, In (name, r) (report_details report) → ok r = true).
Proof.
  unfold runAll. intros Hrun.
  apply bind_Ok_inv in Hrun as (r1 & H1 & Hrun).
  apply bind_Ok_inv in Hrun as (r2 & H2 & Hrun).
  apply bind_Ok_inv in Hrun as (r3 & H3 & Hrun).
  apply bind_Ok_inv in Hrun as (r4 & H4 & Hrun).
  apply bind_Ok_inv in Hrun as (r5 & H5 & Hrun).
  apply bind_Ok_inv in Hrun as (r6 & H6 & Hrun).
  apply bind_Ok_inv in Hrun as (r7 & H7 & Hrun).
  apply bind_Ok_inv in Hrun as (r8 & H8 & Hrun).
  apply bind_Ok_inv in Hrun as (r9 & H9 & Hrun).
  simpl in Hrun. injection Hrun as <-.
  exists r1, r2, r3, r4, r5, r6, r7, r8, r9.
  do 9 eexists.
  repeat (split; [split; [eassumption | reflexivity] |]).
  cbn [report_details overall_ok].
  split; [reflexivity|]. split.
  - unfold every_ok. cbn. rewrite andb_true_r. now rewrite !andb_assoc.
  - apply every_ok_spec.
Qed.
End runAll_facts.

Lemma runAll_overall_is_and_witness :
  out (runAll no_options Static.full_page)
    = Ok {| overall_ok := true; report_details := Static.all_green |}
  ∧ (true = true ↔ ∀ name r, In (name, r) Static.all_green → ok r = true).
Proof.
  split; [vm_compute; reflexivity|].
  destruct (runAll_overall_is_and no_options Static.full_page
              {| overall_ok := true; report_details := Static.all_green |})
    as (? & ? & ? & ? & ? & ? & ? & ? & ? & ? & ? & ? & ? & ? & ? & ? & ? & ? & Hrest);
    [vm_compute; reflexivity|].
  apply Hrest.
Defined.

(** ** firstSelectorExists *)

Section firstSelectorExists_facts.
Context {W H : Type} `{!PageDriver W H}.
Implicit Types (w : W) (sels : list string).

(** One turn of the [for ... of] loop. *)
Lemma firstSelectorExists_cons s rest w :
  firstSelectorExists (s :: rest) w =
    match page_query (Some s) w with
    | Ok (Some el) => MkRun (Ok (Some s)) w [EQuery (Some s) (Ok (Some el))]
    | Ok None =>
        let r := firstSelectorExists rest w in
        MkRun (out r) (world r) (EQuery (Some s) (Ok None) :: log r)
    | Fault e => MkRun (Fault e) w [EQuery (Some s) (Fault e)]
    end.
Proof.
  cbn [firstSelectorExists]. unfold bind, page.query, reading. cbn.
  destruct (page_query (Some s) w) as [[el|]|e]; reflexivity.
Qed.

Lemma firstSelectorExists_world sels w : world (firstSelectorExists sels w) = w.
Proof.
  induction sels as [|s rest IH]; [reflexivity|].
  rewrite firstSelectorExists_cons.
  destruct (page_query (Some s) w) as [[el|]|e]; cbn; auto.
Qed.

Lemma firstSelectorExists_Some sels w s :
  out (firstSelectorExists sels w) = Ok (Some s) ↔ first_match w sels s.
Proof.
  induction sels as [|s0 rest IH].
  - split; [discriminate|]. intros (pre & post & Heq & _). now destruct pre.
  - rewrite firstSelectorExists_cons.
    destruct (page_query (Some s0) w) as [[el|]|e] eqn:Hq; cbn; split.
    + intros [= <-]. exists [], rest. split; [reflexivity|]. split; [intros ? []|eauto].
    + intros ([|p pre] & post & Heq & Hpre & el' & Hs); injection Heq as Hhd Htl.
      * congruence.
      * specialize (Hpre p (or_introl eq_refl)). congruence.
    + intros (pre & post & -> & Hpre & Hs)%IH.
      exists (s0 :: pre), post. split; [reflexivity|]. split; [|assumption].
      intros p [<-|Hin]; auto.
    + intros ([|p pre] & post & Heq & Hpre & el' & Hs); injection Heq as Hhd Htl.
      * congruence.
      * apply IH. exists pre, post. split; [assumption|]. split; [|eauto].
        intros q Hq'. apply Hpre. now right.
    + discriminate.
    + intros ([|p pre] & post & Heq & Hpre & el' & Hs); injection Heq as Hhd Htl.
      * congruence.
      * specialize (Hpre p (or_introl eq_refl)). congruence.
Qed.

Lemma firstSelectorExists_None sels w :
  out (firstSelectorExists sels w) = Ok None
  ↔ ∀ s, In s sels → page_query (Some s) w = Ok None.
Proof.
  induction sels as [|s0 rest IH].
  - split; [intros _ ? []|reflexivity].
  - rewrite firstSelectorExists_cons.
    destruct (page_query (Some s0) w) as [[el|]|e] eqn:Hq; cbn; split.
    + discriminate.
    + intros Hall. specialize (Hall s0 (or_introl eq_refl)). congruence.
    + intros Hrest s [<-|Hin]; [assumption|]. now apply (proj1 IH Hrest).
    + intros Hall. apply IH. intros s Hin. apply Hall. now right.
    + discriminate.
    + intros Hall. specialize (Hall s0 (or_introl eq_refl)). congruence.
Qed.

Lemma firstSelectorExists_Fault sels w e :
  out (firstSelectorExists sels w) = Fault e
  ↔ ∃ pre s post, sels = pre ++ s :: post
      ∧ (∀ p, In p pre → page_query (Some p) w = Ok None)
      ∧ page_query (Some s) w = Fault e.
Proof.
  induction sels as [|s0 rest IH].
  - split; [discriminate|]. intros (pre & s & post & Heq & _). now destruct pre.
  - rewrite firstSelectorExists_cons.
    destruct (page_query (Some s0) w) as [[el|]|e0] eqn:Hq; cbn; split.
    + discriminate.
    + intros ([|p pre] & s & post & Heq & Hpre & Hs); injection Heq as Hhd Htl.
      * congruence.
      * specialize (Hpre p (or_introl eq_refl)). congruence.
    + intros (pre & s & post & -> & Hpre & Hs)%IH.
      exists (s0 :: pre), s, post. split; [reflexivity|]. split; [|assumption].
      intros p [<-|Hin]; auto.
    + intros ([|p pre] & s & post & Heq & Hpre & Hs); injection Heq as Hhd Htl.
      * congruence.
      * apply IH. exists pre, s, post. split; [assumption|]. split; [|assumption].
        intros q Hq'. apply Hpre. now right.
    + intros [= ->]. exists [], s0, rest. split; [reflexivity|]. split; [intros ? []|assumption].
    + intros ([|p pre] & s & post & Heq & Hpre & Hs); injection Heq as Hhd Htl.
      * congruence.
      * specialize (Hpre p (or_introl eq_refl)). congruence.
Qed.

(** C9.  [firstSelectorExists] leaves the page as it found it, returns a
    selector exactly when that selector is the first of the list, in list
    order, that the page answers with an element, returns [null] exactly
    when the page answers [null] to every selector of the list, and rejects
    only with the fault of the first query that did not answer. *)
Theorem firstSelectorExists_prioritized sels w :
  world (firstSelectorExists sels w) = w
  ∧ (∀ s, out (firstSelectorExists sels w) = Ok (Some s) ↔ first_match w sels s)
  ∧ (out (firstSelectorExists sels w) = Ok None
     ↔ ∀ s, In s sels → page_query (Some s) w = Ok None)
  ∧ (∀ e, out (firstSelectorExists sels w) = Fault e
     ↔ ∃ pre s post, sels = pre ++ s :: post
         ∧ (∀ p, In p pre → page_query (Some p) w = Ok None)
         ∧ page_query (Some s) w = Fault e).
Proof.
  split; [apply firstSelectorExists_world|].
  split; [intros s; apply firstSelectorExists_Some|].
  split; [apply firstSelectorExists_None|].
  intros e. apply firstSelectorExists_Fault.
Qed.
End firstSelectorExists_facts.

(** ** Comparing binary64 numbers *)

Lemma SFltb_asym (x y : spec_float) : SFltb x y = true → SFltb y x = false.
Proof.
  unfold SFltb, SFcompare.
  destruct x as [sx|sx| |sx mx ex], y as [sy|sy| |sy my ey];
    try destruct sx; try destruct sy; try discriminate; try reflexivity.
  all: fold (Pos.compare mx my); fold (Pos.compare my mx).
  all: destruct (Z.compare_spec ex ey), (Z.compare_spec ey ex);
    try lia; try discriminate; try reflexivity.
  all: destruct (Pos.compare_spec mx my), (Pos.compare_spec my mx);
    try lia; try discriminate; try reflexivity.
Qed.

(** A number above 256 is below neither 256 nor 192. *)
Lemma above_256 (d : float) :
  PrimFloat.ltb 256 d = true →
  PrimFloat.ltb d 256 = false ∧ PrimFloat.ltb d 192 = false.
Proof.
  rewrite !ltb_spec. intros Hlt. split; [now apply SFltb_asym|].
  revert Hlt. generalize (Prim2SF d). intros x.
  change (Prim2SF 256) with (S754_finite false 4503599627370496 (-44)).
  change (Prim2SF 192) with (S754_finite false 6755399441055744 (-45)).
  unfold SFltb, SFcompare.
  destruct x as [sx|sx| |sx mx ex]; try destruct sx; try discriminate; try reflexivity.
  destruct (Z.compare_spec (-44) ex), (Z.compare_spec ex (-45));
    try lia; try discriminate; reflexivity.
Qed.

(** ** Running a check on a known page *)

Section run_facts.
Context {W H : Type} `{!PageDriver W H} `{!JsRuntime}.
Implicit Types (w : W) (options : Options).

Lemma out_bind_yields {A B} (m : Act W H A) (k : A → Act W H B) w a w1 :
  yields m w a w1 → out (bind m k w) = out (k a w1).
Proof. intros Hm. apply (bind_yields m k) in Hm. tauto. Qed.

Lemma world_bind_yields {A B} (m : Act W H A) (k : A → Act W H B) w a w1 :
  yields m w a w1 → world (bind m k w) = world (k a w1).
Proof. intros Hm. apply (bind_yields m k) in Hm. tauto. Qed.

Lemma yields_bind {A B} (m : Act W H A) (k : A → Act W H B) w a w1 b w2 :
  yields m w a w1 → yields (k a) w1 b w2 → yields (bind m k) w b w2.
Proof.
  intros Hm [Hk1 Hk2]. split.
  - now rewrite (out_bind_yields _ _ _ _ _ Hm).
  - now rewrite (world_bind_yields _ _ _ _ _ Hm).
Qed.

Lemma yields_ret {A} (a : A) w : yields (ret (H:=H) a) w a w.
Proof. now split. Qed.

Lemma reading_yields {A} (f : W → outcome A) (ev : outcome A → event H) w a :
  f w = Ok a → yields (reading f ev) w a w.
Proof. intros Hf. split; [exact Hf | reflexivity]. Qed.

Lemma acting_yields (f : W → outcome unit * W) (ev : outcome unit → event H) w w1 :
  f w = (Ok tt, w1) → yields (acting f ev) w tt w1.
Proof. intros Hf. unfold yields, acting. cbn. now rewrite Hf. Qed.

Lemma viewportSize_yields w : yields page.viewportSize w (page_viewportSize w) w.
Proof. now split. Qed.
End run_facts.

(** Resolve the next awaited call of the goal with a known answer. *)
Ltac await_by tac := erewrite out_bind_yields; [| solve [tac]]; cbn beta iota.
Ltac await_with Hy := await_by ltac:(exact Hy).
Ltac await_read Hq := await_by ltac:(apply reading_yields; exact Hq).
Ltac await_prop := cbn [prop]; await_by ltac:(apply yields_ret).

Section check_facts.
Context {W H : Type} `{!PageDriver W H} `{!JsRuntime}.
Implicit Types (w : W) (options : Options).

(** *** checkAdvancedSearchControls *)

(** C8.  On a page loaded without fault and whose five probes answer, the
    advanced-search check returns [ok] true exactly when (a next button or a
    prev button was found) and a range slider was found and at least two
    gender radios and at least one nationality checkbox were found. *)
Theorem advancedSearch_ok_iff options w w1 next prev slider radios checkboxes :
  loaded options w w1 →
  page_query (Some NEXT_BUTTON) w1 = Ok next →
  page_query (Some PREV_BUTTON) w1 = Ok prev →
  page_query (Some RANGE_SLIDER) w1 = Ok slider →
  page_queryAll (Some GENDER_RADIOS) w1 = Ok radios →
  page_queryAll (Some NATIONALITY_CHECKBOXES) w1 = Ok checkboxes →
  ∃ r, out (checkAdvancedSearchControls options w) = Ok r
    ∧ (ok r = true ↔
         (is_Some next ∨ is_Some prev) ∧ is_Some slider
         ∧ 2 ≤ length radios ∧ 1 ≤ length checkboxes).
Proof.
  intros Hload Hnext Hprev Hslider Hradios Hboxes.
  unfold checkAdvancedSearchControls. cbn zeta.
  await_with Hload. await_read Hnext. await_read Hprev. await_read Hslider.
  await_read Hradios. await_read Hboxes.
  eexists. split; [reflexivity|]. cbn [ok result].
  rewrite !andb_true_iff, orb_true_iff, !Nat.leb_le.
  assert (Hp : ∀ x : option H, present x = true ↔ is_Some x).
  { intros [el|]; cbn; split; try discriminate; eauto. intros [? [=]]. }
  rewrite !Hp. tauto.
Qed.
(** *** checkUserCards *)

Lemma userCards_loop_complete (sel : gmap string string) w i cards :
  (∀ card, In card cards → well_formed_card sel w card) →
  yields (userCards_loop (SelObject sel) i cards) w None w.
Proof.
  revert i. induction cards as [|card rest IH]; intros i Hall; [apply yields_ret|].
  destruct (Hall card (or_introl eq_refl)) as ([name Hname] & [email Hemail] & [nat Hnat]).
  cbn [userCards_loop prop].
  eapply yields_bind; [apply yields_ret|].
  eapply yields_bind; [apply reading_yields, Hname|].
  eapply yields_bind; [apply yields_ret|].
  eapply yields_bind; [apply reading_yields, Hemail|].
  eapply yields_bind; [apply yields_ret|].
  eapply yields_bind; [apply reading_yields, Hnat|].
  cbn. apply IH. intros c Hc. apply Hall. now right.
Qed.

(** C6.  On a page loaded without fault, [sel] being the selectors object
    in force: if no element matches the user-card selector the result is
    [ok] false with [details.count] 0; if N >= 1 elements match and each has
    its name, email and nationality sub-elements the result is [ok] true
    with [details.count] N. *)
Theorem userCards_count options sel w w1 :
  selectors (spread DEFAULT_OPTIONS options) = SelObject sel →
  loaded options w w1 →
  (page_queryAll (sel !! "userCard") w1 = Ok [] →
     ∃ r, out (checkUserCards options w) = Ok r
       ∧ ok r = false ∧ details_count r = Some 0)
  ∧ (∀ cards, cards ≠ [] →
       page_queryAll (sel !! "userCard") w1 = Ok cards →
       (∀ card, In card cards → well_formed_card sel w1 card) →
       ∃ r, out (checkUserCards options w) = Ok r
         ∧ ok r = true ∧ details_count r = Some (length cards)).
Proof.
  intros Hsel Hload. split.
  - intros Hnone. unfold checkUserCards. cbn zeta. rewrite Hsel.
    await_with Hload. await_prop. await_read Hnone.
    eexists. split; [reflexivity|]. now split.
  - intros cards Hne Hcards Hall. unfold checkUserCards. cbn zeta. rewrite Hsel.
    await_with Hload. await_prop. await_read Hcards.
    destruct cards as [|card rest]; [congruence|].
    await_with (userCards_loop_complete sel w1 0 (card :: rest) Hall).
    eexists. split; [reflexivity|]. now split.
Qed.
(** *** checkRefreshCenters *)

(** The card was measured: the result is the centring test on its box and
    on the viewport, or on the fallback when the driver reports none. *)
Lemma checkRefreshCenters_measured options sel w w1 w2 card box size :
  selectors (spread DEFAULT_OPTIONS options) = SelObject sel →
  loaded options w w1 →
  refreshed sel w1 w2 →
  page_query (sel !! "userCard") w2 = Ok (Some card) →
  el_boundingBox card w2 = Ok (Some box) →
  page_viewportSize w2 = size →
  let viewport := default FALLBACK_VIEWPORT size in
  out (checkRefreshCenters options w)
  = Ok (result (centred box viewport)
          (if centred box viewport then "Card centrata" else "Card non centrata")
          (Some (DDelta (deltaX box viewport) (deltaY box viewport) viewport))).
Proof.
  intros Hsel Hload Hrefresh Hcard Hbox Hsize viewport.
  unfold checkRefreshCenters. cbn zeta. rewrite Hsel. await_with Hload. await_prop.
  destruct Hrefresh as [[Hnone ->]|(r & Hsome & Hclick)].
  - await_read Hnone. await_with (yields_ret (H:=H) tt w1). await_prop.
    await_read Hcard. await_read Hbox. await_with (viewportSize_yields w1).
    now rewrite Hsize.
  - await_read Hsome. await_by ltac:(apply acting_yields; exact Hclick). await_prop.
    await_read Hcard. await_read Hbox. await_with (viewportSize_yields w2).
    now rewrite Hsize.
Qed.

(** C5.  With a 1024 x 768 viewport, a card whose centre, the point
    (x + width / 2, y + height / 2) of its bounding box, is the viewport
    centre (512, 384) yields [ok] true, and a card whose centre is off the
    viewport centre by more than 25% of the viewport width (256), on the x
    axis or on the y axis and to either side, yields [ok] false. *)
Theorem refreshCenters_1024_768 options sel w w1 w2 card box :
  selectors (spread DEFAULT_OPTIONS options) = SelObject sel →
  loaded options w w1 →
  refreshed sel w1 w2 →
  page_query (sel !! "userCard") w2 = Ok (Some card) →
  el_boundingBox card w2 = Ok (Some box) →
  page_viewportSize w2 = Some {| vp_width := 1024; vp_height := 768 |} →
  let centreX := (box_x box + box_width box / 2)%float in
  let centreY := (box_y box + box_height box / 2)%float in
  let offset (centre middle : float) := PrimFloat.abs (centre - middle) in
  ∃ r, out (checkRefreshCenters options w) = Ok r
    ∧ (centreX = 512%float → centreY = 384%float → ok r = true)
    ∧ (PrimFloat.ltb (1024 * 0.25) (offset centreX 512%float) = true
       ∨ PrimFloat.ltb (1024 * 0.25) (offset centreY 384%float) = true →
       ok r = false).
Proof.
  intros Hsel Hload Hrefresh Hcard Hbox Hsize centreX centreY offset.
  rewrite (checkRefreshCenters_measured _ _ _ _ _ _ _ _ Hsel Hload Hrefresh Hcard Hbox Hsize).
  eexists. split; [reflexivity|]. cbn [ok result].
  change (default _ _) with {| vp_width := 1024; vp_height := 768 |}.
  unfold centred, deltaX, deltaY, cardCenterX, cardCenterY. cbn [vp_width vp_height].
  fold centreX centreY.
  change (1024 / 2)%float with 512%float. change (768 / 2)%float with 384%float.
  change (1024 * 0.25)%float with 256%float. change (768 * 0.25)%float with 192%float.
  fold (offset centreX 512%float) (offset centreY 384%float). split.
  - intros Hx Hy. subst offset. cbn beta. rewrite Hx, Hy. reflexivity.
  - intros [Hfar|Hfar]; apply above_256 in Hfar as [Hx Hy].
    + now rewrite Hx.
    + rewrite Hy. apply andb_false_r.
Qed.

(** C10.  When [viewportSize()] reports no viewport the check still
    resolves: a measured card is judged against a viewport of width 1024
    and height 768, and an unreadable bounding box is reported as such. *)
Theorem refreshCenters_fallback_viewport options sel w w1 w2 card :
  let fallback := {| vp_width := 1024; vp_height := 768 |} in
  selectors (spread DEFAULT_OPTIONS options) = SelObject sel →
  loaded options w w1 →
  refreshed sel w1 w2 →
  page_query (sel !! "userCard") w2 = Ok (Some card) →
  page_viewportSize w2 = None →
  (∀ box, el_boundingBox card w2 = Ok (Some box) →
     out (checkRefreshCenters options w)
     = Ok (result (centred box fallback)
             (if centred box fallback then "Card centrata" else "Card non centrata")
             (Some (DDelta (deltaX box fallback) (deltaY box fallback) fallback))))
  ∧ (el_boundingBox card w2 = Ok None →
     out (checkRefreshCenters options w)
     = Ok {| ok := false; message := Some "Impossibile leggere bounding box della card";
             details := None |}).
Proof.
  intros fallback Hsel Hload Hrefresh Hcard Hsize. split.
  - intros box Hbox.
    apply (checkRefreshCenters_measured _ _ _ _ _ _ _ _ Hsel Hload Hrefresh Hcard Hbox Hsize).
  - intros Hbox. unfold checkRefreshCenters. cbn zeta. rewrite Hsel.
    await_with Hload. await_prop.
    destruct Hrefresh as [[Hnone ->]|(r & Hsome & Hclick)].
    + await_read Hnone. await_with (yields_ret (H:=H) tt w1). await_prop.
      await_read Hcard. await_read Hbox. await_with (viewportSize_yields w1).
      reflexivity.
    + await_read Hsome. await_by ltac:(apply acting_yields; exact Hclick). await_prop.
      await_read Hcard. await_read Hbox. await_with (viewportSize_yields w2).
      reflexivity.
Qed.

(** *** checkDocumentationAnchors *)

(** One turn of the loop over the anchors. *)
Lemma anchors_loop_cons a rest w :
  out (anchors_loop (a :: rest) w) =
    match anchor_at w a with
    | Resolves => out (anchors_loop rest w)
    | Dangling id => Ok (Some (dangling_result id))
    | Broken e => Fault e
    end.
Proof.
  cbn [anchors_loop]. unfold anchor_at, bind, el.getAttribute, page.query, reading. cbn.
  destruct (el_getAttribute a "href" w) as [[href|]|e]; cbn; try reflexivity.
  destruct (startsWith_hash href); cbn; [|reflexivity].
  destruct (page_query (Some ("#" +:+ slice1 href)) w) as [[target|]|e]; reflexivity.
Qed.

Lemma anchors_loop_first_dangling pre a post id w :
  (∀ b, In b pre → anchor_at w b = Resolves) →
  anchor_at w a = Dangling id →
  out (anchors_loop (pre ++ a :: post) w) = Ok (Some (dangling_result id)).
Proof.
  intros Hpre Ha. induction pre as [|b pre IH]; cbn [app]; rewrite anchors_loop_cons.
  - now rewrite Ha.
  - rewrite (Hpre b (or_introl eq_refl)). apply IH. intros c Hc. apply Hpre. now right.
Qed.

Lemma anchors_loop_world anchors w : world (anchors_loop anchors w) = w.
Proof.
  induction anchors as [|a rest IH]; [reflexivity|].
  cbn [anchors_loop]. unfold bind, el.getAttribute, page.query, reading. cbn.
  destruct (el_getAttribute a "href" w) as [[href|]|e]; cbn; try assumption; try reflexivity.
  destruct (startsWith_hash href); cbn; [|assumption].
  destruct (page_query (Some ("#" +:+ slice1 href)) w) as [[target|]|e]; cbn;
    try assumption; reflexivity.
Qed.

(** Before a dangling anchor that no faulting look-up precedes there is a
    first dangling anchor. *)
Lemma first_dangling pre a post id w :
  (∀ b e, In b pre → anchor_at w b ≠ Broken e) →
  anchor_at w a = Dangling id →
  ∃ pre1 a1 post1 id1, pre ++ a :: post = pre1 ++ a1 :: post1
    ∧ length pre1 ≤ length pre
    ∧ (∀ b, In b pre1 → anchor_at w b = Resolves)
    ∧ anchor_at w a1 = Dangling id1.
Proof.
  intros Hsound Ha. induction pre as [|b pre IH].
  - exists [], a, post, id. repeat split; [lia | intros ? [] | assumption].
  - destruct (anchor_at w b) as [|id'|e] eqn:Hb.
    + destruct IH as (pre1 & a1 & post1 & id1 & Heq & Hlen & Hpre & Ha1).
      { intros c e Hc. apply Hsound. now right. }
      exists (b :: pre1), a1, post1, id1. cbn [app length]. rewrite Heq.
      repeat split; [lia | | assumption].
      intros c [<-|Hc]; auto.
    + exists [], b, (pre ++ a :: post), id'.
      repeat split; [cbn; lia | intros ? [] | assumption].
    + now destruct (Hsound b e (or_introl eq_refl)).
Qed.

(** C7.  On a page loaded without fault whose documentation section is
    found with its internal anchors, [sel] being the selectors object in
    force: the first anchor, in document order, whose href target id is not
    on the page makes the result [ok] false with a message that names that
    id; so a missing target anywhere, not preceded by a faulting look-up,
    gives [ok] false with the id of the first anchor with a missing target,
    which stands at or before it.  A section with no internal anchor gives
    [ok] false with a message of its own, which is not the message given
    when the section is not found. *)
Theorem documentation_dangling_anchor options sel w w1 :
  selectors (spread DEFAULT_OPTIONS options) = SelObject sel →
  loaded options w w1 →
  (∀ docs anchors,
     page_query (sel !! "documentation") w1 = Ok (Some docs) →
     el_queryAll docs (Some INTERNAL_ANCHORS) w1 = Ok anchors →
     (∀ pre a post id,
        anchors = pre ++ a :: post →
        (∀ b, In b pre → anchor_at w1 b = Resolves) →
        anchor_at w1 a = Dangling id →
        out (checkDocumentationAnchors options w) = Ok (dangling_result id))
     ∧ (∀ pre a post id,
        anchors = pre ++ a :: post →
        (∀ b e, In b pre → anchor_at w1 b ≠ Broken e) →
        anchor_at w1 a = Dangling id →
        ∃ pre1 a1 post1 id1,
          anchors = pre1 ++ a1 :: post1 ∧ length pre1 ≤ length pre
          ∧ (∀ b, In b pre1 → anchor_at w1 b = Resolves)
          ∧ anchor_at w1 a1 = Dangling id1
          ∧ out (checkDocumentationAnchors options w) = Ok (dangling_result id1)
          ∧ ok (dangling_result id1) = false
          ∧ message (dangling_result id1) = Some ("Anchor punta a id mancante: " +:+ id1)))
  ∧ (∀ docs,
       page_query (sel !! "documentation") w1 = Ok (Some docs) →
       el_queryAll docs (Some INTERNAL_ANCHORS) w1 = Ok [] →
       out (checkDocumentationAnchors options w) = Ok no_anchor_result)
  ∧ (page_query (sel !! "documentation") w1 = Ok None →
     out (checkDocumentationAnchors options w) = Ok no_section_result)
  ∧ ok no_anchor_result = false ∧ ok no_section_result = false
  ∧ message no_anchor_result ≠ message no_section_result.
Proof.
  intros Hsel Hload.
  assert (Hfirst : ∀ docs anchors,
     page_query (sel !! "documentation") w1 = Ok (Some docs) →
     el_queryAll docs (Some INTERNAL_ANCHORS) w1 = Ok anchors →
     ∀ pre a post id,
        anchors = pre ++ a :: post →
        (∀ b, In b pre → anchor_at w1 b = Resolves) →
        anchor_at w1 a = Dangling id →
        out (checkDocumentationAnchors options w) = Ok (dangling_result id)).
  { intros docs anchors Hdocs Hanchors pre a post id -> Hpre Ha.
    unfold checkDocumentationAnchors. cbn zeta. rewrite Hsel.
    await_with Hload. await_prop. await_read Hdocs. await_read Hanchors.
    pose proof (anchors_loop_first_dangling pre a post id w1 Hpre Ha) as Hloop.
    destruct (pre ++ a :: post) as [|x rest] eqn:Hsplit; [now destruct pre|].
    await_by ltac:(split; [exact Hloop | apply anchors_loop_world]).
    reflexivity. }
  split; [|split; [|split]].
  - intros docs anchors Hdocs Hanchors. split; [now apply (Hfirst docs)|].
    intros pre a post id Heq Hsound Ha.
    destruct (first_dangling pre a post id w1 Hsound Ha)
      as (pre1 & a1 & post1 & id1 & Heq1 & Hlen & Hpre1 & Ha1).
    exists pre1, a1, post1, id1. rewrite <- Heq in Heq1.
    split; [assumption|]. split; [assumption|]. split; [assumption|].
    split; [assumption|].
    split; [now apply (Hfirst docs anchors Hdocs Hanchors pre1 a1 post1)|].
    now split.
  - intros docs Hdocs Hnone. unfold checkDocumentationAnchors. cbn zeta. rewrite Hsel.
    await_with Hload. await_prop. await_read Hdocs. await_read Hnone. reflexivity.
  - intros Hnone. unfold checkDocumentationAnchors. cbn zeta. rewrite Hsel.
    await_with Hload. await_prop. await_read Hnone. reflexivity.
  - repeat split. discriminate.
Qed.

End check_facts.

Lemma advancedSearch_ok_iff_witness :
  ∃ r, out (checkAdvancedSearchControls no_options Static.full_page) = Ok r
    ∧ (ok r = true ↔
         (is_Some (Some 5) ∨ is_Some (@None nat)) ∧ is_Some (Some 6)
         ∧ 2 ≤ length [7; 8] ∧ 1 ≤ length [9]).
Proof.
  apply (advancedSearch_ok_iff no_options Static.full_page Static.full_page);
    vm_compute; auto.
Defined.

(** The scenario page is already loaded: the entry guard leaves it alone. *)
Lemma full_page_loaded : loaded no_options Static.full_page Static.full_page.
Proof. split; reflexivity. Qed.

Lemma userCards_count_witness :
  (∃ r, out (checkUserCards no_options Static.empty_page) = Ok r
     ∧ ok r = false ∧ details_count r = Some 0)
  ∧ (∃ r, out (checkUserCards no_options Static.full_page) = Ok r
       ∧ ok r = true ∧ details_count r = Some 3).
Proof.
  split.
  - eapply (userCards_count no_options _ Static.empty_page);
      [reflexivity | split; reflexivity |].
    reflexivity.
  - apply (proj2 (userCards_count no_options _ Static.full_page Static.full_page
                    eq_refl full_page_loaded) [1; 2; 3]).
    + discriminate.
    + reflexivity.
    + intros card [<-|[<-|[<-|[]]]]; repeat split; eexists; reflexivity.
Defined.

Lemma refreshCenters_1024_768_witness :
  (∃ r, out (checkRefreshCenters no_options Static.full_page) = Ok r ∧ ok r = true)
  ∧ (∀ b, In b [Static.box 900 284 200 200; Static.box (-400) 284 200 200;
                Static.box 412 900 200 200; Static.box 412 (-500) 200 200] →
       ∃ r, out (checkRefreshCenters no_options (Static.moved_page b)) = Ok r
         ∧ ok r = false).
Proof.
  split.
  - destruct (refreshCenters_1024_768 no_options _ Static.full_page Static.full_page
                Static.full_page 1 (Static.box 412 284 200 200) eq_refl)
      as (r & Hr & Hcentred & _).
    + exact full_page_loaded.
    + right. exists 4. split; reflexivity.
    + reflexivity.
    + reflexivity.
    + reflexivity.
    + exists r. split; [exact Hr|]. apply Hcentred; reflexivity.
  - intros b Hb.
    destruct (refreshCenters_1024_768 no_options _ (Static.moved_page b)
                (Static.moved_page b) (Static.moved_page b) 1 b eq_refl)
      as (r & Hr & _ & Hfar).
    + split; reflexivity.
    + right. exists 4. split; reflexivity.
    + reflexivity.
    + reflexivity.
    + reflexivity.
    + exists r. split; [exact Hr|]. apply Hfar.
      cbn in Hb. destruct Hb as [<-|[<-|[<-|[<-|[]]]]].
      * left. reflexivity.
      * left. reflexivity.
      * right. reflexivity.
      * right. reflexivity.
Defined.

Lemma refreshCenters_fallback_viewport_witness :
  out (checkRefreshCenters no_options Static.no_viewport_page)
  = Ok (result true "Card centrata"
          (Some (DDelta 0 0 {| vp_width := 1024; vp_height := 768 |}))).
Proof.
  apply (proj1 (refreshCenters_fallback_viewport no_options _ Static.no_viewport_page
                  Static.no_viewport_page Static.no_viewport_page 1 eq_refl
                  ltac:(split; reflexivity)
                  ltac:(right; exists 4; split; reflexivity)
                  eq_refl eq_refl)
           (Static.box 412 284 200 200)).
  reflexivity.
Defined.

(** ** Faults are the driver's, and are not swallowed *)

Section honesty.
Context {W H : Type} `{!PageDriver W H} `{!JsRuntime}.

Lemma honest_ret {A} (a : A) : honest (ret (W:=W) (H:=H) a).
Proof. intros w. constructor. Qed.

Lemma honest_bind {A B} (m : Act W H A) (k : A → Act W H B) :
  honest m → (∀ a, honest (k a)) → honest (bind m k).
Proof.
  intros Hm Hk w. specialize (Hm w). unfold bind.
  destruct (out (m w)) as [a|e] eqn:Hout; cbn; [|exact Hm].
  specialize (Hk a (world (m w))).
  destruct (out (k a (world (m w)))) as [b|e].
  - now apply Forall_app.
  - destruct Hk as (pre & ev & -> & Hpre & Hev).
    exists (log (m w) ++ pre), ev. rewrite app_assoc. split; [reflexivity|].
    split; [now apply Forall_app | assumption].
Qed.

Lemma honest_single {A} (m : Act W H A) (ev : outcome A → event H) :
  (∀ w, log (m w) = [ev (out (m w))]) →
  (∀ a, fault_of (ev (Ok a)) = None) →
  (∀ e, fault_of (ev (Fault e)) = Some e) →
  honest m.
Proof.
  intros Hlog Hok Hfault w. rewrite Hlog.
  destruct (out (m w)) as [a|e].
  - constructor; [apply Hok | constructor].
  - exists [], (ev (Fault e)). split; [reflexivity|]. split; [constructor | apply Hfault].
Qed.

Lemma honest_url : honest (page.url (W:=W) (H:=H)).
Proof. intros w. cbn. now repeat constructor. Qed.

Lemma honest_viewportSize : honest (page.viewportSize (W:=W) (H:=H)).
Proof. intros w. cbn. now repeat constructor. Qed.

Lemma honest_goto u : honest (page.goto (W:=W) (H:=H) u).
Proof. now apply (honest_single _ (EGoto u)). Qed.

Lemma honest_waitForTimeout ms : honest (page.waitForTimeout (W:=W) (H:=H) ms).
Proof. now apply (honest_single _ (EWaitForTimeout ms)). Qed.

Lemma honest_query s : honest (page.query (W:=W) (H:=H) s).
Proof. now apply (honest_single _ (EQuery s)). Qed.

Lemma honest_queryAll s : honest (page.queryAll (W:=W) (H:=H) s).
Proof. now apply (honest_single _ (EQueryAll s)). Qed.

Lemma honest_el_query h s : honest (el.query (W:=W) h s).
Proof. now apply (honest_single _ (EElQuery h s)). Qed.

Lemma honest_el_queryAll h s : honest (el.queryAll (W:=W) h s).
Proof. now apply (honest_single _ (EElQueryAll h s)). Qed.

Lemma honest_click h : honest (el.click (W:=W) h).
Proof. now apply (honest_single _ (EClick h)). Qed.

Lemma honest_boundingBox h : honest (el.boundingBox (W:=W) h).
Proof. now apply (honest_single _ (EBoundingBox h)). Qed.

Lemma honest_evaluate h f : honest (el.evaluate (W:=W) h f).
Proof. now apply (honest_single _ (EEvaluate h f)). Qed.

Lemma honest_getAttribute h name : honest (el.getAttribute (W:=W) h name).
Proof. now apply (honest_single _ (EGetAttribute h name)). Qed.
End honesty.

Create HintDb honest discriminated.
#[global] Hint Resolve honest_ret honest_url honest_viewportSize honest_goto
  honest_waitForTimeout honest_query honest_queryAll honest_el_query honest_el_queryAll
  honest_click honest_boundingBox honest_evaluate honest_getAttribute : honest.

(** Walk down the binds and branches of an action. *)
Ltac honest_walk :=
  repeat match goal with
  | |- honest (bind _ _) => apply honest_bind; [|intros ?]
  | |- honest (prop (SelObject _) _) => apply honest_ret
  | |- honest (match ?x with _ => _ end) => destruct x
  | |- honest _ => solve [auto with honest]
  end.

Section honest_checks.
Context {W H : Type} `{!PageDriver W H} `{!JsRuntime}.

Lemma honest_ensurePage u : honest (ensurePage (W:=W) (H:=H) u).
Proof. unfold ensurePage. honest_walk. Qed.

Lemma honest_userCards_loop sel i cards :
  honest (userCards_loop (W:=W) (SelObject sel) i cards).
Proof. revert i. induction cards; intros i; cbn [userCards_loop]; honest_walk. Qed.

Lemma honest_readableInfo_loop i cards : honest (readableInfo_loop (W:=W) i cards).
Proof. revert i. induction cards; intros i; cbn [readableInfo_loop]; honest_walk. Qed.

Lemma honest_anchors_loop anchors : honest (anchors_loop (W:=W) anchors).
Proof. induction anchors; cbn [anchors_loop]; honest_walk. Qed.
End honest_checks.

#[global] Hint Resolve honest_ensurePage honest_userCards_loop honest_readableInfo_loop
  honest_anchors_loop : honest.

Section honest_all.
Context {W H : Type} `{!PageDriver W H} `{!JsRuntime}.

(** A check handed a selectors object raises only what the driver raised;
    so does the advanced-search check, which reads no selector. *)
Lemma honest_run_check c options :
  (∃ sel, selectors (spread DEFAULT_OPTIONS options) = SelObject sel) ∨ c = AdvancedSearch →
  honest (run_check (W:=W) (H:=H) c options).
Proof.
  intros [[sel Hsel]| ->].
  - destruct c; cbn [run_check];
      unfold checkUserCards, checkRefreshCenters, checkReadableInfo,
        checkAdvancedSearchControls, checkNavbarPhotos, checkDocumentationAnchors,
        checkVersionsNav, checkAccessChart, checkDonateAntiBot;
      cbn zeta; rewrite ?Hsel; honest_walk.
  - cbn [run_check]. unfold checkAdvancedSearchControls. cbn zeta. honest_walk.
Qed.

Lemma honest_runAll options sel :
  selectors (spread DEFAULT_OPTIONS options) = SelObject sel →
  honest (runAll (W:=W) (H:=H) options).
Proof.
  intros Hsel.
  pose proof (λ c, honest_run_check c options (or_introl (ex_intro _ sel Hsel)))
    as honest_run_check.
  unfold runAll.
  repeat (apply honest_bind; [apply (honest_run_check UserCards)
                             || apply (honest_run_check RefreshCenter)
                             || apply (honest_run_check ReadableInfo)
                             || apply (honest_run_check AdvancedSearch)
                             || apply (honest_run_check NavbarPhotos)
                             || apply (honest_run_check Documentation)
                             || apply (honest_run_check VersionsNav)
                             || apply (honest_run_check AccessChart)
                             || apply (honest_run_check Donate) | intros ?]).
  apply honest_ret.
Qed.
End honest_all.

(** ** The entry guard *)

Section guard.
Context {W H : Type} `{!PageDriver W H} `{!JsRuntime}.
Implicit Types (w : W) (tr : list (event H)).

Lemma ensurePage_loaded u w :
  blank (page_url w) = false →
  ensurePage u w = MkRun (Ok tt) w [EUrl (page_url w)].
Proof. intros Hb. unfold ensurePage, bind, page.url. cbn. now rewrite Hb. Qed.

Lemma ensurePage_blank u w :
  blank (page_url w) = true →
  ensurePage u w = MkRun (page_goto u w).1 (page_goto u w).2
                         [EUrl (page_url w); EGoto u (page_goto u w).1].
Proof. intros Hb. unfold ensurePage, bind, page.url. cbn. now rewrite Hb. Qed.

Lemma guarded_nil u : guarded (H:=H) u [].
Proof. intros i u' r Hi. now rewrite lookup_nil in Hi. Qed.

Lemma guarded_app u tr1 tr2 : guarded u tr1 → guarded u tr2 → guarded u (tr1 ++ tr2).
Proof.
  intros H1 H2 i u' r Hi. apply lookup_app_Some in Hi as [Hi|[Hlen Hi]].
  - destruct (H1 i u' r Hi) as (-> & j & c & -> & Hj & Hc).
    split; [reflexivity|]. exists j, c. split; [reflexivity|].
    split; [|assumption]. now apply lookup_app_l_Some.
  - destruct (H2 _ u' r Hi) as (-> & j & c & Hij & Hj & Hc).
    split; [reflexivity|]. exists (length tr1 + j), c. split; [lia|].
    split; [|assumption]. rewrite lookup_app_r by lia.
    now replace (length tr1 + j - length tr1) with j by lia.
Qed.

Lemma guarded_one u (ev : event H) : is_goto ev = false → guarded u [ev].
Proof.
  intros Hev [|i] u' r Hi; cbn in Hi; [|discriminate].
  injection Hi as ->. discriminate.
Qed.

Lemma guarded_entry u current r :
  blank current = true → guarded (H:=H) u [EUrl current; EGoto u r].
Proof.
  intros Hb [|[|i]] u' r' Hi; cbn in Hi; try discriminate.
  injection Hi as <- <-. split; [reflexivity|]. now exists 0, current.
Qed.

#[global] Instance guarded_compositional u : Compositional (guarded (H:=H) u).
Proof. split; [apply guarded_nil | apply guarded_app | apply guarded_one]. Qed.

#[global] Instance quiet_compositional : Compositional (quiet (H:=H)).
Proof.
  split; unfold quiet, navigations.
  - reflexivity.
  - intros tr1 tr2 H1 H2. now rewrite omap_app, H1, H2.
  - intros [] Hev; try reflexivity. discriminate.
Qed.

Section always.
Context (P : list (event H) → Prop) `{!Compositional P}.

Lemma always_ret {A} (a : A) : always P (ret (W:=W) a).
Proof. intros w. apply comp_nil. Qed.

Lemma always_bind {A B} (m : Act W H A) (k : A → Act W H B) :
  always P m → (∀ a, always P (k a)) → always P (bind m k).
Proof.
  intros Hm Hk w. specialize (Hm w). unfold bind.
  destruct (out (m w)) as [a|e]; cbn; [|exact Hm].
  apply comp_app; [exact Hm | apply Hk].
Qed.

Lemma always_reading {A} (f : W → outcome A) (ev : outcome A → event H) :
  (∀ r, is_goto (ev r) = false) → always P (reading f ev).
Proof. intros Hev w. now apply comp_one. Qed.

Lemma always_acting (f : W → outcome unit * W) (ev : outcome unit → event H) :
  (∀ r, is_goto (ev r) = false) → always P (acting f ev).
Proof. intros Hev w. now apply comp_one. Qed.

Lemma always_viewportSize : always P (page.viewportSize (W:=W)).
Proof. intros w. now apply comp_one. Qed.

Lemma always_prop sel key : always P (prop (W:=W) sel key).
Proof. intros w. destruct sel; apply comp_nil. Qed.

Lemma always_url : always P (page.url (W:=W)).
Proof. intros w. now apply comp_one. Qed.
End always.
End guard.

(** Walk down an action that never calls [goto]. *)
Ltac always_walk :=
  repeat match goal with
  | |- always _ (bind _ _) => apply always_bind; [tc_solve| |intros ?]
  | |- always _ (ret _) => apply always_ret; tc_solve
  | |- always _ (prop _ _) => apply always_prop; tc_solve
  | |- always _ (match ?x with _ => _ end) => destruct x
  | |- always _ (page.query _) => apply always_reading; [tc_solve|reflexivity]
  | |- always _ (page.queryAll _) => apply always_reading; [tc_solve|reflexivity]
  | |- always _ (el.query _ _) => apply always_reading; [tc_solve|reflexivity]
  | |- always _ (el.queryAll _ _) => apply always_reading; [tc_solve|reflexivity]
  | |- always _ (el.boundingBox _) => apply always_reading; [tc_solve|reflexivity]
  | |- always _ (el.evaluate _ _) => apply always_reading; [tc_solve|reflexivity]
  | |- always _ (el.getAttribute _ _) => apply always_reading; [tc_solve|reflexivity]
  | |- always _ (el.click _) => apply always_acting; [tc_solve|reflexivity]
  | |- always _ (page.waitForTimeout _) => apply always_acting; [tc_solve|reflexivity]
  | |- always _ page.viewportSize => apply always_viewportSize; tc_solve
  | |- always _ _ => solve [auto]
  end.

Section guard_checks.
Context {W H : Type} `{!PageDriver W H} `{!JsRuntime}.
Context (P : list (event H) → Prop) `{!Compositional P}.

Lemma always_userCards_loop sel i cards : always P (userCards_loop (W:=W) sel i cards).
Proof. revert i. induction cards; intros i; cbn [userCards_loop]; always_walk. Qed.

Lemma always_readableInfo_loop i cards : always P (readableInfo_loop (W:=W) i cards).
Proof. revert i. induction cards; intros i; cbn [readableInfo_loop]; always_walk. Qed.

Lemma always_anchors_loop anchors : always P (anchors_loop (W:=W) anchors).
Proof. induction anchors; cbn [anchors_loop]; always_walk. Qed.
End guard_checks.

Create HintDb always discriminated.
#[global] Hint Extern 1 (always _ (userCards_loop _ _ _)) =>
  apply always_userCards_loop; tc_solve : always.
#[global] Hint Extern 1 (always _ (readableInfo_loop _ _)) =>
  apply always_readableInfo_loop; tc_solve : always.
#[global] Hint Extern 1 (always _ (anchors_loop _)) =>
  apply always_anchors_loop; tc_solve : always.

Ltac unfold_checks :=
  unfold checkUserCards, checkRefreshCenters, checkReadableInfo,
    checkAdvancedSearchControls, checkNavbarPhotos, checkDocumentationAnchors,
    checkVersionsNav, checkAccessChart, checkDonateAntiBot;
  cbn zeta.

Section guard_all.
Context {W H : Type} `{!PageDriver W H} `{!JsRuntime}.
Implicit Types (w : W) (options : Options).

Lemma always_guarded_ensurePage u : always (guarded u) (ensurePage (W:=W) (H:=H) u).
Proof.
  intros w. destruct (blank (page_url w)) eqn:Hb.
  - rewrite (ensurePage_blank u w Hb). now apply guarded_entry.
  - rewrite (ensurePage_loaded u w Hb). now apply guarded_one.
Qed.

Lemma entry_then_guarded {A} u (body : Act W H A) :
  always (guarded u) body → always (guarded u) (ensurePage u ;;; body).
Proof.
  intros Hbody. apply always_bind; [tc_solve | apply always_guarded_ensurePage | auto].
Qed.

Lemma entry_then_quiet {A} u (body : Act W H A) w :
  always quiet body →
  navigations (log ((ensurePage u ;;; body) w)) = if blank (page_url w) then [u] else [].
Proof.
  intros Hbody. unfold bind. destruct (blank (page_url w)) eqn:Hb.
  - rewrite (ensurePage_blank u w Hb). cbn [out world log].
    destruct (page_goto u w).1 as [[]|e]; cbn [out world log]; [|reflexivity].
    unfold navigations. rewrite omap_app. fold (navigations (log (body (page_goto u w).2))).
    now rewrite (Hbody _).
  - rewrite (ensurePage_loaded u w Hb). cbn [out world log].
    unfold navigations. rewrite omap_app. fold (navigations (log (body w))).
    now rewrite (Hbody _).
Qed.

Lemma guarded_run_check c options :
  always (guarded (url (spread DEFAULT_OPTIONS options)))
         (run_check (W:=W) (H:=H) c options).
Proof.
  destruct c; cbn [run_check]; unfold_checks;
    apply entry_then_guarded; always_walk; auto with always.
Qed.

Lemma navigations_run_check c options w :
  navigations (log (run_check c options w))
  = if blank (page_url w) then [url (spread DEFAULT_OPTIONS options)] else [].
Proof.
  destruct c; cbn [run_check]; unfold_checks;
    apply entry_then_quiet; always_walk; auto with always.
Qed.

(** C3.  The entry guard calls [goto] exactly when the location it reads is
    blank, and otherwise leaves the page as it is.  Hence in the history of
    every check the navigations are: the configured URL, once, when the
    page was blank on entry, and none when its URL was already set.  In
    every check and in [runAll] each [goto] goes to the configured URL and
    directly follows a read of a blank location. *)
Theorem ensurePage_entry_guard :
  (∀ u w, blank (page_url w) = false →
     ensurePage u w = MkRun (Ok tt) w [EUrl (page_url w)])
  ∧ (∀ u w, blank (page_url w) = true →
       ensurePage u w = MkRun (page_goto u w).1 (page_goto u w).2
                              [EUrl (page_url w); EGoto u (page_goto u w).1])
  ∧ (∀ c options w,
       let u := url (spread DEFAULT_OPTIONS options) in
       navigations (log (run_check c options w)) = (if blank (page_url w) then [u] else [])
       ∧ guarded u (log (run_check c options w)))
  ∧ (∀ options w,
       guarded (url (spread DEFAULT_OPTIONS options)) (log (runAll options w))).
Proof.
  split; [exact ensurePage_loaded|]. split; [exact ensurePage_blank|]. split.
  - intros c options w u. split; [apply navigations_run_check | apply guarded_run_check].
  - intros options. unfold runAll.
    pose proof (λ c, guarded_run_check c options) as Hc.
    apply always_bind; [tc_solve | apply (Hc UserCards) | intros ?].
    apply always_bind; [tc_solve | apply (Hc RefreshCenter) | intros ?].
    apply always_bind; [tc_solve | apply (Hc ReadableInfo) | intros ?].
    apply always_bind; [tc_solve | apply (Hc AdvancedSearch) | intros ?].
    apply always_bind; [tc_solve | apply (Hc NavbarPhotos) | intros ?].
    apply always_bind; [tc_solve | apply (Hc Documentation) | intros ?].
    apply always_bind; [tc_solve | apply (Hc VersionsNav) | intros ?].
    apply always_bind; [tc_solve | apply (Hc AccessChart) | intros ?].
    apply always_bind; [tc_solve | apply (Hc Donate) | intros ?].
    apply always_ret. tc_solve.
Qed.
End guard_all.

(** ** Absent elements are reported, not raised *)

Section post.
Context {W H : Type} `{!PageDriver W H} `{!JsRuntime}.

Lemma has_post_ret {A} (a : A) (Q : A → list (event H) → Prop) :
  Q a [] → has_post (ret (W:=W) a) Q.
Proof. intros HQ w. exact HQ. Qed.

Lemma has_post_bind {A B} (m : Act W H A) (k : A → Act W H B) Q :
  has_post m (λ a tr1, has_post (k a) (λ b tr2, Q b (tr1 ++ tr2))) →
  has_post (bind m k) Q.
Proof.
  intros Hm w. specialize (Hm w). unfold bind.
  destruct (out (m w)) as [a|e]; cbn; [|exact I].
  exact (Hm (world (m w))).
Qed.

Lemma has_post_throw {A} (e : error) (Q : A → list (event H) → Prop) :
  has_post (throw (W:=W) e) Q.
Proof. intros w. exact I. Qed.

Lemma has_post_conseq {A} (m : Act W H A) (Q Q' : A → list (event H) → Prop) :
  has_post m Q → (∀ a tr, Q a tr → Q' a tr) → has_post m Q'.
Proof.
  intros Hm HQ w. specialize (Hm w). destruct (out (m w)); [now apply HQ | exact I].
Qed.

Lemma has_post_reading {A} (f : W → outcome A) (ev : outcome A → event H) Q :
  (∀ a, Q a [ev (Ok a)]) → has_post (reading f ev) Q.
Proof. intros HQ w. cbn. destruct (f w); [apply HQ | exact I]. Qed.

Lemma has_post_acting (f : W → outcome unit * W) (ev : outcome unit → event H) Q :
  Q tt [ev (Ok tt)] → has_post (acting f ev) Q.
Proof. intros HQ w. cbn. destruct (f w).1 as [[]|]; [apply HQ | exact I]. Qed.

Lemma has_post_viewportSize Q :
  (∀ size, Q size [EViewportSize size]) → has_post (page.viewportSize (W:=W) (H:=H)) Q.
Proof. intros HQ w. apply HQ. Qed.

Lemma has_post_ensurePage u (Q : unit → list (event H) → Prop) :
  (∀ current, Q tt [EUrl current]) →
  (∀ current, Q tt [EUrl current; EGoto u (Ok tt)]) →
  has_post (ensurePage (W:=W) u) Q.
Proof.
  intros Hloaded Hblank w. destruct (blank (page_url w)) eqn:Hb.
  - rewrite (ensurePage_blank u w Hb). cbn.
    destruct (page_goto u w).1 as [[]|]; [apply Hblank | exact I].
  - rewrite (ensurePage_loaded u w Hb). apply Hloaded.
Qed.
End post.

(** Walk down an action, naming every answer of the driver. *)
Ltac post_walk :=
  repeat match goal with
  | |- has_post (bind _ _) _ => apply has_post_bind
  | |- has_post (ret _) _ => apply has_post_ret
  | |- has_post (throw _) _ => apply has_post_throw
  | |- has_post (prop ?s _) _ =>
      first [is_var s; destruct s | destruct s eqn:?]; cbn [prop]
  | |- has_post (ensurePage _) _ => apply has_post_ensurePage; intros ?
  | |- has_post (page.query _) _ => apply has_post_reading; intros ?
  | |- has_post (page.queryAll _) _ => apply has_post_reading; intros ?
  | |- has_post (el.query _ _) _ => apply has_post_reading; intros ?
  | |- has_post (el.queryAll _ _) _ => apply has_post_reading; intros ?
  | |- has_post (el.boundingBox _) _ => apply has_post_reading; intros ?
  | |- has_post (el.evaluate _ _) _ => apply has_post_reading; intros ?
  | |- has_post (el.getAttribute _ _) _ => apply has_post_reading; intros ?
  | |- has_post (el.click _) _ => apply has_post_acting
  | |- has_post (page.waitForTimeout _) _ => apply has_post_acting
  | |- has_post page.viewportSize _ => apply has_post_viewportSize; intros ?
  | |- has_post (match ?x with _ => _ end) _ =>
      first [is_var x; destruct x | destruct x eqn:?]
  end.

(** Take apart the membership of an event in an explicit history. *)
Ltac which_event Hin :=
  repeat (rewrite in_app_iff in Hin || cbn [In app] in Hin);
  repeat match type of Hin with
         | _ ∨ _ => destruct Hin as [Hin|Hin]
         | False => destruct Hin
         end.

Section absence.
Context {W H : Type} `{!PageDriver W H} `{!JsRuntime}.

Lemma userCards_loop_absence sel i cards :
  has_post (userCards_loop (W:=W) (H:=H) sel i cards) failed_or_all_found.
Proof.
  revert i. induction cards as [|card rest IH]; intros i; cbn [userCards_loop].
  - apply has_post_ret. intros ev [].
  - post_walk; [reflexivity|].
    eapply has_post_conseq; [apply IH|].
    intros [r|] tr Hrest; cbn in *; [assumption|].
    destruct a, a0, a1; try discriminate.
    intros ev [<-|[<-|[<-|Hin]]]; auto.
Qed.

Lemma readableInfo_loop_absence i cards :
  has_post (readableInfo_loop (W:=W) (H:=H) i cards) failed_or_all_found.
Proof.
  revert i. induction cards as [|card rest IH]; intros i; cbn [readableInfo_loop].
  - apply has_post_ret. intros ev [].
  - post_walk; [reflexivity|].
    eapply has_post_conseq; [apply IH|].
    intros [r|] tr Hrest; cbn in *; [assumption|].
    destruct a, a0; try discriminate.
    intros ev [<-|[<-|Hin]]; auto.
Qed.

Lemma anchors_loop_absence anchors :
  has_post (anchors_loop (W:=W) (H:=H) anchors) failed_or_all_found.
Proof.
  induction anchors as [|a rest IH]; cbn [anchors_loop].
  - apply has_post_ret. intros ev [].
  - post_walk; try reflexivity.
    all: eapply has_post_conseq; [apply IH|].
    all: intros [r|] tr Hrest; cbn in *; [assumption|].
    all: intros ev Hin; which_event Hin; subst; auto.
Qed.

End absence.

Ltac post_loops :=
  repeat (post_walk;
    try match goal with
    | |- has_post (userCards_loop _ _ _) _ =>
        eapply has_post_conseq; [apply userCards_loop_absence | intros [?|] ? ?; cbn beta iota]
    | |- has_post (readableInfo_loop _ _) _ =>
        eapply has_post_conseq; [apply readableInfo_loop_absence | intros [?|] ? ?; cbn beta iota]
    | |- has_post (anchors_loop _) _ =>
        eapply has_post_conseq; [apply anchors_loop_absence | intros [?|] ? ?; cbn beta iota]
    end).

Ltac absence_done :=
  let ev := fresh "ev" in let Hin := fresh "Hin" in
  let Habs := fresh "Habs" in let Hnt := fresh "Hnt" in
  intros ev Hin Habs Hnt; cbn [ok result];
  try reflexivity; try assumption;
  which_event Hin; subst; cbn in Habs; try discriminate;
  try match goal with
      | Hall : ∀ ev, In ev ?tr → absent ev = false, Hin : In ?ev ?tr |- _ =>
          rewrite (Hall ev Hin) in Habs; discriminate
      end.

Section absence2.
Context {W H : Type} `{!PageDriver W H} `{!JsRuntime}.

Lemma absence_run_check c options :
  has_post (run_check (W:=W) (H:=H) c options)
           (reports_absence c (spread DEFAULT_OPTIONS options)).
Proof.
  destruct c; cbn [run_check]; unfold_checks; post_loops; cbn [failed_or_all_found] in *.
  all: absence_done.
  all: repeat match goal with x : option _ |- _ => destruct x end.
  all: cbn in Habs; try discriminate.
  all: repeat match goal with
       | Habs : context [match ?l with _ => _ end] |- _ =>
           is_var l; destruct l; cbn in Habs; try discriminate
       end.
  all: try (repeat (progress (cbn; rewrite ?andb_false_r)); reflexivity).
  all: exfalso; apply Hnt; cbn [tolerated];
    first [ match goal with
            | Hs : selectors _ = SelObject ?p |- _ =>
                first [ eexists p, [_], _, _; split; [exact Hs|]; split; reflexivity
                      | eexists p, [_; _], _, _; split; [exact Hs|]; split; reflexivity ]
            end
          | left; split; [reflexivity|]; eexists; cbn; eauto 20
          | right; split; [reflexivity|]; eexists; cbn; eauto 20
          | eexists; left; split; [reflexivity|]; eexists; cbn; eauto 20
          | eexists; right; split; [reflexivity|]; eexists; cbn; eauto 20 ].
Qed.
End absence2.

(** ** Absence and faults together *)

Section faults.
Context {W H : Type} `{!PageDriver W H} `{!JsRuntime}.

Lemma unfaulted_last (pre : list (event H)) ev e :
  fault_of ev = Some e → ¬ unfaulted (pre ++ [ev]).
Proof.
  intros Hev [_ Hlast]%Forall_app. apply Forall_inv in Hlast. congruence.
Qed.

(** What honesty says of one run. *)
Lemma honest_run {A} (m : Act W H A) (w : W) :
  honest m →
  (unfaulted (log (m w)) ↔ ∃ a, out (m w) = Ok a)
  ∧ (∀ e, out (m w) = Fault e ↔
       ∃ pre ev, log (m w) = pre ++ [ev] ∧ unfaulted pre ∧ fault_of ev = Some e).
Proof.
  intros Hm. specialize (Hm w). destruct (out (m w)) as [a|e0]; split.
  - split; [eauto | intros _; exact Hm].
  - intros e. split; [discriminate|].
    intros (pre & ev & Hlog & _ & Hev). rewrite Hlog in Hm.
    now destruct (unfaulted_last pre ev e Hev).
  - destruct Hm as (pre & ev & Hlog & _ & Hev). split.
    + intros Hclean. rewrite Hlog in Hclean. now destruct (unfaulted_last pre ev e0 Hev).
    + intros [a [=]].
  - intros e. destruct Hm as (pre & ev & Hlog & Hpre & Hev). split.
    + intros [= <-]. eauto.
    + intros (pre' & ev' & Hlog' & _ & Hev'). rewrite Hlog in Hlog'.
      apply app_inj_tail in Hlog' as [_ <-]. congruence.
Qed.

(** Handed [undefined] or [null] for selectors, a check that reads a
    selector is its entry guard followed by the TypeError of its first
    read. *)
Lemma run_check_nullish c options what key w :
  nullish (selectors (spread DEFAULT_OPTIONS options)) = Some what →
  first_read c = Some key →
  run_check c options w
  = (ensurePage (url (spread DEFAULT_OPTIONS options)) ;;; throw (cannot_read what key)) w.
Proof.
  intros Hnull Hkey.
  destruct c; try discriminate Hkey; injection Hkey as <-;
    cbn [run_check]; unfold_checks;
    destruct (selectors (spread DEFAULT_OPTIONS options));
    try discriminate Hnull; injection Hnull as <-; reflexivity.
Qed.

Lemma entry_then_throw {A} u e w :
  let run := (ensurePage u ;;; throw (A:=A) e) w in
  log run = log (ensurePage u w)
  ∧ world run = world (ensurePage u w)
  ∧ (∀ a, out run ≠ Ok a)
  ∧ (∀ e', out (ensurePage u w) = Fault e' → out run = Fault e')
  ∧ (out (ensurePage u w) = Ok tt → out run = Fault e).
Proof.
  cbn zeta. unfold bind. destruct (out (ensurePage u w)) as [[]|e0]; cbn.
  - rewrite app_nil_r. repeat split; congruence.
  - repeat split; congruence.
Qed.

(** C2 (as amended).  For every check, options and page state: when the
    check returns, every element probe that found nothing, other than the
    absences the check puts up with (the optional refresh control when a
    card is found, one of next/prev when the other is found, one of
    robot-checkbox/CAPTCHA-frame when the other is found), made the result
    [ok] false.  The check returns a result only if no driver call faulted,
    whatever was absent, and it rejects either with the exception of its
    last driver call, nothing having faulted before, or, no driver call
    having faulted, with the TypeError of reading its first selector from a
    [selectors] option that is [undefined] or [null].  With a selectors
    object, and in the advanced-search check, which reads no selector, only
    the driver's exceptions are left: the check returns exactly when no
    driver call faulted and rejects with [e] exactly when its last driver
    call faulted with [e].  With [undefined] or [null] for selectors a check
    that reads a selector throws that TypeError as soon as the entry guard
    has passed, before any element probe. *)
Theorem absence_reported_faults_propagate (c : CheckName) (options : Options) (w : W) :
  let opts := spread DEFAULT_OPTIONS options in
  let run := run_check c options w in
  let relayed e :=
    ∃ pre ev, log run = pre ++ [ev] ∧ unfaulted pre ∧ fault_of ev = Some e in
  (∀ r ev, out run = Ok r → In ev (log run) → absent ev = true →
     ¬ tolerated c opts (log run) ev → ok r = false)
  ∧ (∀ r, out run = Ok r → unfaulted (log run))
  ∧ (∀ e, out run = Fault e →
       relayed e
       ∨ (unfaulted (log run)
          ∧ ∃ what key, nullish (selectors opts) = Some what
              ∧ first_read c = Some key ∧ e = cannot_read what key))
  ∧ ((∃ sel, selectors opts = SelObject sel) ∨ c = AdvancedSearch →
       (unfaulted (log run) ↔ ∃ r, out run = Ok r)
       ∧ (∀ e, out run = Fault e ↔ relayed e))
  ∧ (∀ what key w1,
       nullish (selectors opts) = Some what → first_read c = Some key →
       loaded options w w1 →
       out run = Fault (cannot_read what key) ∧ world run = w1
       ∧ log run = log (ensurePage (url opts) w) ∧ unfaulted (log run)).
Proof.
  intros opts run relayed.
  assert (Hobject : (∃ sel, selectors opts = SelObject sel) ∨ c = AdvancedSearch →
            (unfaulted (log run) ↔ ∃ r, out run = Ok r)
            ∧ (∀ e, out run = Fault e ↔ relayed e)).
  { intros Hsel. apply honest_run, honest_run_check, Hsel. }
  assert (Hcases : ((∃ sel, selectors opts = SelObject sel) ∨ c = AdvancedSearch)
            ∨ ∃ what key, nullish (selectors opts) = Some what ∧ first_read c = Some key).
  { destruct (selectors opts) as [| |sel] eqn:Hsel; [| |left; left; eauto].
    all: destruct c; try (left; right; reflexivity).
    all: right; do 2 eexists; split; reflexivity. }
  split; [|split; [|split; [|split]]].
  - intros r ev Hout. pose proof (absence_run_check c options w) as Hpost.
    fold run in Hpost. rewrite Hout in Hpost. apply Hpost.
  - intros r Hout. destruct Hcases as [Hsel|(what & key & Hnull & Hkey)].
    + apply (Hobject Hsel). eauto.
    + unfold run in Hout. rewrite (run_check_nullish c options what key w Hnull Hkey) in Hout.
      now destruct (proj1 (proj2 (proj2 (entry_then_throw _ _ _))) r Hout).
  - intros e Hout. destruct Hcases as [Hsel|(what & key & Hnull & Hkey)].
    + left. now apply (Hobject Hsel).
    + pose proof (run_check_nullish c options what key w Hnull Hkey) as Hrun.
      fold run opts in Hrun.
      destruct (entry_then_throw (A:=CheckResult) (url opts) (cannot_read what key) w)
        as (Hlog & _ & _ & Hfault & Hthrow).
      cbn zeta in *. rewrite <- Hrun in Hlog, Hfault, Hthrow.
      pose proof (honest_ensurePage (url opts) w) as Hguard.
      destruct (out (ensurePage (url opts) w)) as [[]|e0].
      * right. rewrite Hthrow in Hout by reflexivity. injection Hout as <-.
        split; [now rewrite Hlog|]. eauto.
      * left. rewrite (Hfault e0 eq_refl) in Hout. injection Hout as <-.
        unfold relayed. now rewrite Hlog.
  - exact Hobject.
  - intros what key w1 Hnull Hkey [Hout Hworld].
    pose proof (run_check_nullish c options what key w Hnull Hkey) as Hrun.
    fold run opts in Hrun.
    destruct (entry_then_throw (A:=CheckResult) (url opts) (cannot_read what key) w)
      as (Hlog & Hw & _ & _ & Hthrow).
    cbn zeta in *. rewrite <- Hrun in Hlog, Hw, Hthrow.
    pose proof (honest_ensurePage (url opts) w) as Hguard.
    fold opts in Hout, Hworld. rewrite Hout in Hguard.
    split; [now apply Hthrow|]. split; [congruence|]. split; [assumption|].
    now rewrite Hlog.
Qed.

(** A fault inside one check aborts [runAll] with that same fault. *)
Lemma runAll_faults_propagate (options : Options) sel (w : W) :
  selectors (spread DEFAULT_OPTIONS options) = SelObject sel →
  (unfaulted (log (runAll options w)) ↔ ∃ report, out (runAll options w) = Ok report)
  ∧ (∀ e, out (runAll options w) = Fault e ↔
       ∃ pre ev, log (runAll options w) = pre ++ [ev]
         ∧ unfaulted pre ∧ fault_of ev = Some e).
Proof. intros Hsel. eapply honest_run, honest_runAll, Hsel. Qed.

(** *** The merged configuration *)

End faults.

(** C2, as the specification words it, fails twice.  The refresh control
    is missing and the refresh check still passes: an absent probed element
    does not always give [ok] false.  And with [null] for selectors a check
    rejects with a TypeError although no driver call faulted: an exception
    escapes a check that no driver operation raised. *)
Lemma absent_refresh_passes_null_selectors_throw :
  (let run := checkRefreshCenters no_options Static.no_refresh_page in
   In (EQuery (Some "#refresh") (Ok None)) (log run)
   ∧ absent (EQuery (H:=nat) (Some "#refresh") (Ok None)) = true
   ∧ out run = Ok (result true "Card centrata"
                     (Some (DDelta 0 0 {| vp_width := 1024; vp_height := 768 |}))))
  ∧ (let run := checkUserCards Static.null_selectors Static.full_page in
     out run = Fault "Cannot read properties of null (reading 'userCard')"
     ∧ log run = [EUrl "http://localhost:3000"]
     ∧ unfaulted (log run)).
Proof.
  cbn zeta. split.
  - split; [right; left; reflexivity|]. split; reflexivity.
  - split; [reflexivity|]. split; [reflexivity|]. repeat constructor.
Qed.

(** With one selector overridden the other ten are gone: the refresh check
    hands [undefined] to the driver, which this driver refuses. *)
Example partial_selectors_drop_defaults :
  (∃ sel, selectors DEFAULT_OPTIONS = SelObject sel ∧ sel !! "refresh" = Some "#refresh")
  ∧ (∃ sel, selectors (spread DEFAULT_OPTIONS Static.partial_options) = SelObject sel
       ∧ sel !! "refresh" = None ∧ sel !! "userCard" = Some ".user-card")
  ∧ checkRefreshCenters Static.partial_options Static.full_page
    = MkRun (Fault Static.bad_selector) Static.full_page
        [EUrl "http://localhost:3000"; EQuery None (Fault Static.bad_selector)].
Proof. split; [|split]; [eexists; split; reflexivity | eexists; repeat split | reflexivity]. Qed.

(** A [selectors] key given as [undefined] or [null] wins over the default
    object all the same: the battery stops at the TypeError of its first
    check, while the advanced-search check, alone, still returns.  A [url]
    key given as [undefined] is handed to [goto] when the page is blank,
    and is never looked at when the page is loaded. *)
Example nullish_options_replace_defaults :
  selectors (spread DEFAULT_OPTIONS Static.undefined_selectors) = SelUndefined
  ∧ out (runAll Static.undefined_selectors Static.full_page)
    = Fault "Cannot read properties of undefined (reading 'userCard')"
  ∧ out (checkAdvancedSearchControls Static.null_selectors Static.full_page)
    = Ok (result true "Controlli ricerca presenti" (Some (DControls true false true 2 1)))
  ∧ checkUserCards Static.undefined_url Static.empty_page
    = MkRun (Fault Static.bad_url) Static.empty_page
        [EUrl "about:blank"; EGoto UrlUndefined (Fault Static.bad_url)]
  ∧ out (checkUserCards Static.undefined_url Static.full_page)
    = Ok (result true "User cards OK" (Some (DCount 3))).
Proof. repeat split. Qed.

Lemma documentation_dangling_anchor_witness :
  out (checkDocumentationAnchors no_options Static.dangling_page)
  = Ok (dangling_result "missing")
  ∧ ∃ id, out (checkDocumentationAnchors no_options Static.two_dangling_page)
          = Ok (dangling_result id).
Proof.
  split.
  - apply (proj1 (proj1 (documentation_dangling_anchor no_options _ Static.dangling_page
                           Static.dangling_page eq_refl ltac:(split; reflexivity))
                    12 [13; 34] eq_refl eq_refl)
             [13] 34 [] "missing" eq_refl).
    + intros b [<-|[]]. reflexivity.
    + reflexivity.
  - destruct (proj2 (proj1 (documentation_dangling_anchor no_options _
                              Static.two_dangling_page Static.two_dangling_page
                              eq_refl ltac:(split; reflexivity))
                       12 [13; 34] eq_refl eq_refl)
                [13] 34 [] "second" eq_refl)
      as (pre1 & a1 & post1 & id1 & _ & _ & _ & _ & Hout & _).
    + intros b e [<-|[]]. discriminate.
    + reflexivity.
    + exists id1. exact Hout.
Defined.

(** C7, as the specification words it, fails: of two anchors with missing
    targets, [#first] before [#second], the message names [first] only. *)
Lemma later_dangling_anchor_unnamed :
  let page := Static.two_dangling_page in
  let run := checkDocumentationAnchors no_options page in
  el_queryAll 12 (Some INTERNAL_ANCHORS) page = Ok [13; 34]
  ∧ anchor_at page 34 = Dangling "second"
  ∧ out run = Ok (dangling_result "first")
  ∧ (∀ r, out run = Ok r → ∃ text, message r = Some text ∧ includes "second" text = false).
Proof.
  cbn zeta. repeat split. intros r [= <-]. eexists. split; reflexivity.
Qed.

(** ** The checks at work on the static pages *)

Example index_to_string_12 : index_to_string 0 = "0" ∧ index_to_string 12 = "12".
Proof. split; reflexivity. Qed.

(** Nothing on the page: every check reports a failure, none throws, and
    the page was navigated once, by the first entry guard. *)
Example empty_page_fails_every_check :
  Forall (λ c, ∃ r, out (run_check c no_options Static.empty_page) = Ok r ∧ ok r = false)
         all_checks
  ∧ navigations (log (runAll no_options Static.empty_page)) = [UrlString "http://localhost:3000"].
Proof. split; [|reflexivity]. repeat constructor; eexists; split; reflexivity. Qed.

(** The page cannot be reached: the fault of [goto] comes out of every
    check, and out of [runAll], as it is. *)
Example offline_page_faults :
  Forall (λ c, run_check c no_options Static.offline_page
               = MkRun (Fault Static.unreachable) Static.offline_page
                   [EUrl "about:blank";
                    EGoto "http://localhost:3000" (Fault Static.unreachable)])
         all_checks
  ∧ out (runAll no_options Static.offline_page) = Fault Static.unreachable.
Proof. split; [|reflexivity]. repeat constructor. Qed.

(** The third card has no e-mail element. *)
Example card_without_email :
  let page := {|
    Static.location := "http://localhost:3000"; Static.offline := false;
    Static.matches := [(".user-card", [1; 2; 3])];
    Static.within := [
      (1, ".user-name", [21]); (1, ".user-email", [22]); (1, ".user-nationality", [23]);
      (2, ".user-name", [24]); (2, ".user-email", [25]); (2, ".user-nationality", [26]);
      (3, ".user-name", [27]); (3, ".user-nationality", [29])];
    Static.boxes := []; Static.viewport := None; Static.hrefs := [];
    Static.opacity := [] |} in
  out (checkUserCards no_options page)
  = Ok (result false "Card 2 mancano campi obbligatori" (Some (DIndex 2))).
Proof. reflexivity. Qed.

(** The selector helper on the scenario page. *)
Example firstSelectorExists_on_full_page :
  out (firstSelectorExists ["#nowhere"; RANGE_SLIDER; NEXT_BUTTON] Static.full_page)
  = Ok (Some RANGE_SLIDER)
  ∧ out (firstSelectorExists ["#nowhere"; ".none"] Static.full_page) = Ok None.
Proof. split; reflexivity. Qed.

(** A page that is already loaded is not navigated again, by any check or
    by the whole battery; a blank one is navigated once. *)
Example loaded_page_is_not_navigated :
  navigations (log (runAll no_options Static.full_page)) = []
  ∧ Forall (λ c, navigations (log (run_check c no_options Static.full_page)) = [])
           all_checks
  ∧ Forall (λ c, navigations (log (run_check c no_options Static.empty_page))
                 = [UrlString "http://localhost:3000"])
           all_checks.
Proof. split; [reflexivity|]. split; repeat constructor. Qed.

(** ** Whole runs of the checks *)

Section whole_runs.
Context {W H : Type} `{!PageDriver W H} `{!JsRuntime}.
Implicit Types (w : W) (options : Options).

Lemma bind_run_yields {A B} (m : Act W H A) (k : A → Act W H B) w a w1 :
  yields m w a w1 →
  bind m k w = MkRun (out (k a w1)) (world (k a w1)) (log (m w) ++ log (k a w1)).
Proof. intros [Hm <-]. now rewrite (bind_Ok _ _ _ _ Hm). Qed.

Lemma log_bind_yields {A B} (m : Act W H A) (k : A → Act W H B) w a w1 :
  yields m w a w1 → log (bind m k w) = log (m w) ++ log (k a w1).
Proof. intros Hm. now rewrite (bind_run_yields _ _ _ _ _ Hm). Qed.

Lemma run_eta {A} (r : Run W H A) : MkRun (out r) (world r) (log r) = r.
Proof. now destruct r. Qed.

Lemma bind_ret_l {A B} (a : A) (k : A → Act W H B) w : bind (ret a) k w = k a w.
Proof. unfold bind, ret. cbn. apply run_eta. Qed.

(** Reading a selector from a selectors object is no step at all. *)
Lemma bind_prop {B} (sel : gmap string string) key (k : selector → Act W H B) w :
  bind (prop (SelObject sel) key) k w = k (sel !! key) w.
Proof. apply bind_ret_l. Qed.

Lemma yields_prop {B} (sel : gmap string string) key (k : selector → Act W H B) w b w1 :
  yields (k (sel !! key)) w b w1 → yields (bind (prop (SelObject sel) key) k) w b w1.
Proof. unfold yields. now rewrite bind_prop. Qed.
End whole_runs.

(** Resolve the next awaited call in the whole run. *)
Ltac run_by tac :=
  rewrite ?bind_prop; erewrite bind_run_yields; [| solve [tac]];
  cbn [out world log reading acting ret el.query el.queryAll el.click el.boundingBox
       el.evaluate el.getAttribute page.query page.queryAll page.goto
       page.waitForTimeout page.url page.viewportSize];
  rewrite ?bind_prop.
Ltac run_read Hq := run_by ltac:(apply reading_yields; exact Hq).

(** Resolve the next awaited call, reading on through the selector
    look-ups in a selectors object. *)
Ltac await_on tac :=
  rewrite ?bind_prop; erewrite out_bind_yields; [| solve [tac]]; cbn beta iota;
  rewrite ?bind_prop.
Ltac await_on_with Hy := await_on ltac:(exact Hy).
Ltac await_on_read Hq := await_on ltac:(apply reading_yields; exact Hq).

(** The same for a goal that says what an action yields. *)
Ltac yields_by tac :=
  repeat apply yields_prop; eapply yields_bind; [solve [tac]|]; cbn beta iota;
  repeat apply yields_prop.
Ltac yields_read Hq := yields_by ltac:(apply reading_yields; exact Hq).
Ltac yields_act Hq := yields_by ltac:(apply acting_yields; exact Hq).

Section card_loops.
Context {W H : Type} `{!PageDriver W H} `{!JsRuntime}.
Implicit Types (w : W) (options : Options).

Lemma userCards_loop_stops (sel : gmap string string) w i pre card post :
  (∀ c, In c pre → well_formed_card sel w c) →
  incomplete_card sel w card →
  userCards_loop (SelObject sel) i (pre ++ card :: post) w
  = MkRun (Ok (Some (result false
                       ("Card " ++ index_to_string (i + length pre)
                        ++ " mancano campi obbligatori")
                       (Some (DIndex (i + length pre))))))
          w (flat_map (card_probes sel w) (pre ++ [card])).
Proof.
  revert i. induction pre as [|c pre IH]; intros i Hpre Hcard.
  - destruct Hcard as (name & email & nationality & Hname & Hemail & Hnat & Hmiss).
    cbn [app userCards_loop length flat_map]. rewrite Nat.add_0_r.
    run_read Hname. run_read Hemail. run_read Hnat.
    unfold card_probes. rewrite Hname, Hemail, Hnat.
    destruct name, email, nationality; try discriminate; cbn; reflexivity.
  - destruct (Hpre c (or_introl eq_refl)) as ([name Hname] & [email Hemail] & [nationality Hnat]).
    cbn [app userCards_loop length flat_map].
    run_read Hname. run_read Hemail. run_read Hnat. cbn [present negb orb].
    rewrite IH by (auto; intros c' Hc'; apply Hpre; now right).
    cbn [out world log]. unfold card_probes at 2. rewrite Hname, Hemail, Hnat.
    now replace (i + S (length pre)) with (S i + length pre) by lia.
Qed.

(** X1.  The card-presence check stops at the first card that lacks a
    mandatory field: it reports that card's index, in the message and in
    [details.index], and after the page-level query it has probed the cards
    up to that one, three probes each, and none of the cards after it. *)
Theorem userCards_first_incomplete options sel w w1 pre card post :
  selectors (spread DEFAULT_OPTIONS options) = SelObject sel →
  loaded options w w1 →
  page_queryAll (sel !! "userCard") w1 = Ok (pre ++ card :: post) →
  (∀ c, In c pre → well_formed_card sel w1 c) →
  incomplete_card sel w1 card →
  out (checkUserCards options w)
  = Ok (result false
          ("Card " ++ index_to_string (length pre) ++ " mancano campi obbligatori")
          (Some (DIndex (length pre))))
  ∧ log (checkUserCards options w)
    = log (ensurePage (url (spread DEFAULT_OPTIONS options)) w)
      ++ EQueryAll (sel !! "userCard") (Ok (pre ++ card :: post))
         :: flat_map (card_probes sel w1) (pre ++ [card]).
Proof.
  intros Hsel Hload Hcards Hpre Hcard. unfold checkUserCards. cbn zeta. rewrite Hsel.
  run_by ltac:(exact Hload). run_read Hcards.
  destruct (pre ++ card :: post) as [|x rest] eqn:Hsplit; [now destruct pre|].
  rewrite <- Hsplit in *.
  pose proof (userCards_loop_stops sel w1 0 pre card post Hpre Hcard) as Hloop.
  run_by ltac:(split; rewrite Hloop; reflexivity).
  rewrite Hloop, Hcards. cbn [out world log ret app Nat.add]. rewrite app_nil_r.
  split; reflexivity.
Qed.
End card_loops.

Section readable_facts.
Context {W H : Type} `{!PageDriver W H} `{!JsRuntime}.
Implicit Types (w : W) (options : Options).

Lemma readableInfo_loop_complete w i cards :
  (∀ card, In card cards → readable_card w card) →
  yields (readableInfo_loop i cards) w None w.
Proof.
  revert i. induction cards as [|card rest IH]; intros i Hall; [apply yields_ret|].
  destruct (Hall card (or_introl eq_refl)) as ([title Htitle] & [text Htext]).
  cbn [readableInfo_loop].
  eapply yields_bind; [apply reading_yields, Htitle|].
  eapply yields_bind; [apply reading_yields, Htext|].
  cbn. apply IH. intros c Hc. apply Hall. now right.
Qed.

Lemma readableInfo_loop_stops w i pre card post title text :
  (∀ c, In c pre → readable_card w c) →
  el_query card (Some TITLE_LIKE) w = Ok title →
  el_query card (Some TEXT_LIKE) w = Ok text →
  present title && present text = false →
  yields (readableInfo_loop i (pre ++ card :: post)) w
    (Some (result false
             ("Card " ++ index_to_string (i + length pre)
              ++ " non ha titolo o testo descrittivo")
             (Some (DReadable (present title) (present text))))) w.
Proof.
  revert i. induction pre as [|c pre IH]; intros i Hpre Htitle Htext Hmiss.
  - cbn [app readableInfo_loop length]. rewrite Nat.add_0_r.
    eapply yields_bind; [apply reading_yields, Htitle|].
    eapply yields_bind; [apply reading_yields, Htext|].
    cbn zeta. destruct title, text; try discriminate; apply yields_ret.
  - destruct (Hpre c (or_introl eq_refl)) as ([t Ht] & [x Hx]).
    cbn [app readableInfo_loop length].
    eapply yields_bind; [apply reading_yields, Ht|].
    eapply yields_bind; [apply reading_yields, Hx|].
    cbn. replace (i + S (length pre)) with (S i + length pre) by lia.
    apply IH; auto. intros c' Hc'. apply Hpre. now right.
Qed.

(** X2.  The readability check on a loaded page: with no card it fails
    without details; with at least one card, all of them having a
    heading-like and a text-like element, it passes; otherwise it stops at
    the first card that lacks one of the two, names its index in the
    message, and [details] tells which of the two was found (both probes
    are made even when the first finds nothing). *)
Theorem readableInfo_cases options sel w w1 :
  selectors (spread DEFAULT_OPTIONS options) = SelObject sel →
  loaded options w w1 →
  (page_queryAll (sel !! "userCard") w1 = Ok [] →
     out (checkReadableInfo options w)
     = Ok {| ok := false; message := Some "Nessuna card per verifica leggibilità";
             details := None |})
  ∧ (∀ cards, cards ≠ [] →
       page_queryAll (sel !! "userCard") w1 = Ok cards →
       (∀ card, In card cards → readable_card w1 card) →
       out (checkReadableInfo options w)
       = Ok {| ok := true; message := Some "Informazioni di facile comprensione presenti";
               details := None |})
  ∧ (∀ pre card post title text,
       page_queryAll (sel !! "userCard") w1 = Ok (pre ++ card :: post) →
       (∀ c, In c pre → readable_card w1 c) →
       el_query card (Some TITLE_LIKE) w1 = Ok title →
       el_query card (Some TEXT_LIKE) w1 = Ok text →
       present title && present text = false →
       out (checkReadableInfo options w)
       = Ok (result false
               ("Card " ++ index_to_string (length pre)
                ++ " non ha titolo o testo descrittivo")
               (Some (DReadable (present title) (present text))))).
Proof.
  intros Hsel Hload. unfold checkReadableInfo. cbn zeta. rewrite Hsel. split; [|split].
  - intros Hnone. await_on_with Hload. await_on_read Hnone. reflexivity.
  - intros cards Hne Hcards Hall. await_on_with Hload. await_on_read Hcards.
    destruct cards as [|card rest]; [congruence|].
    await_on_with (readableInfo_loop_complete w1 0 (card :: rest) Hall). reflexivity.
  - intros pre card post title text Hcards Hpre Htitle Htext Hmiss.
    await_on_with Hload. await_on_read Hcards.
    pose proof (readableInfo_loop_stops w1 0 pre card post title text
                  Hpre Htitle Htext Hmiss) as Hloop.
    destruct (pre ++ card :: post) as [|x rest] eqn:Hsplit; [now destruct pre|].
    await_on_with Hloop. reflexivity.
Qed.
End readable_facts.

(** ** Numbers that are not numbers *)

Lemma SFeqb_refl_nan (x : spec_float) : SFeqb x x = false → x = S754_nan.
Proof.
  unfold SFeqb, SFcompare. destruct x as [s|s| |s m e]; try reflexivity.
  - discriminate.
  - destruct s; discriminate.
  - rewrite Z.compare_refl. fold (Pos.compare m m). rewrite Pos.compare_refl.
    destruct s; discriminate.
Qed.

Lemma SFleb_nan_r (x : spec_float) : SFleb x S754_nan = false.
Proof. now destruct x. Qed.

(** No number is below or equal to NaN, and NaN is below or equal to none. *)
Lemma leb_nan (x y : float) :
  PrimFloat.is_nan x = true ∨ PrimFloat.is_nan y = true → PrimFloat.leb x y = false.
Proof.
  unfold PrimFloat.is_nan. rewrite leb_spec.
  intros [Hx|Hy].
  - apply Bool.negb_true_iff in Hx. rewrite FloatAxioms.eqb_spec in Hx.
    apply SFeqb_refl_nan in Hx. now rewrite Hx.
  - apply Bool.negb_true_iff in Hy. rewrite FloatAxioms.eqb_spec in Hy.
    apply SFeqb_refl_nan in Hy. rewrite Hy. apply SFleb_nan_r.
Qed.

Section section_checks.
Context {W H : Type} `{!PageDriver W H} `{!JsRuntime}.
Implicit Types (w : W) (options : Options).

(** *** checkNavbarPhotos *)

Lemma navbarPhotos_sampled options sel w w1 w2 w3 nav first others initial later transition :
  selectors (spread DEFAULT_OPTIONS options) = SelObject sel →
  loaded options w w1 →
  page_query (sel !! "navbarSecondItem") w1 = Ok (Some nav) →
  el_click nav w1 = (Ok tt, w2) →
  page_queryAll (sel !! "userPhotoImg") w2 = Ok (first :: others) →
  el_evaluate first GetOpacity w2 = Ok initial →
  page_waitForTimeout 500 w2 = (Ok tt, w3) →
  el_evaluate first GetOpacity w3 = Ok later →
  el_evaluate first GetTransition w3 = Ok transition →
  let ok := PrimFloat.leb (parseFloat initial) (parseFloat later)
            || (0 <? String.length transition)%nat in
  yields (checkNavbarPhotos options) w
    (result ok (if ok then "Foto con effetto progressivo rilevato"
                else "Effetto progressivo non evidente")
       (Some (DOpacity initial later transition))) w3.
Proof.
  intros Hsel Hload Hnav Hclick Himgs Hinitial Hwait Hlater Htransition ok.
  unfold checkNavbarPhotos. cbn zeta. rewrite Hsel.
  yields_by ltac:(exact Hload).
  yields_read Hnav.
  yields_act Hclick.
  yields_read Himgs.
  yields_read Hinitial.
  yields_act Hwait.
  yields_read Hlater.
  yields_read Htransition.
  apply yields_ret.
Qed.

(** X3.  The photo check looks for the photos on the page as the click on
    the second navbar item left it, samples the first photo only, reads
    its opacity before and after the 500 ms wait and its transition after
    it, and leaves the page in the state reached after the wait.  It
    passes exactly when the later opacity is not below the initial one or
    a transition is declared: a declared transition passes whatever the
    opacities. *)
Theorem navbarPhotos_pass_condition
    options sel w w1 w2 w3 nav first others initial later transition :
  selectors (spread DEFAULT_OPTIONS options) = SelObject sel →
  loaded options w w1 →
  page_query (sel !! "navbarSecondItem") w1 = Ok (Some nav) →
  el_click nav w1 = (Ok tt, w2) →
  page_queryAll (sel !! "userPhotoImg") w2 = Ok (first :: others) →
  el_evaluate first GetOpacity w2 = Ok initial →
  page_waitForTimeout 500 w2 = (Ok tt, w3) →
  el_evaluate first GetOpacity w3 = Ok later →
  el_evaluate first GetTransition w3 = Ok transition →
  ∃ r, yields (checkNavbarPhotos options) w r w3
    ∧ details r = Some (DOpacity initial later transition)
    ∧ (ok r = true
       ↔ PrimFloat.leb (parseFloat initial) (parseFloat later) = true
         ∨ transition ≠ "")
    ∧ (transition ≠ "" → ok r = true).
Proof.
  intros Hsel Hload Hnav Hclick Himgs Hinitial Hwait Hlater Htransition.
  eexists. split; [eapply navbarPhotos_sampled; eassumption|].
  cbn [details ok result]. split; [reflexivity|].
  assert (Hlen : (0 <? String.length transition)%nat = true ↔ transition ≠ "").
  { destruct transition; cbn; split; congruence. }
  rewrite orb_true_iff, Hlen. split; [tauto|]. intros Hne. now right.
Qed.

(** X4.  An opacity that does not parse to a number fails the photo
    check unless a transition is declared: when [parseFloat] gives NaN for
    the initial or for the later opacity and the transition is empty, the
    result is [ok] false. *)
Theorem navbarPhotos_nan_opacity
    options sel w w1 w2 w3 nav first others initial later :
  selectors (spread DEFAULT_OPTIONS options) = SelObject sel →
  loaded options w w1 →
  page_query (sel !! "navbarSecondItem") w1 = Ok (Some nav) →
  el_click nav w1 = (Ok tt, w2) →
  page_queryAll (sel !! "userPhotoImg") w2 = Ok (first :: others) →
  el_evaluate first GetOpacity w2 = Ok initial →
  page_waitForTimeout 500 w2 = (Ok tt, w3) →
  el_evaluate first GetOpacity w3 = Ok later →
  el_evaluate first GetTransition w3 = Ok "" →
  PrimFloat.is_nan (parseFloat initial) = true
  ∨ PrimFloat.is_nan (parseFloat later) = true →
  out (checkNavbarPhotos options w)
  = Ok (result false "Effetto progressivo non evidente"
          (Some (DOpacity initial later ""))).
Proof.
  intros Hsel Hload Hnav Hclick Himgs Hinitial Hwait Hlater Htransition Hnan.
  destruct (navbarPhotos_sampled options sel w w1 w2 w3 nav first others initial later ""
              Hsel Hload Hnav Hclick Himgs Hinitial Hwait Hlater Htransition) as [-> _].
  now rewrite (leb_nan _ _ Hnan).
Qed.

(** X5.  When the second navbar item is not found the photo check fails
    without clicking anything: the page stays as the entry guard left it.
    When the item is found and clicked but no photo matches, the check
    fails without sampling or waiting: the page stays as the click left it. *)
Theorem navbarPhotos_nothing_to_sample options sel w w1 :
  selectors (spread DEFAULT_OPTIONS options) = SelObject sel →
  loaded options w w1 →
  (page_query (sel !! "navbarSecondItem") w1 = Ok None →
     yields (checkNavbarPhotos options) w
       {| ok := false; message := Some "Seconda voce navbar non trovata";
          details := None |} w1)
  ∧ (∀ nav w2,
       page_query (sel !! "navbarSecondItem") w1 = Ok (Some nav) →
       el_click nav w1 = (Ok tt, w2) →
       page_queryAll (sel !! "userPhotoImg") w2 = Ok [] →
       yields (checkNavbarPhotos options) w
         {| ok := false; message := Some "Nessuna foto utente trovata";
            details := None |} w2).
Proof.
  intros Hsel Hload. unfold checkNavbarPhotos. cbn zeta. rewrite Hsel. split.
  - intros Hnone.
    yields_by ltac:(exact Hload).
    yields_read Hnone. apply yields_ret.
  - intros nav w2 Hnav Hclick Hnone.
    yields_by ltac:(exact Hload).
    yields_read Hnav.
    yields_act Hclick.
    yields_read Hnone. apply yields_ret.
Qed.

(** *** checkAccessChart *)

(** X6.  The access-chart check on a loaded page: without a chart
    container it fails without details; with one, it counts the bar, day
    and progress elements inside that container only, passes exactly when
    there is at least one, and reports their number in [details.bars]. *)
Theorem accessChart_counts_bars options sel w w1 :
  selectors (spread DEFAULT_OPTIONS options) = SelObject sel →
  loaded options w w1 →
  (page_query (sel !! "accessChart") w1 = Ok None →
     out (checkAccessChart options w)
     = Ok {| ok := false; message := Some "Grafico accessi non trovato";
             details := None |})
  ∧ (∀ chart bars,
       page_query (sel !! "accessChart") w1 = Ok (Some chart) →
       el_queryAll chart (Some CHART_BARS) w1 = Ok bars →
       ∃ r, out (checkAccessChart options w) = Ok r
         ∧ (ok r = true ↔ bars ≠ [])
         ∧ details r = Some (DBars (length bars))).
Proof.
  intros Hsel Hload. unfold checkAccessChart. cbn zeta. rewrite Hsel. split.
  - intros Hnone. await_on_with Hload. await_on_read Hnone. reflexivity.
  - intros chart bars Hchart Hbars. await_on_with Hload. await_on_read Hchart. await_on_read Hbars.
    eexists. split; [reflexivity|]. cbn [ok details result]. split; [|reflexivity].
    destruct bars; cbn; split; congruence.
Qed.

(** *** checkDonateAntiBot *)

(** X7.  The donate check on a loaded page: without a donate section it
    fails without details; with one, it looks for the robot checkbox and
    for the CAPTCHA frame inside that section only, makes both probes
    whatever the first finds, passes exactly when one of them is found, and
    reports in [details] which were found. *)
Theorem donate_antibot_inside_section options sel w w1 :
  selectors (spread DEFAULT_OPTIONS options) = SelObject sel →
  loaded options w w1 →
  (page_query (sel !! "donateSection") w1 = Ok None →
     out (checkDonateAntiBot options w)
     = Ok {| ok := false; message := Some "Sezione donate non trovata";
             details := None |})
  ∧ (∀ donate robotCheckbox captchaFrame,
       page_query (sel !! "donateSection") w1 = Ok (Some donate) →
       el_query donate (Some ROBOT_CHECKBOX) w1 = Ok robotCheckbox →
       el_query donate (Some CAPTCHA_FRAME) w1 = Ok captchaFrame →
       ∃ r, out (checkDonateAntiBot options w) = Ok r
         ∧ (ok r = true ↔ is_Some robotCheckbox ∨ is_Some captchaFrame)
         ∧ details r = Some (DAntiBot (present robotCheckbox) (present captchaFrame))).
Proof.
  intros Hsel Hload. unfold checkDonateAntiBot. cbn zeta. rewrite Hsel. split.
  - intros Hnone. await_on_with Hload. await_on_read Hnone. reflexivity.
  - intros donate robot captcha Hdonate Hrobot Hcaptcha.
    await_on_with Hload. await_on_read Hdonate. await_on_read Hrobot. await_on_read Hcaptcha.
    eexists. split; [reflexivity|]. cbn [ok details result]. split; [|reflexivity].
    rewrite orb_true_iff.
    assert (Hp : ∀ x : option H, present x = true ↔ is_Some x).
    { intros [el|]; cbn; split; try discriminate; eauto. intros [? [=]]. }
    now rewrite !Hp.
Qed.

(** *** checkDocumentationAnchors *)

Lemma anchors_loop_all_resolve anchors w :
  (∀ a, In a anchors → anchor_at w a = Resolves) →
  yields (anchors_loop anchors) w None w.
Proof.
  intros Hall. split; [|apply anchors_loop_world].
  induction anchors as [|a rest IH]; [reflexivity|].
  rewrite anchors_loop_cons, (Hall a (or_introl eq_refl)).
  apply IH. intros b Hb. apply Hall. now right.
Qed.

(** X8.  The documentation check passes when the section has at least
    one internal anchor and every anchor resolves, an anchor without href,
    or whose href does not start with #, counting as resolved;
    [details.anchors] is then the number of anchors collected, these
    included. *)
Theorem documentation_all_resolve options sel w w1 docs anchors :
  selectors (spread DEFAULT_OPTIONS options) = SelObject sel →
  loaded options w w1 →
  page_query (sel !! "documentation") w1 = Ok (Some docs) →
  el_queryAll docs (Some INTERNAL_ANCHORS) w1 = Ok anchors →
  anchors ≠ [] →
  (∀ a, In a anchors → anchor_at w1 a = Resolves) →
  out (checkDocumentationAnchors options w)
  = Ok (result true "Anchors validi nella documentazione"
          (Some (DAnchors (length anchors)))).
Proof.
  intros Hsel Hload Hdocs Hanchors Hne Hall. unfold checkDocumentationAnchors.
  cbn zeta. rewrite Hsel.
  await_on_with Hload. await_on_read Hdocs. await_on_read Hanchors.
  destruct anchors as [|a rest]; [congruence|].
  await_on_with (anchors_loop_all_resolve (a :: rest) w1 Hall). reflexivity.
Qed.
End section_checks.

(** ** More on firstSelectorExists *)

Section selector_helper.
Context {W H : Type} `{!PageDriver W H}.
Implicit Types (w : W) (sels : list string).

(** X9.  [firstSelectorExists] queries the selectors in list order and
    stops at the first that the page does not answer with [null], be it
    with an element or with a fault: the selectors after it are never
    queried.  When every selector is answered [null], each was queried
    once. *)
Theorem firstSelectorExists_stops_at_first_answer sels w :
  (∀ pre s post r,
     sels = pre ++ s :: post →
     (∀ p, In p pre → page_query (Some p) w = Ok None) →
     page_query (Some s) w = r → r ≠ Ok None →
     log (firstSelectorExists sels w)
     = map (λ p, EQuery (Some p) (Ok None)) pre ++ [EQuery (Some s) r])
  ∧ ((∀ s, In s sels → page_query (Some s) w = Ok None) →
     log (firstSelectorExists sels w) = map (λ p, EQuery (Some p) (Ok None)) sels).
Proof.
  split.
  - intros pre s post r -> Hpre Hs Hr. induction pre as [|p pre IH]; cbn [app map].
    + rewrite firstSelectorExists_cons, Hs.
      destruct r as [[el|]|e]; [reflexivity | congruence | reflexivity].
    + rewrite firstSelectorExists_cons, (Hpre p (or_introl eq_refl)). cbn.
      f_equal. apply IH. intros q Hq. apply Hpre. now right.
  - induction sels as [|s rest IH]; intros Hall; [reflexivity|].
    rewrite firstSelectorExists_cons, (Hall s (or_introl eq_refl)). cbn.
    f_equal. apply IH. intros q Hq. apply Hall. now right.
Qed.

(** X10.  Fallback lists compose: on [sels1 ++ sels2] the helper
    returns what it returns on [sels1], unless that is [null], in which
    case it returns what it returns on [sels2].  So appending fallbacks
    never changes a selector that was found. *)
Theorem firstSelectorExists_app sels1 sels2 w :
  out (firstSelectorExists (sels1 ++ sels2) w)
  = match out (firstSelectorExists sels1 w) with
    | Ok None => out (firstSelectorExists sels2 w)
    | answer => answer
    end
  ∧ (∀ s, out (firstSelectorExists sels1 w) = Ok (Some s) →
       out (firstSelectorExists (sels1 ++ sels2) w) = Ok (Some s)).
Proof.
  assert (Happ : out (firstSelectorExists (sels1 ++ sels2) w)
                 = match out (firstSelectorExists sels1 w) with
                   | Ok None => out (firstSelectorExists sels2 w)
                   | answer => answer
                   end).
  { induction sels1 as [|s rest IH]; [reflexivity|]. cbn [app].
    rewrite !firstSelectorExists_cons.
    destruct (page_query (Some s) w) as [[el|]|e]; cbn; auto. }
  split; [exact Happ|]. intros s Hs. now rewrite Happ, Hs.
Qed.
End selector_helper.

(** ** The entry guard, again *)

Section guard_twice.
Context {W H : Type} `{!PageDriver W H}.

(** X11.  The entry guard is idempotent on a driver whose successful
    [goto] leaves a location that is not blank: run twice in a row it
    ends with the same outcome and in the same page state as run once, and
    navigates no more than run once. *)
Theorem ensurePage_twice (u : string) (w : W) :
  (∀ w', page_goto u w = (Ok tt, w') → blank (page_url w') = false) →
  let once := ensurePage u w in
  let twice := (ensurePage u ;;; ensurePage u) w in
  out twice = out once ∧ world twice = world once
  ∧ navigations (log twice) = navigations (log once).
Proof.
  intros Hgoto once twice. unfold once, twice, bind.
  destruct (blank (page_url w)) eqn:Hb.
  - rewrite (ensurePage_blank u w Hb). cbn [out world log].
    destruct (page_goto u w) as [[[]|e] w'] eqn:Hg; cbn [fst snd]; [|auto].
    rewrite (ensurePage_loaded u w' (Hgoto w' eq_refl)). cbn. auto.
  - rewrite (ensurePage_loaded u w Hb). cbn [out world log].
    rewrite (ensurePage_loaded u w Hb). cbn. auto.
Qed.
End guard_twice.

(** ** What the checks do to the page *)

Section events.
Context {W H : Type} `{!PageDriver W H} `{!JsRuntime}.
Context (Q : event H → Prop).

Lemma all_events_ret {A} (a : A) : all_events Q (ret (W:=W) a).
Proof. intros w. constructor. Qed.

Lemma all_events_prop sel key : all_events Q (prop (W:=W) sel key).
Proof. intros w. destruct sel; constructor. Qed.

Lemma all_events_bind_ret {A B} (a : A) (k : A → Act W H B) :
  all_events Q (k a) → all_events Q (bind (ret a) k).
Proof. intros Hk w. rewrite bind_ret_l. apply Hk. Qed.

Lemma all_events_bind_throw {A B} e (k : A → Act W H B) :
  all_events Q (bind (throw e) k).
Proof. intros w. constructor. Qed.

Lemma all_events_bind {A B} (m : Act W H A) (k : A → Act W H B) :
  all_events Q m → (∀ a, all_events Q (k a)) → all_events Q (bind m k).
Proof.
  intros Hm Hk w. specialize (Hm w). unfold bind.
  destruct (out (m w)) as [a|e]; cbn; [|exact Hm].
  apply Forall_app. split; [exact Hm | apply Hk].
Qed.

Lemma all_events_reading {A} (f : W → outcome A) (ev : outcome A → event H) :
  (∀ r, Q (ev r)) → all_events Q (reading f ev).
Proof. intros Hev w. repeat constructor. apply Hev. Qed.

Lemma all_events_acting (f : W → outcome unit * W) (ev : outcome unit → event H) :
  (∀ r, Q (ev r)) → all_events Q (acting f ev).
Proof. intros Hev w. repeat constructor. apply Hev. Qed.

Lemma all_events_url : (∀ current, Q (EUrl current)) → all_events Q (page.url (W:=W)).
Proof. intros Hev w. repeat constructor. apply Hev. Qed.

Lemma all_events_viewportSize :
  (∀ size, Q (EViewportSize size)) → all_events Q (page.viewportSize (W:=W)).
Proof. intros Hev w. repeat constructor. apply Hev. Qed.
End events.

(** Walk down an action, leaving one goal per kind of call it makes. *)
Ltac events_walk :=
  repeat match goal with
  | |- all_events _ (bind (ret _) _) => apply all_events_bind_ret
  | |- all_events _ (bind (throw _) _) => apply all_events_bind_throw
  | |- all_events _ (bind _ _) => apply all_events_bind; [|intros ?]
  | |- all_events _ (ret _) => apply all_events_ret
  | |- all_events _ (prop _ _) => apply all_events_prop
  | |- all_events _ (match ?x with _ => _ end) => destruct x
  | |- all_events _ page.url => apply all_events_url; intros ?
  | |- all_events _ page.viewportSize => apply all_events_viewportSize; intros ?
  | |- all_events _ (page.goto _) => apply all_events_acting; intros ?
  | |- all_events _ (page.waitForTimeout _) => apply all_events_acting; intros ?
  | |- all_events _ (el.click _) => apply all_events_acting; intros ?
  | |- all_events _ (page.query _) => apply all_events_reading; intros ?
  | |- all_events _ (page.queryAll _) => apply all_events_reading; intros ?
  | |- all_events _ (el.query _ _) => apply all_events_reading; intros ?
  | |- all_events _ (el.queryAll _ _) => apply all_events_reading; intros ?
  | |- all_events _ (el.boundingBox _) => apply all_events_reading; intros ?
  | |- all_events _ (el.evaluate _ _) => apply all_events_reading; intros ?
  | |- all_events _ (el.getAttribute _ _) => apply all_events_reading; intros ?
  | |- all_events _ (ensurePage _) => unfold ensurePage
  end.

Section stillness.
Context {W H : Type} `{!PageDriver W H} `{!JsRuntime}.

Lemma still_ret {A} (a : A) : still (ret (W:=W) (H:=H) a).
Proof. intros w. reflexivity. Qed.

Lemma still_prop sel key : still (prop (W:=W) (H:=H) sel key).
Proof. intros w. now destruct sel. Qed.

Lemma still_bind {A B} (m : Act W H A) (k : A → Act W H B) :
  still m → (∀ a, still (k a)) → still (bind m k).
Proof.
  intros Hm Hk w. unfold bind. specialize (Hm w).
  destruct (out (m w)) as [a|e]; cbn; [|exact Hm].
  now rewrite Hk.
Qed.

Lemma still_reading {A} (f : W → outcome A) (ev : outcome A → event H) :
  still (reading f ev).
Proof. intros w. reflexivity. Qed.

(** After the entry guard, an action that leaves the page alone. *)
Lemma world_entry_then_still {A} u (body : Act W H A) (w : W) :
  still body → world ((ensurePage u ;;; body) w) = world (ensurePage u w).
Proof.
  intros Hbody. unfold bind. destruct (out (ensurePage u w)); cbn; [apply Hbody | reflexivity].
Qed.
End stillness.

Ltac still_walk :=
  repeat match goal with
  | |- still (bind _ _) => apply still_bind; [|intros ?]
  | |- still (ret _) => apply still_ret
  | |- still (prop _ _) => apply still_prop
  | |- still (match ?x with _ => _ end) => destruct x
  | |- still (page.query _) => apply still_reading
  | |- still (page.queryAll _) => apply still_reading
  | |- still (el.query _ _) => apply still_reading
  | |- still (el.queryAll _ _) => apply still_reading
  | |- still (el.getAttribute _ _) => apply still_reading
  | |- still _ => solve [auto]
  end.

Section read_only_checks.
Context {W H : Type} `{!PageDriver W H} `{!JsRuntime}.

Lemma still_userCards_loop sel i cards : still (userCards_loop (W:=W) (H:=H) sel i cards).
Proof. revert i. induction cards; intros i; cbn [userCards_loop]; still_walk. Qed.

Lemma still_readableInfo_loop i cards : still (readableInfo_loop (W:=W) (H:=H) i cards).
Proof. revert i. induction cards; intros i; cbn [readableInfo_loop]; still_walk. Qed.

Lemma still_anchors_loop anchors : still (anchors_loop (W:=W) (H:=H) anchors).
Proof. induction anchors; cbn [anchors_loop]; still_walk. Qed.

Lemma no_interaction_userCards_loop sel i cards :
  all_events (λ ev, is_interaction ev = false) (userCards_loop (W:=W) (H:=H) sel i cards).
Proof.
  revert i. induction cards; intros i; cbn [userCards_loop]; events_walk;
    solve [reflexivity | auto].
Qed.

Lemma no_interaction_readableInfo_loop i cards :
  all_events (λ ev, is_interaction ev = false) (readableInfo_loop (W:=W) (H:=H) i cards).
Proof.
  revert i. induction cards; intros i; cbn [readableInfo_loop]; events_walk;
    solve [reflexivity | auto].
Qed.

Lemma no_interaction_anchors_loop anchors :
  all_events (λ ev, is_interaction ev = false) (anchors_loop (W:=W) (H:=H) anchors).
Proof.
  induction anchors; cbn [anchors_loop]; events_walk; solve [reflexivity | auto].
Qed.

Lemma read_only_no_interaction (c : CheckName) (options : Options) :
  read_only c = true →
  all_events (λ ev, is_interaction ev = false) (run_check (W:=W) (H:=H) c options).
Proof.
  intros Hc.
  destruct c; try discriminate; cbn [run_check]; unfold_checks; events_walk;
    try reflexivity;
    auto using no_interaction_userCards_loop, no_interaction_readableInfo_loop,
      no_interaction_anchors_loop.
Qed.

(** X12.  Seven of the nine checks only look at the page: apart from
    the navigation of the entry guard they leave the page state as it is,
    and their history holds no click and no wait, whatever the page answers
    and whether they resolve or reject.  (The refresh and the photo check
    are the two that click.) *)
Theorem read_only_checks_leave_page (c : CheckName) (options : Options) (w : W) :
  read_only c = true →
  world (run_check c options w)
  = world (ensurePage (url (spread DEFAULT_OPTIONS options)) w)
  ∧ Forall (λ ev, is_interaction ev = false) (log (run_check c options w)).
Proof.
  intros Hc. split.
  - destruct c; try discriminate; cbn [run_check]; unfold_checks;
      apply world_entry_then_still; still_walk;
      auto using still_userCards_loop, still_readableInfo_loop, still_anchors_loop.
  - now apply read_only_no_interaction.
Qed.
End read_only_checks.

Section runs.
Context {W H : Type} `{!PageDriver W H} `{!JsRuntime}.

Lemma every_run_ret {A} (a : A) (Q : outcome A → list (event H) → Prop) :
  Q (Ok a) [] → every_run (ret (W:=W) a) Q.
Proof. intros HQ w. exact HQ. Qed.

Lemma every_run_prop sel key (Q : outcome selector → list (event H) → Prop) :
  (∀ what, nullish sel = Some what → Q (Fault (cannot_read what key)) []) →
  (∀ props, sel = SelObject props → Q (Ok (props !! key)) []) →
  every_run (prop (W:=W) sel key) Q.
Proof. intros Hnull Hobject w. destruct sel; cbn; auto. Qed.

Lemma every_run_bind {A B} (m : Act W H A) (k : A → Act W H B) Q :
  every_run m (λ o tr1,
    match o with
    | Ok a => every_run (k a) (λ o2 tr2, Q o2 (tr1 ++ tr2))
    | Fault e => Q (Fault e) tr1
    end) →
  every_run (bind m k) Q.
Proof.
  intros Hm w. specialize (Hm w). unfold bind.
  destruct (out (m w)) as [a|e]; cbn; [|exact Hm].
  exact (Hm (world (m w))).
Qed.

Lemma every_run_reading {A} (f : W → outcome A) (ev : outcome A → event H) Q :
  (∀ r, Q r [ev r]) → every_run (reading f ev) Q.
Proof. intros HQ w. apply HQ. Qed.

Lemma every_run_acting (f : W → outcome unit * W) (ev : outcome unit → event H) Q :
  (∀ r, Q r [ev r]) → every_run (acting f ev) Q.
Proof. intros HQ w. apply HQ. Qed.

Lemma every_run_viewportSize Q :
  (∀ size, Q (Ok size) [EViewportSize size]) →
  every_run (page.viewportSize (W:=W) (H:=H)) Q.
Proof. intros HQ w. apply HQ. Qed.

Lemma every_run_ensurePage u (Q : outcome unit → list (event H) → Prop) :
  (∀ current, Q (Ok tt) [EUrl current]) →
  (∀ current r, Q r [EUrl current; EGoto u r]) →
  every_run (ensurePage (W:=W) u) Q.
Proof.
  intros Hloaded Hblank w. destruct (blank (page_url w)) eqn:Hb.
  - rewrite (ensurePage_blank u w Hb). apply Hblank.
  - rewrite (ensurePage_loaded u w Hb). apply Hloaded.
Qed.
End runs.

(** Walk down an action along every path, rejected ones included. *)
Ltac runs_walk :=
  repeat match goal with
  | |- every_run (bind _ _) _ => apply every_run_bind
  | |- every_run (ret _) _ => apply every_run_ret
  | |- every_run (prop _ _) _ => apply every_run_prop; [intros ? _ | intros ? _]
  | |- every_run (ensurePage _) _ => apply every_run_ensurePage; [intros ? | intros ? [[]|?]]
  | |- every_run (page.query _) _ => apply every_run_reading; intros [?|?]
  | |- every_run (page.queryAll _) _ => apply every_run_reading; intros [?|?]
  | |- every_run (el.boundingBox _) _ => apply every_run_reading; intros [?|?]
  | |- every_run (el.evaluate _ _) _ => apply every_run_reading; intros [?|?]
  | |- every_run (el.click _) _ => apply every_run_acting; intros [[]|?]
  | |- every_run (page.waitForTimeout _) _ => apply every_run_acting; intros [[]|?]
  | |- every_run page.viewportSize _ => apply every_run_viewportSize; intros ?
  | |- every_run (match ?x with _ => _ end) _ => destruct x
  end.

Section clicks.
Context {W H : Type} `{!PageDriver W H} `{!JsRuntime}.

Lemma clicks_found_of_none (tr : list (event H)) :
  Forall (λ ev, is_interaction ev = false) tr → clicks_found tr ∧ length (List.filter is_click tr) = 0.
Proof.
  intros Hnone. split.
  - intros h r Hin. rewrite Forall_forall in Hnone.
    apply list_elem_of_In, Hnone in Hin. discriminate.
  - induction Hnone as [|ev tr Hev _ IH]; [reflexivity|]. cbn.
    destruct ev; try discriminate; exact IH.
Qed.

(** X13.  A check clicks only what it found, and at most once: in the
    history of every check, resolved or rejected, each click is on an
    element handle that a page-level probe of the same history returned,
    and there is at most one click. *)
Theorem checks_click_what_they_found (c : CheckName) (options : Options) (w : W) :
  clicks_found (log (run_check c options w))
  ∧ length (List.filter is_click (log (run_check c options w))) ≤ 1.
Proof.
  destruct (read_only c) eqn:Hc.
  - pose proof (read_only_no_interaction c options Hc w) as Hnone.
    apply clicks_found_of_none in Hnone as [Hfound ->]. split; [exact Hfound | lia].
  - revert w.
    change (every_run (run_check c options)
              (λ _ tr, clicks_found tr ∧ length (List.filter is_click tr) ≤ 1)).
    destruct c; try discriminate; cbn [run_check]; unfold_checks; runs_walk.
    all: cbn [app List.filter is_click length]; split; [|lia].
    all: intros h' r' Hin; which_event Hin; try discriminate.
    all: injection Hin as <- <-; eexists; cbn; eauto 10.
Qed.
End clicks.

(** ** Selectors handed to the driver *)

Section defined_selectors.
Context {W H : Type} `{!PageDriver W H} `{!JsRuntime}.




End defined_selectors.

(** ** Verdicts and messages *)

Section messages.
Context {W H : Type} `{!PageDriver W H} `{!JsRuntime}.

Lemma userCards_loop_early sel i cards :
  has_post (userCards_loop (W:=W) (H:=H) sel i cards) (λ early _, early_failure "Card " early).
Proof.
  revert i. induction cards as [|card rest IH]; intros i; cbn [userCards_loop].
  - apply has_post_ret. intros r [=].
  - post_walk.
    + intros r [= <-]. split; [reflexivity|]. eexists. reflexivity.
    + eapply has_post_conseq; [apply IH|]. auto.
Qed.

Lemma readableInfo_loop_early i cards :
  has_post (readableInfo_loop (W:=W) (H:=H) i cards) (λ early _, early_failure "Card " early).
Proof.
  revert i. induction cards as [|card rest IH]; intros i; cbn [readableInfo_loop].
  - apply has_post_ret. intros r [=].
  - post_walk.
    + intros r [= <-]. split; [reflexivity|]. eexists. reflexivity.
    + eapply has_post_conseq; [apply IH|]. auto.
Qed.

Lemma anchors_loop_early anchors :
  has_post (anchors_loop (W:=W) (H:=H) anchors) (λ early _, early_failure "Anchor " early).
Proof.
  induction anchors as [|a rest IH]; cbn [anchors_loop].
  - apply has_post_ret. intros r [=].
  - post_walk.
    all: try (eapply has_post_conseq; [apply IH|]; auto).
    intros r [= <-]. split; [reflexivity|]. eexists. reflexivity.
Qed.

Lemma verdict_post (c : CheckName) (options : Options) :
  has_post (run_check (W:=W) (H:=H) c options)
    (λ r _, is_Some (message r) ∧ (ok r = true ↔ message r = Some (success_message c))).
Proof.
  destruct c; cbn [run_check success_message]; unfold_checks;
    repeat (post_walk;
      try match goal with
      | |- has_post (userCards_loop _ _ _) _ =>
          eapply has_post_conseq; [apply userCards_loop_early | intros [?|] ? Hearly; cbn beta iota]
      | |- has_post (readableInfo_loop _ _) _ =>
          eapply has_post_conseq; [apply readableInfo_loop_early | intros [?|] ? Hearly; cbn beta iota]
      | |- has_post (anchors_loop _) _ =>
          eapply has_post_conseq; [apply anchors_loop_early | intros [?|] ? Hearly; cbn beta iota]
      end).
  all: try match goal with
           | Hearly : early_failure _ (Some ?r) |- _ =>
               destruct (Hearly r eq_refl) as (Hok & tail & Hmsg);
               rewrite Hok, Hmsg; split; [eauto|]; split; discriminate
           end.
  all: cbn [message ok result].
  all: repeat match goal with
              | |- context [if ?b then _ else _] => destruct b eqn:?
              end.
  all: split; [eauto|]; split; solve [reflexivity | discriminate | congruence].
Qed.

(** X15.  The message never contradicts the verdict: every result a
    check returns carries a message, and its [ok] is true exactly when that
    message is the check's own success message. *)
Theorem verdict_matches_message (c : CheckName) (options : Options) (w : W) r :
  out (run_check c options w) = Ok r →
  is_Some (message r) ∧ (ok r = true ↔ message r = Some (success_message c)).
Proof.
  intros Hout. pose proof (verdict_post c options w) as Hpost.
  now rewrite Hout in Hpost.
Qed.
End messages.

(** ** Navigating once *)

Section settled_facts.
Context {W H : Type} `{!PageDriver W H} `{!JsRuntime}.
Context (Hstay : location_stays_set (W:=W) (H:=H)).

Lemma settled_ret {A} (a : A) : settled (ret (W:=W) (H:=H) a).
Proof. intros w Hw. now split. Qed.

Lemma settled_prop sel key : settled (prop (W:=W) (H:=H) sel key).
Proof. intros w Hw. now destruct sel. Qed.

Lemma settled_bind {A B} (m : Act W H A) (k : A → Act W H B) :
  settled m → (∀ a, settled (k a)) → settled (bind m k).
Proof.
  intros Hm Hk w Hw. destruct (Hm w Hw) as [Hw1 Hq1]. unfold bind.
  destruct (out (m w)) as [a|e]; cbn; [|now split].
  destruct (Hk a _ Hw1) as [Hw2 Hq2]. split; [exact Hw2|].
  unfold navigations in *. now rewrite omap_app, Hq1, Hq2.
Qed.

Lemma settled_reading {A} (f : W → outcome A) (ev : outcome A → event H) :
  (∀ r, is_goto (ev r) = false) → settled (reading f ev).
Proof.
  intros Hev w Hw. split; [exact Hw|]. cbn. specialize (Hev (f w)).
  destruct (ev (f w)); try reflexivity. discriminate.
Qed.

Lemma settled_viewportSize : settled (page.viewportSize (W:=W) (H:=H)).
Proof. intros w Hw. now split. Qed.

Lemma settled_click h : settled (el.click (W:=W) h).
Proof. intros w Hw. split; [now apply Hstay | reflexivity]. Qed.

Lemma settled_waitForTimeout ms : settled (page.waitForTimeout (W:=W) (H:=H) ms).
Proof. intros w Hw. split; [now apply Hstay | reflexivity]. Qed.

Lemma settled_ensurePage u : settled (ensurePage (W:=W) (H:=H) u).
Proof. intros w Hw. rewrite (ensurePage_loaded u w Hw). now split. Qed.
End settled_facts.

Ltac settled_walk Hstay :=
  repeat match goal with
  | |- settled (bind _ _) => apply settled_bind; [|intros ?]
  | |- settled (ret _) => apply settled_ret
  | |- settled (prop _ _) => apply settled_prop
  | |- settled (match ?x with _ => _ end) => destruct x
  | |- settled (ensurePage _) => apply settled_ensurePage
  | |- settled (el.click _) => apply (settled_click Hstay)
  | |- settled (page.waitForTimeout _) => apply (settled_waitForTimeout Hstay)
  | |- settled page.viewportSize => apply settled_viewportSize
  | |- settled (page.query _) => apply settled_reading; reflexivity
  | |- settled (page.queryAll _) => apply settled_reading; reflexivity
  | |- settled (el.query _ _) => apply settled_reading; reflexivity
  | |- settled (el.queryAll _ _) => apply settled_reading; reflexivity
  | |- settled (el.boundingBox _) => apply settled_reading; reflexivity
  | |- settled (el.evaluate _ _) => apply settled_reading; reflexivity
  | |- settled (el.getAttribute _ _) => apply settled_reading; reflexivity
  | |- settled _ => solve [auto]
  end.

Section navigate_once.
Context {W H : Type} `{!PageDriver W H} `{!JsRuntime}.
Context (Hstay : location_stays_set (W:=W) (H:=H)).
Implicit Types (w : W) (options : Options).

Lemma settled_userCards_loop sel i cards : settled (userCards_loop (W:=W) (H:=H) sel i cards).
Proof. revert i. induction cards; intros i; cbn [userCards_loop]; settled_walk Hstay. Qed.

Lemma settled_readableInfo_loop i cards : settled (readableInfo_loop (W:=W) (H:=H) i cards).
Proof. revert i. induction cards; intros i; cbn [readableInfo_loop]; settled_walk Hstay. Qed.

Lemma settled_anchors_loop anchors : settled (anchors_loop (W:=W) (H:=H) anchors).
Proof. induction anchors; cbn [anchors_loop]; settled_walk Hstay. Qed.

Lemma settled_run_check c options : settled (run_check (W:=W) (H:=H) c options).
Proof.
  destruct c; cbn [run_check]; unfold_checks; settled_walk Hstay;
    auto using settled_userCards_loop, settled_readableInfo_loop, settled_anchors_loop.
Qed.

Lemma settled_run_in_order cs options : settled (run_in_order (W:=W) (H:=H) cs options).
Proof.
  induction cs; cbn [run_in_order]; settled_walk Hstay. apply settled_run_check.
Qed.

(** From a blank page: one navigation by the guard, none by what follows. *)
Lemma entry_blank {A} u (body : Act W H A) w :
  (∀ w', page_goto u w = (Ok tt, w') → blank (page_url w') = false) →
  settled body →
  blank (page_url w) = true →
  navigations (log ((ensurePage u ;;; body) w)) = [u]
  ∧ (∀ a, out ((ensurePage u ;;; body) w) = Ok a →
       blank (page_url (world ((ensurePage u ;;; body) w))) = false).
Proof.
  intros Hgoto Hbody Hb. unfold bind. rewrite (ensurePage_blank u w Hb). cbn [out world log].
  destruct (page_goto u w) as [[[]|e] w'] eqn:Hg; cbn [fst snd out world log].
  - destruct (Hbody w' (Hgoto w' eq_refl)) as [Hw' Hq]. split; [|auto].
    unfold navigations in *. rewrite omap_app, Hq. reflexivity.
  - split; [reflexivity | discriminate].
Qed.

Lemma run_check_from_blank c options w :
  let u := url (spread DEFAULT_OPTIONS options) in
  (∀ w', page_goto u w = (Ok tt, w') → blank (page_url w') = false) →
  blank (page_url w) = true →
  navigations (log (run_check c options w)) = [u]
  ∧ (∀ r, out (run_check c options w) = Ok r →
       blank (page_url (world (run_check c options w))) = false).
Proof.
  intros u Hgoto Hb.
  destruct c; cbn [run_check]; unfold_checks; apply entry_blank; auto;
    settled_walk Hstay;
    auto using settled_userCards_loop, settled_readableInfo_loop, settled_anchors_loop.
Qed.

(** After a first action that navigated once from a blank page. *)
Lemma once_then_settled {A B} u (first : Act W H A) (rest : A → Act W H B) w :
  navigations (log (first w)) = [u] →
  (∀ a, out (first w) = Ok a → blank (page_url (world (first w))) = false) →
  (∀ a, settled (rest a)) →
  navigations (log (bind first rest w)) = [u].
Proof.
  intros Hnav Hset Hrest. unfold bind.
  destruct (out (first w)) as [a|e] eqn:Hout; cbn [out world log]; [|exact Hnav].
  destruct (Hrest a _ (Hset a eq_refl)) as [_ Hq].
  unfold navigations in *. now rewrite omap_app, Hnav, Hq.
Qed.

Lemma settled_runAll options : settled (runAll (W:=W) (H:=H) options).
Proof.
  unfold runAll.
  repeat (apply settled_bind;
          [ apply (settled_run_check UserCards) || apply (settled_run_check RefreshCenter)
            || apply (settled_run_check ReadableInfo)
            || apply (settled_run_check AdvancedSearch)
            || apply (settled_run_check NavbarPhotos)
            || apply (settled_run_check Documentation)
            || apply (settled_run_check VersionsNav)
            || apply (settled_run_check AccessChart)
            || apply (settled_run_check Donate)
          | intros ?]).
  apply settled_ret.
Qed.

(** X16.  On a driver that keeps a location once it is set (clicks and
    waits do not blank it, and a successful [goto] to the configured URL
    leaves a location that is not blank), the whole battery navigates at
    most once: [runAll], and any non-empty sequence of checks such as the
    same check twice in a row, calls [goto] once when the page is blank on
    entry and never otherwise. *)
Theorem battery_navigates_at_most_once options w :
  let u := url (spread DEFAULT_OPTIONS options) in
  (∀ w0 w', page_goto u w0 = (Ok tt, w') → blank (page_url w') = false) →
  navigations (log (runAll options w)) = (if blank (page_url w) then [u] else [])
  ∧ (∀ c cs, navigations (log (run_in_order (c :: cs) options w))
             = (if blank (page_url w) then [u] else [])).
Proof.
  intros u Hgoto. destruct (blank (page_url w)) eqn:Hb.
  - destruct (run_check_from_blank UserCards options w (Hgoto w) Hb) as [Hnav Hset].
    split.
    + unfold runAll. apply once_then_settled; [exact Hnav | exact Hset |].
      intros r1.
      repeat (apply settled_bind;
              [ apply (settled_run_check RefreshCenter)
                || apply (settled_run_check ReadableInfo)
                || apply (settled_run_check AdvancedSearch)
                || apply (settled_run_check NavbarPhotos)
                || apply (settled_run_check Documentation)
                || apply (settled_run_check VersionsNav)
                || apply (settled_run_check AccessChart)
                || apply (settled_run_check Donate)
              | intros ?]).
      apply settled_ret.
    + intros c cs. cbn [run_in_order].
      destruct (run_check_from_blank c options w (Hgoto w) Hb) as [Hnavc Hsetc].
      apply once_then_settled; [exact Hnavc | exact Hsetc |].
      intros r. apply settled_bind; [apply settled_run_in_order | intros ?; apply settled_ret].
  - split.
    + apply settled_runAll, Hb.
    + intros c cs. apply settled_run_in_order, Hb.
Qed.
End navigate_once.

(** ** The battery as a fold *)

Section fold.
Context {W H : Type} `{!PageDriver W H} `{!JsRuntime}.
Implicit Types (w : W) (options : Options).

Lemma bind_assoc {A B C} (m : Act W H A) (k : A → Act W H B) (k' : B → Act W H C) w :
  bind (bind m k) k' w = bind m (λ a, bind (k a) k') w.
Proof.
  unfold bind. destruct (out (m w)) as [a|e]; cbn; [|reflexivity].
  destruct (out (k a (world (m w)))) as [b|e]; cbn; [|reflexivity].
  now rewrite app_assoc.
Qed.

Lemma bind_ext {A B} (m : Act W H A) (k k' : A → Act W H B) w :
  (∀ a w', k a w' = k' a w') → bind m k w = bind m k' w.
Proof. intros Hk. unfold bind. destruct (out (m w)); [now rewrite Hk | reflexivity]. Qed.

Lemma run_in_order_cons {B} c cs options (k : list (string * CheckResult) → Act W H B) w :
  bind (run_in_order (c :: cs) options) k w
  = bind (run_check c options)
      (λ r, bind (run_in_order cs options) (λ results, k ((check_key c, r) :: results))) w.
Proof.
  cbn [run_in_order]. rewrite bind_assoc. apply bind_ext. intros r w1.
  rewrite bind_assoc. apply bind_ext. intros results w2. apply bind_ret_l.
Qed.

Lemma runAll_as_fold options w :
  runAll options w
  = (results <- run_in_order all_checks options ;;
     ret {| overall_ok := every_ok results; report_details := results |}) w.
Proof.
  unfold runAll, all_checks. symmetry.
  do 9 (rewrite run_in_order_cons; cbn [run_check check_key]; apply bind_ext; intros ? ?).
  cbn [run_in_order]. rewrite bind_ret_l. reflexivity.
Qed.

(** X17.  [runAll] is the fold of the nine checks in their fixed order
    (card presence, refresh, readability, advanced search, photos,
    documentation, versions, chart, donate), each result stored under its
    key: it has the outcome, the final page state and the history of that
    fold, so each check starts on the page as the one before left it. *)
Theorem runAll_is_ordered_battery options w :
  runAll options w
  = (results <- run_in_order all_checks options ;;
     ret {| overall_ok := every_ok results; report_details := results |}) w
  ∧ map check_key all_checks
    = ["userCards"; "refreshCenter"; "readableInfo"; "advancedSearch"; "navbarPhotos";
       "documentation"; "versionsNav"; "accessChart"; "donate"].
Proof. split; [apply runAll_as_fold | reflexivity]. Qed.

Lemma run_in_order_fault pre c post options w results wk e :
  yields (run_in_order pre options) w results wk →
  out (run_check c options wk) = Fault e →
  run_in_order (pre ++ c :: post) options w
  = MkRun (Fault e) (world (run_check c options wk))
      (log (run_in_order pre options w) ++ log (run_check c options wk)).
Proof.
  revert w results. induction pre as [|p pre IH]; intros w results [Hout Hworld] Hfault.
  - cbn in Hworld. subst wk. cbn [app run_in_order].
    now rewrite (bind_Fault _ _ _ _ Hfault).
  - cbn [app run_in_order] in *.
    apply bind_Ok_inv in Hout as (r & Hr & Hrest).
    rewrite (bind_Ok _ _ _ _ Hr) in Hworld. cbn [world] in Hworld.
    apply bind_Ok_inv in Hrest as (rs & Hrs & _).
    rewrite (bind_Ok _ _ _ _ Hrs) in Hworld. cbn [world ret] in Hworld.
    pose proof (IH _ rs (conj Hrs Hworld) Hfault) as Hrun.
    assert (Hf : out (run_in_order (pre ++ c :: post) options
                        (world (run_check p options w))) = Fault e)
      by now rewrite Hrun.
    rewrite !(bind_Ok _ _ _ _ Hr). cbn [out world log].
    rewrite (bind_Fault _ _ _ _ Hf), (bind_Ok _ _ _ _ Hrs), Hrun.
    cbn [out world log ret]. now rewrite app_nil_r, app_assoc.
Qed.

(** X18.  [runAll] stops at the first check that rejects: when the
    checks before it resolved and it rejects with [e], [runAll] rejects
    with [e], gives no report, leaves the page where that check left it,
    and its history ends with that check's history: the checks after it
    make no driver call. *)
Theorem runAll_stops_at_first_fault options w pre c post results wk e :
  all_checks = pre ++ c :: post →
  yields (run_in_order pre options) w results wk →
  out (run_check c options wk) = Fault e →
  runAll options w
  = MkRun (Fault e) (world (run_check c options wk))
      (log (run_in_order pre options w) ++ log (run_check c options wk)).
Proof.
  intros Hsplit Hpre Hfault. rewrite runAll_as_fold, Hsplit.
  pose proof (run_in_order_fault pre c post options w results wk e Hpre Hfault) as Hrun.
  rewrite (bind_Fault _ _ w e); rewrite Hrun; reflexivity.
Qed.
End fold.

(** ** The login tests *)

Section test_monad.
Context {W : Type}.

Lemma test_run_eta {A} (r : TestRun W A) :
  MkTestRun (verdict r) (page_after r) (console r) = r.
Proof. now destruct r. Qed.

Lemma test_bind_gives {A B} (m : Test W A) (k : A → Test W B) w a w1 lines :
  gives m w a w1 lines →
  test.bind m k w
  = MkTestRun (verdict (k a w1)) (page_after (k a w1)) (lines ++ console (k a w1)).
Proof. unfold gives, test.bind. intros ->. reflexivity. Qed.

Lemma test_bind_quiet {A B} (m : Test W A) (k : A → Test W B) w a w1 :
  gives m w a w1 [] → test.bind m k w = k a w1.
Proof. intros Hm. rewrite (test_bind_gives _ _ _ _ _ _ Hm). apply test_run_eta. Qed.

Lemma lift_gives {H A} (m : Act W H A) w a :
  out (m w) = Ok a → gives (test.lift m) w a (world (m w)) [].
Proof. intros Hm. unfold gives, test.lift. now rewrite Hm. Qed.

Lemma call_gives {A} (f : W → outcome A * W) w a w1 :
  f w = (Ok a, w1) → gives (test.call f) w a w1 [].
Proof. intros Hf. unfold gives, test.call. now rewrite Hf. Qed.
End test_monad.

Section waits.
Context {W H : Type} `{!PageDriver W H} `{!FormDriver W H} `{!TestRunner}.
Implicit Types (w : W).

(** One turn of the loop over the indicators. *)
Lemma any_appears_cons s rest w :
  taiko.any_appears (s :: rest) w =
    match page_waitForSelector s 3000 w with
    | (Ok _, w1) => MkTestRun (Ok true) w1 []
    | (Fault _, w1) => taiko.any_appears rest w1
    end.
Proof.
  cbn [taiko.any_appears]. unfold test.bind, test.attempt, test.call. cbn.
  destruct (page_waitForSelector s 3000 w) as [[el|e] w1]; cbn; [reflexivity|].
  apply test_run_eta.
Qed.

Lemma any_appears_resolves indicators w :
  ∃ b w2, taiko.any_appears indicators w = MkTestRun (Ok b) w2 [].
Proof.
  revert w. induction indicators as [|s rest IH]; intros w; [now exists false, w|].
  rewrite any_appears_cons.
  destruct (page_waitForSelector s 3000 w) as [[el|e] w1]; [now exists true, w1 | apply IH].
Qed.

Lemma any_appears_false indicators w w2 :
  taiko.any_appears indicators w = MkTestRun (Ok false) w2 []
  ↔ taiko.timed_out indicators w w2.
Proof.
  revert w. induction indicators as [|s rest IH]; intros w.
  - cbn. split; [intros [= <-]; constructor | intros Hto; inversion Hto; reflexivity].
  - rewrite any_appears_cons. split.
    + destruct (page_waitForSelector s 3000 w) as [[el|e] w1] eqn:Hw; [discriminate|].
      intros Hrest%IH. econstructor; eassumption.
    + intros Hto. inversion Hto as [|? ? ? w1 ? e Hw Hrest]; subst.
      rewrite Hw. now apply IH.
Qed.

Lemma any_appears_true indicators w w2 :
  taiko.any_appears indicators w = MkTestRun (Ok true) w2 []
  ↔ ∃ pre s post w1 el,
      indicators = pre ++ s :: post ∧ taiko.timed_out pre w w1
      ∧ page_waitForSelector s 3000 w1 = (Ok el, w2).
Proof.
  revert w. induction indicators as [|s rest IH]; intros w.
  - cbn. split; [discriminate|]. intros (pre & ? & ? & ? & ? & Heq & _). now destruct pre.
  - rewrite any_appears_cons. split.
    + destruct (page_waitForSelector s 3000 w) as [[el|e] w1] eqn:Hw.
      * intros [= <-]. exists [], s, rest, w, el. split; [reflexivity|].
        split; [constructor | exact Hw].
      * intros (pre & s' & post & w1' & el & -> & Hpre & Hs)%IH.
        exists (s :: pre), s', post, w1', el. split; [reflexivity|].
        split; [econstructor; eassumption | exact Hs].
    + intros ([|p pre] & s' & post & w1' & el & Heq & Hpre & Hs); injection Heq as Hhd Htl.
      * subst s' post. inversion Hpre; subst. now rewrite Hs.
      * subst p rest. inversion Hpre as [|? ? ? w1 ? e Hw Hrest]; subst.
        rewrite Hw. apply IH. eauto 10.
Qed.

(** X19.  The loop that waits for one of several indicators swallows
    every rejection of [waitForSelector], timeouts and driver faults alike:
    it always resolves and writes nothing.  It answers true exactly when
    some indicator's wait resolves after the waits of all the indicators
    before it were rejected one after the other, and it then stops, on the
    page as that wait left it; it answers false exactly when every wait
    was rejected. *)
Theorem any_appears_swallows_rejections indicators w :
  (∃ b w2, taiko.any_appears indicators w = MkTestRun (Ok b) w2 [])
  ∧ (∀ w2, taiko.any_appears indicators w = MkTestRun (Ok true) w2 []
           ↔ ∃ pre s post w1 el,
               indicators = pre ++ s :: post ∧ taiko.timed_out pre w w1
               ∧ page_waitForSelector s 3000 w1 = (Ok el, w2))
  ∧ (∀ w2, taiko.any_appears indicators w = MkTestRun (Ok false) w2 []
           ↔ taiko.timed_out indicators w w2).
Proof.
  split; [apply any_appears_resolves|].
  split; [intros w2; apply any_appears_true | intros w2; apply any_appears_false].
Qed.
End waits.

Section login.
Context {W H : Type} `{!PageDriver W H} `{!FormDriver W H} `{!TestRunner}.
Implicit Types (w : W).

Lemma goto_gives u w w1 :
  page_goto u w = (Ok tt, w1) → gives (test.lift (page.goto (H:=H) u)) w tt w1 [].
Proof.
  intros Hg. unfold gives, test.lift, page.goto, acting. cbn. now rewrite Hg.
Qed.

Lemma lookup_gives sels w found :
  out (firstSelectorExists sels w) = Ok found →
  gives (test.lift (firstSelectorExists sels)) w found w [].
Proof.
  intros Hf. unfold gives, test.lift. now rewrite Hf, firstSelectorExists_world.
Qed.

Lemma found_is_listed sels w s :
  out (firstSelectorExists sels w) = Ok (Some s) → In s sels.
Proof.
  intros (pre & post & -> & _)%firstSelectorExists_Some. apply in_elt.
Qed.



(** X22.  The second login test, with the three controls found and the
    wrong credentials typed and submitted without fault: it looks for the
    username field again whether or not an error indicator appeared, so a
    fault of that last look-up fails the test even then; when the look-up
    answers, the test passes exactly when an error indicator appeared or
    the username field is still found.  In particular it passes whenever
    the username field is still on the page. *)
Theorem login_negative_verdict w w1 w2 w3 w4 user pass btn :
  page_goto taiko.url w = (Ok tt, w1) →
  out (firstSelectorExists taiko.usernameSelectors2 w1) = Ok (Some user) →
  out (firstSelectorExists taiko.passwordSelectors2 w1) = Ok (Some pass) →
  out (firstSelectorExists taiko.submitSelectors2 w1) = Ok (Some btn) →
  page_fill user "invalid_user_xyz" w1 = (Ok tt, w2) →
  page_fill pass "wrong_password_123" w2 = (Ok tt, w3) →
  page_click btn w3 = (Ok tt, w4) →
  ∃ foundError w5,
    taiko.any_appears taiko.errorSelectors w4 = MkTestRun (Ok foundError) w5 []
    ∧ taiko.login_negative w
      = MkTestRun
          match out (firstSelectorExists taiko.usernameSelectors2 w5) with
          | Ok still =>
              if foundError || present still then Ok tt else Fault toBeTruthy_failure
          | Fault e => Fault e
          end w5 []
    ∧ (∀ s, first_match w5 taiko.usernameSelectors2 s →
         verdict (taiko.login_negative w) = Ok tt).
Proof.
  intros Hgoto Huser Hpass Hbtn Hfill1 Hfill2 Hclick.
  destruct (any_appears_resolves taiko.errorSelectors w4) as (foundError & w5 & Hwait).
  exists foundError, w5. split; [exact Hwait|].
  assert (Hrun : taiko.login_negative w
      = MkTestRun
          match out (firstSelectorExists taiko.usernameSelectors2 w5) with
          | Ok still =>
              if foundError || present still then Ok tt else Fault toBeTruthy_failure
          | Fault e => Fault e
          end w5 []).
  { unfold taiko.login_negative.
    rewrite (test_bind_quiet _ _ _ _ _ (goto_gives _ _ _ Hgoto)).
    rewrite (test_bind_quiet _ _ _ _ _ (lookup_gives _ _ _ Huser)).
    rewrite (test_bind_quiet _ _ _ _ _ (lookup_gives _ _ _ Hpass)).
    rewrite (test_bind_quiet _ _ _ _ _ (lookup_gives _ _ _ Hbtn)).
    assert (Hu : falsy user = false).
    { apply found_is_listed in Huser. cbn in Huser.
      repeat destruct Huser as [<-|Huser]; try reflexivity. destruct Huser. }
    assert (Hp : falsy pass = false).
    { apply found_is_listed in Hpass. cbn in Hpass.
      repeat destruct Hpass as [<-|Hpass]; try reflexivity. destruct Hpass. }
    assert (Hb : falsy btn = false).
    { apply found_is_listed in Hbtn. cbn in Hbtn.
      repeat destruct Hbtn as [<-|Hbtn]; try reflexivity. destruct Hbtn. }
    cbn [missing]. rewrite Hu, Hp, Hb. cbn [orb].
    rewrite (test_bind_quiet _ _ _ _ _ (call_gives _ _ _ _ Hfill1)).
    rewrite (test_bind_quiet _ _ _ _ _ (call_gives _ _ _ _ Hfill2)).
    rewrite (test_bind_quiet _ _ _ _ _ (call_gives _ _ _ _ Hclick)).
    rewrite (test_bind_quiet _ _ _ _ _ Hwait).
    unfold test.bind, test.lift. cbn [verdict page_after console].
    rewrite firstSelectorExists_world.
    destruct (out (firstSelectorExists taiko.usernameSelectors2 w5)) as [still|e];
      [|reflexivity].
    cbn. destruct (foundError || present still); reflexivity. }
  split; [exact Hrun|].
  intros s Hs%firstSelectorExists_Some. rewrite Hrun, Hs. cbn.
  now rewrite orb_true_r.
Qed.
End login.

(** ** The scripts that call runAll *)

Section callers.
Context {W H : Type} `{!PageDriver W H} `{!JsRuntime} `{!TestRunner}.
Implicit Types (w : W).



End callers.

Section stand_alone.
Context {W H : Type} `{!PageDriver W H} `{!JsRuntime} `{!TestRunner}
  `{!randomuser.BrowserDriver W}.
Implicit Types (w : W).

(** X24.  The stand-alone script, once the browser is launched: if the
    page opens, the battery runs, its report is printed or its fault is
    caught and printed as an error, and in both cases the browser is then
    closed, the outcome of the script being that of [close]: a fault of
    [runAll] never comes out of the script.  If the page does not open,
    the script rejects with that fault without closing the browser. *)
Theorem main_closes_browser env w w1 :
  randomuser.chromium_launch false w = (Ok tt, w1) →
  (∀ w2, randomuser.browser_newPage w1 = (Ok tt, w2) →
     let run := runAll (randomuser.options_of env) w2 in
     randomuser.main env w
     = MkTestRun (randomuser.browser_close (world run)).1
         (randomuser.browser_close (world run)).2
         [match out run with
          | Ok report => ConsoleLog (stringify report)
          | Fault err => ConsoleError "Error running checks:" err
          end])
  ∧ (∀ e w2, randomuser.browser_newPage w1 = (Fault e, w2) →
       randomuser.main env w = MkTestRun (Fault e) w2 []).
Proof.
  intros Hlaunch. unfold randomuser.main.
  rewrite (test_bind_quiet _ _ _ _ _ (call_gives _ _ _ _ Hlaunch)). split.
  - intros w2 Hpage. cbn zeta.
    rewrite (test_bind_quiet _ _ _ _ _ (call_gives _ _ _ _ Hpage)).
    unfold test.bind, test.attempt, test.lift, test.say, test.call, test.ret.
    cbn [verdict page_after console].
    destruct (out (runAll (randomuser.options_of env) w2)) as [report|err]; cbn; reflexivity.
  - intros e w2 Hpage. unfold test.bind at 1, test.call at 1. cbn.
    now rewrite Hpage.
Qed.
End stand_alone.

(** ** The theorems above at work on the static pages *)

Lemma missing_email_page_loaded :
  loaded no_options Pages.missing_email_page Pages.missing_email_page.
Proof. split; reflexivity. Qed.

Lemma userCards_first_incomplete_witness :
  out (checkUserCards no_options Pages.missing_email_page)
  = Ok (result false "Card 2 mancano campi obbligatori" (Some (DIndex 2)))
  ∧ length (log (checkUserCards no_options Pages.missing_email_page)) = 11.
Proof.
  destruct (userCards_first_incomplete no_options _ Pages.missing_email_page
              Pages.missing_email_page [1; 2] 3 [] eq_refl missing_email_page_loaded eq_refl)
    as [Hout Hlog].
  - intros c [<-|[<-|[]]]; repeat split; eexists; reflexivity.
  - exists (Some 27), None, (Some 29). repeat split; reflexivity.
  - split; [exact Hout|]. rewrite Hlog. reflexivity.
Defined.

Lemma readableInfo_cases_witness :
  out (checkReadableInfo no_options Static.full_page)
  = Ok {| ok := true; message := Some "Informazioni di facile comprensione presenti";
          details := None |}
  ∧ out (checkReadableInfo no_options Pages.missing_email_page)
    = Ok (result false "Card 1 non ha titolo o testo descrittivo"
            (Some (DReadable false true))).
Proof.
  split.
  - apply (proj1 (proj2 (readableInfo_cases no_options _ Static.full_page Static.full_page
                           eq_refl full_page_loaded)) [1; 2; 3]).
    + discriminate.
    + reflexivity.
    + intros card [<-|[<-|[<-|[]]]]; split; eexists; reflexivity.
  - apply (proj2 (proj2 (readableInfo_cases no_options _ Pages.missing_email_page
                           Pages.missing_email_page eq_refl missing_email_page_loaded))
             [1] 2 [3] None (Some 24)); try reflexivity.
    intros c [<-|[]]. split; eexists; reflexivity.
Defined.

Lemma navbarPhotos_pass_condition_witness :
  ∃ r, yields (checkNavbarPhotos no_options) Static.full_page r Static.full_page
    ∧ ok r = true.
Proof.
  destruct (navbarPhotos_pass_condition no_options _ Static.full_page Static.full_page
              Static.full_page Static.full_page 10 11 [] "1" "1" ""
              eq_refl full_page_loaded eq_refl eq_refl eq_refl eq_refl eq_refl eq_refl eq_refl)
    as (r & Hrun & _ & Hok & _).
  exists r. split; [exact Hrun|]. apply Hok. left. reflexivity.
Defined.

Lemma navbarPhotos_nan_opacity_witness :
  out (checkNavbarPhotos no_options Pages.odd_opacity_page)
  = Ok (result false "Effetto progressivo non evidente"
          (Some (DOpacity "auto" "auto" ""))).
Proof.
  apply (navbarPhotos_nan_opacity no_options _ Pages.odd_opacity_page
           Pages.odd_opacity_page Pages.odd_opacity_page Pages.odd_opacity_page
           10 11 [] "auto" "auto" eq_refl); try reflexivity.
  - split; reflexivity.
  - left. reflexivity.
Defined.

Lemma navbarPhotos_nothing_to_sample_witness :
  yields (checkNavbarPhotos no_options) Pages.missing_email_page
    {| ok := false; message := Some "Seconda voce navbar non trovata"; details := None |}
    Pages.missing_email_page.
Proof.
  apply (proj1 (navbarPhotos_nothing_to_sample no_options _ Pages.missing_email_page
                  Pages.missing_email_page eq_refl missing_email_page_loaded)).
  reflexivity.
Defined.

Lemma accessChart_counts_bars_witness :
  ∃ r, out (checkAccessChart no_options Static.full_page) = Ok r
    ∧ (ok r = true ↔ [17; 18] ≠ []) ∧ details r = Some (DBars 2).
Proof.
  apply (proj2 (accessChart_counts_bars no_options _ Static.full_page Static.full_page
                  eq_refl full_page_loaded) 16 [17; 18]); reflexivity.
Defined.

Lemma donate_antibot_inside_section_witness :
  ∃ r, out (checkDonateAntiBot no_options Static.full_page) = Ok r
    ∧ (ok r = true ↔ is_Some (@None nat) ∨ is_Some (Some 20))
    ∧ details r = Some (DAntiBot false true).
Proof.
  apply (proj2 (donate_antibot_inside_section no_options _ Static.full_page
                  Static.full_page eq_refl full_page_loaded) 19 None (Some 20)); reflexivity.
Defined.

Lemma documentation_all_resolve_witness :
  out (checkDocumentationAnchors no_options Static.full_page)
  = Ok (result true "Anchors validi nella documentazione" (Some (DAnchors 1))).
Proof.
  apply (documentation_all_resolve no_options _ Static.full_page Static.full_page 12 [13]
           eq_refl full_page_loaded eq_refl eq_refl).
  - discriminate.
  - intros a [<-|[]]. reflexivity.
Defined.

Lemma ensurePage_twice_witness :
  let once := ensurePage "http://localhost:3000" Static.empty_page in
  let twice := (ensurePage "http://localhost:3000" ;;; ensurePage "http://localhost:3000")
                 Static.empty_page in
  out twice = out once ∧ world twice = world once
  ∧ navigations (log twice) = navigations (log once).
Proof.
  apply (ensurePage_twice "http://localhost:3000" Static.empty_page).
  intros w' [= <-]. reflexivity.
Defined.

Lemma read_only_checks_leave_page_witness :
  world (run_check UserCards no_options Static.empty_page)
  = world (ensurePage "http://localhost:3000" Static.empty_page)
  ∧ Forall (λ ev, is_interaction ev = false)
      (log (run_check UserCards no_options Static.empty_page)).
Proof.
  exact (read_only_checks_leave_page UserCards no_options Static.empty_page eq_refl).
Defined.


Lemma verdict_matches_message_witness :
  is_Some (message {| ok := true; message := Some "Voce versioni presente";
                      details := None |})
  ∧ (true = true ↔ Some "Voce versioni presente" = Some (success_message VersionsNav)).
Proof.
  exact (verdict_matches_message VersionsNav no_options Static.full_page
           {| ok := true; message := Some "Voce versioni presente"; details := None |}
           eq_refl).
Defined.

Lemma static_location_stays_set : location_stays_set (W:=Static.Page) (H:=nat).
Proof. split; intros ? w Hw; exact Hw. Qed.

Lemma battery_navigates_at_most_once_witness :
  navigations (log (runAll no_options Static.empty_page))
  = [UrlString "http://localhost:3000"]
  ∧ (∀ c cs, navigations (log (run_in_order (c :: cs) no_options Static.empty_page))
             = [UrlString "http://localhost:3000"]).
Proof.
  apply (battery_navigates_at_most_once static_location_stays_set no_options
           Static.empty_page).
  intros w0 w' Hgoto. cbn in Hgoto. unfold Static.navigate in Hgoto.
  destruct (Static.offline w0); [discriminate|]. now injection Hgoto as <-.
Defined.

Lemma runAll_stops_at_first_fault_witness :
  out (runAll Pages.options_without_navbar Static.full_page) = Fault Static.bad_selector
  ∧ last (log (runAll Pages.options_without_navbar Static.full_page))
    = Some (EQuery None (Fault Static.bad_selector)).
Proof.
  assert (Hpre : ∃ results,
            yields (run_in_order [UserCards; RefreshCenter; ReadableInfo; AdvancedSearch]
                      Pages.options_without_navbar)
              Static.full_page results Static.full_page).
  { eexists. split; vm_compute; reflexivity. }
  destruct Hpre as [results Hpre].
  pose proof (runAll_stops_at_first_fault Pages.options_without_navbar Static.full_page
                [UserCards; RefreshCenter; ReadableInfo; AdvancedSearch] NavbarPhotos
                [Documentation; VersionsNav; AccessChart; Donate]
                results Static.full_page Static.bad_selector eq_refl Hpre
                ltac:(vm_compute; reflexivity)) as Hrun.
  rewrite Hrun. split; [reflexivity|].
  cbn [log]. rewrite last_app. vm_compute. reflexivity.
Defined.



Lemma login_negative_verdict_witness :
  verdict (taiko.login_negative Pages.login_page) = Ok tt.
Proof.
  pose (w1 := (Static.navigate taiko.url Pages.login_page).2).
  destruct (login_negative_verdict (H:=nat) Pages.login_page w1 w1 w1 w1
              (taiko.attr "input" "name" "username")
              (taiko.attr "input" "name" "password")
              (taiko.attr "button" "type" "submit"))
    as (foundError & w5 & Hwait & _ & Hstill); [reflexivity..|].
  injection Hwait as _ <-.
  apply (Hstill (taiko.attr "input" "name" "username")).
  exists [], [ "input#username"; taiko.attr "input" "type" "text" ].
  split; [reflexivity|]. split; [intros p []|]. exists 1. reflexivity.
Defined.

Lemma main_closes_browser_witness :
  randomuser.main ∅ Static.full_page
  = MkTestRun (Ok tt) Static.full_page [ConsoleLog "all ok"]
  ∧ randomuser.main ∅ Static.offline_page
    = MkTestRun (Ok tt) Static.offline_page
        [ConsoleError "Error running checks:" Static.unreachable].
Proof.
  pose proof (main_closes_browser (W:=Static.Page) (H:=nat) ∅ Static.full_page
                Static.full_page) as Hfull.
  pose proof (main_closes_browser (W:=Static.Page) (H:=nat) ∅ Static.offline_page
                Static.offline_page) as Hoffline.
  split.
  - rewrite (proj1 (Hfull eq_refl) Static.full_page eq_refl). vm_compute. reflexivity.
  - rewrite (proj1 (Hoffline eq_refl) Static.offline_page eq_refl). vm_compute. reflexivity.
Defined.
